(** * claude-proxy: forward proxy, SSH reverse tunnel and configuration

    A shallow embedding of the Go sources [config.go], [app.go],
    [proxy.go] and [ssh_tunnel.go], with the properties of the
    specification stated and proved over it.

    Conventions of the embedding:
    - a Go [int] is a [Z] (no arithmetic is performed on ports);
    - a Go [string] is a [string] of bytes, [len] is [String.length];
    - a method with a pointer receiver that mutates its receiver is a
      function returning the new value of the receiver;
    - a [map[string][]string] is a [gmap string (list string)];
    - blocking calls and goroutines are driven by an explicit list of
      environment events (see the tunnel and relay sections). *)

From Stdlib Require Import ZArith String Ascii List Bool Lia Sorted.
From stdpp Require Import gmap strings list fin_maps pretty.
Import ListNotations.

Set Warnings "-register-all".
Set Default Proof Using "Type".

Local Open Scope string_scope.
Local Open Scope list_scope.
Local Open Scope Z_scope.

(** ** config.go *)

Record RemoteRecord := mkRemoteRecord {
  rec_ID : string;
  rec_Name : string;
  rec_SSHHost : string;
  rec_SSHPort : Z;
  rec_SSHUser : string;
  rec_SSHKeyPath : string;
  rec_ProxyPort : Z;
  rec_RemotePort : Z;
  rec_HTTPProxy : string;
  rec_HTTPSProxy : string;
  rec_LogLevel : string
}.

Record Config := mkConfig {
  Records : list RemoteRecord;
  ActiveID : string;
  RecordName : string;
  SSHHost : string;
  SSHPort : Z;
  SSHUser : string;
  SSHPassword : string;
  SSHKeyPath : string;
  SSHKeyPassphrase : string;
  ProxyPort : Z;
  RemotePort : Z;
  HTTPProxy : string;
  HTTPSProxy : string;
  LogLevel : string
}.

(** The zero value of the struct, what [json.Unmarshal] starts from. *)
Definition zeroConfig : Config :=
  mkConfig [] "" "" "" 0 "" "" "" "" 0 0 "" "" "".

Definition set_Records (rs : list RemoteRecord) (c : Config) : Config :=
  mkConfig rs (ActiveID c) (RecordName c) (SSHHost c) (SSHPort c) (SSHUser c)
    (SSHPassword c) (SSHKeyPath c) (SSHKeyPassphrase c) (ProxyPort c)
    (RemotePort c) (HTTPProxy c) (HTTPSProxy c) (LogLevel c).

Definition set_ActiveID (id : string) (c : Config) : Config :=
  mkConfig (Records c) id (RecordName c) (SSHHost c) (SSHPort c) (SSHUser c)
    (SSHPassword c) (SSHKeyPath c) (SSHKeyPassphrase c) (ProxyPort c)
    (RemotePort c) (HTTPProxy c) (HTTPSProxy c) (LogLevel c).

Definition set_RecordName (n : string) (c : Config) : Config :=
  mkConfig (Records c) (ActiveID c) n (SSHHost c) (SSHPort c) (SSHUser c)
    (SSHPassword c) (SSHKeyPath c) (SSHKeyPassphrase c) (ProxyPort c)
    (RemotePort c) (HTTPProxy c) (HTTPSProxy c) (LogLevel c).

Definition set_SSHPassword (pw : string) (c : Config) : Config :=
  mkConfig (Records c) (ActiveID c) (RecordName c) (SSHHost c) (SSHPort c)
    (SSHUser c) pw (SSHKeyPath c) (SSHKeyPassphrase c) (ProxyPort c)
    (RemotePort c) (HTTPProxy c) (HTTPSProxy c) (LogLevel c).

Definition set_SSHKeyPassphrase (pp : string) (c : Config) : Config :=
  mkConfig (Records c) (ActiveID c) (RecordName c) (SSHHost c) (SSHPort c)
    (SSHUser c) (SSHPassword c) (SSHKeyPath c) pp (ProxyPort c)
    (RemotePort c) (HTTPProxy c) (HTTPSProxy c) (LogLevel c).

Definition set_ports (sp pp rp : Z) (c : Config) : Config :=
  mkConfig (Records c) (ActiveID c) (RecordName c) (SSHHost c) sp
    (SSHUser c) (SSHPassword c) (SSHKeyPath c) (SSHKeyPassphrase c) pp
    rp (HTTPProxy c) (HTTPSProxy c) (LogLevel c).

(** [newRecordID] draws eight random bytes (or the clock).  The source of
    identifiers is a function of a draw counter; every function that may
    call [newRecordID] threads the counter. *)
Definition idsource := nat -> string.

(** [applyDefaultsToRecord]: the three [if record.X == 0] assignments. *)
Definition applyDefaultsToRecord (r : RemoteRecord) : RemoteRecord :=
  let sp := if rec_SSHPort r =? 0 then 22 else rec_SSHPort r in
  let pp := if rec_ProxyPort r =? 0 then 8080 else rec_ProxyPort r in
  let rp := if rec_RemotePort r =? 0 then 8080 else rec_RemotePort r in
  mkRemoteRecord (rec_ID r) (rec_Name r) (rec_SSHHost r) sp (rec_SSHUser r)
    (rec_SSHKeyPath r) pp rp (rec_HTTPProxy r) (rec_HTTPSProxy r)
    (rec_LogLevel r).

Definition set_rec_ID (id : string) (r : RemoteRecord) : RemoteRecord :=
  mkRemoteRecord id (rec_Name r) (rec_SSHHost r) (rec_SSHPort r)
    (rec_SSHUser r) (rec_SSHKeyPath r) (rec_ProxyPort r) (rec_RemotePort r)
    (rec_HTTPProxy r) (rec_HTTPSProxy r) (rec_LogLevel r).

Definition set_rec_Name (n : string) (r : RemoteRecord) : RemoteRecord :=
  mkRemoteRecord (rec_ID r) n (rec_SSHHost r) (rec_SSHPort r)
    (rec_SSHUser r) (rec_SSHKeyPath r) (rec_ProxyPort r) (rec_RemotePort r)
    (rec_HTTPProxy r) (rec_HTTPSProxy r) (rec_LogLevel r).

(** [getActiveRecord]: [None] is the nil pointer. *)
Fixpoint find_by_ID (id : string) (rs : list RemoteRecord) : option RemoteRecord :=
  match rs with
  | [] => None
  | r :: rs' => if String.eqb (rec_ID r) id then Some r else find_by_ID id rs'
  end.

Definition getActiveRecord (c : Config) : option RemoteRecord :=
  if String.eqb (ActiveID c) "" then None else find_by_ID (ActiveID c) (Records c).

(** [findRecordIndex]: index of the first record with that ID, or -1. *)
Fixpoint findIndex_from (i : Z) (id : string) (rs : list RemoteRecord) : Z :=
  match rs with
  | [] => -1
  | r :: rs' => if String.eqb (rec_ID r) id then i else findIndex_from (i + 1) id rs'
  end.

Definition findRecordIndex (c : Config) (id : string) : Z :=
  findIndex_from 0 id (Records c).

Definition syncLegacyFromActive (c : Config) : Config :=
  match getActiveRecord c with
  | None => c
  | Some record =>
      mkConfig (Records c) (ActiveID c) (rec_Name record) (rec_SSHHost record)
        (rec_SSHPort record) (rec_SSHUser record) (SSHPassword c)
        (rec_SSHKeyPath record) (SSHKeyPassphrase c) (rec_ProxyPort record)
        (rec_RemotePort record) (rec_HTTPProxy record) (rec_HTTPSProxy record)
        (if String.eqb (rec_LogLevel record) "" then "INFO" else rec_LogLevel record)
  end.

(** The [for i := range c.Records] loop of [normalize]. *)
Fixpoint normalize_records (ids : idsource) (n : nat) (rs : list RemoteRecord)
  : list RemoteRecord * nat :=
  match rs with
  | [] => ([], n)
  | r :: rs' =>
      let r1 := applyDefaultsToRecord r in
      let '(r2, n1) :=
        if String.eqb (rec_ID r1) "" then (set_rec_ID (ids n) r1, S n) else (r1, n) in
      let '(rest, n2) := normalize_records ids n1 rs' in
      (r2 :: rest, n2)
  end.

Definition first_ID (rs : list RemoteRecord) : string :=
  match rs with r :: _ => rec_ID r | [] => "" end.

Definition normalize (ids : idsource) (n : nat) (c : Config) : Config * nat :=
  let '(c1, n1) :=
    match Records c with
    | [] =>
        let record :=
          mkRemoteRecord (ids n) (RecordName c) (SSHHost c) (SSHPort c)
            (SSHUser c) (SSHKeyPath c) (ProxyPort c) (RemotePort c)
            (HTTPProxy c) (HTTPSProxy c) "" in
        (set_Records [applyDefaultsToRecord record] c, S n)
    | _ :: _ => (c, n)
    end in
  let '(rs, n2) := normalize_records ids n1 (Records c1) in
  let c2 := set_Records rs c1 in
  let c3 :=
    if String.eqb (ActiveID c2) "" && negb (Nat.eqb (length (Records c2)) 0)
    then set_ActiveID (first_ID (Records c2)) c2 else c2 in
  let c4 :=
    if negb (String.eqb (ActiveID c3) "")
       && (findRecordIndex c3 (ActiveID c3) =? -1)
       && negb (Nat.eqb (length (Records c3)) 0)
    then set_ActiveID (first_ID (Records c3)) c3 else c3 in
  (c4, n2).

Definition DefaultConfig (ids : idsource) (n : nat) : Config * nat :=
  let record := mkRemoteRecord (ids n) "" "" 22 "" "" 8080 8080 "" "" "" in
  let config :=
    mkConfig [record] (rec_ID record) "" "" 0 "" "" "" "" 0 0 "" "" "" in
  (syncLegacyFromActive config, S n).

(** Outcome of reading and parsing the configuration file in
    [LoadOrCreateConfig]. *)
Inductive config_file :=
| FileMissing
| FileUnreadable (err : string)
| FileUnparsable (err : string)
| FileParsed (c : Config).

Definition LoadOrCreateConfig (ids : idsource) (n : nat) (f : config_file)
  : (Config + string) * nat :=
  match f with
  | FileMissing => let '(c, n') := DefaultConfig ids n in (inl c, n')
  | FileUnreadable e => (inr ("failed to read config: " +:+ e), n)
  | FileUnparsable e => (inr ("failed to parse config: " +:+ e), n)
  | FileParsed c => let '(c', n') := normalize ids n c in (inl c', n')
  end.

(** The JSON document [encoding/json] builds from the struct tags; a field
    tagged [omitempty] is left out when it is the empty string or an empty
    slice. *)
Inductive json :=
| JStr (s : string)
| JInt (z : Z)
| JArr (l : list json)
| JObj (l : list (string * json)).

Definition field_str (k v : string) : list (string * json) := [(k, JStr v)].
Definition field_str_omitempty (k v : string) : list (string * json) :=
  if String.eqb v "" then [] else [(k, JStr v)].
Definition field_int (k : string) (v : Z) : list (string * json) := [(k, JInt v)].

Definition json_of_record (r : RemoteRecord) : json :=
  JObj (field_str "id" (rec_ID r)
     ++ field_str_omitempty "name" (rec_Name r)
     ++ field_str "ssh_host" (rec_SSHHost r)
     ++ field_int "ssh_port" (rec_SSHPort r)
     ++ field_str "ssh_user" (rec_SSHUser r)
     ++ field_str_omitempty "ssh_key_path" (rec_SSHKeyPath r)
     ++ field_int "proxy_port" (rec_ProxyPort r)
     ++ field_int "remote_port" (rec_RemotePort r)
     ++ field_str_omitempty "http_proxy" (rec_HTTPProxy r)
     ++ field_str_omitempty "https_proxy" (rec_HTTPSProxy r)
     ++ field_str_omitempty "log_level" (rec_LogLevel r)).

Definition json_of_config (c : Config) : json :=
  JObj ((match Records c with
         | [] => []
         | rs => [("records", JArr (map json_of_record rs))]
         end)
     ++ field_str_omitempty "active_id" (ActiveID c)
     ++ field_str_omitempty "record_name" (RecordName c)
     ++ field_str "ssh_host" (SSHHost c)
     ++ field_int "ssh_port" (SSHPort c)
     ++ field_str "ssh_user" (SSHUser c)
     ++ field_str_omitempty "ssh_password" (SSHPassword c)
     ++ field_str_omitempty "ssh_key_path" (SSHKeyPath c)
     ++ field_str_omitempty "ssh_key_passphrase" (SSHKeyPassphrase c)
     ++ field_int "proxy_port" (ProxyPort c)
     ++ field_int "remote_port" (RemotePort c)
     ++ field_str_omitempty "http_proxy" (HTTPProxy c)
     ++ field_str_omitempty "https_proxy" (HTTPSProxy c)
     ++ field_str "log_level" (LogLevel c)).

(** [Save]: the receiver after [normalize] and [syncLegacyFromActive], the
    draw counter, and the document handed to [os.WriteFile].  The printer
    [MarshalIndent] of [encoding/json] is an argument. *)
Definition configToSave (c : Config) : Config :=
  set_RecordName "" (set_SSHKeyPassphrase "" (set_SSHPassword "" c)).

Definition Save_receiver (ids : idsource) (n : nat) (c : Config) : Config * nat :=
  let '(c1, n1) := normalize ids n c in (syncLegacyFromActive c1, n1).

Definition Save_document (ids : idsource) (n : nat) (c : Config) : json :=
  json_of_config (configToSave (fst (Save_receiver ids n c))).

Definition Save {B : Type} (MarshalIndent : json -> B)
    (ids : idsource) (n : nat) (c : Config) : (Config * nat) * B :=
  (Save_receiver ids n c, MarshalIndent (Save_document ids n c)).

(** ** app.go: the configuration surface of the coordinator *)

Record App := mkApp {
  config : Config;
  logs : list string
}.

(** [GetConfig]: a copy of [a.config] with the two secrets cleared, then
    [syncLegacyFromActive] on the copy. *)
Definition GetConfig (a : App) : Config :=
  syncLegacyFromActive (set_SSHKeyPassphrase "" (set_SSHPassword "" (config a))).

(** The three [if config.X == 0] assignments that open [SaveConfig] and
    follow the stop calls in [Start]; they act on the caller's [config]. *)
Definition applyPortDefaults (c : Config) : Config :=
  set_ports (if SSHPort c =? 0 then 22 else SSHPort c)
            (if ProxyPort c =? 0 then 8080 else ProxyPort c)
            (if RemotePort c =? 0 then 8080 else RemotePort c) c.

(** [a.config.Records[idx] = record]. *)
Fixpoint replace_at (idx : nat) (r : RemoteRecord) (rs : list RemoteRecord)
  : list RemoteRecord :=
  match rs, idx with
  | [], _ => []
  | _ :: rs', O => r :: rs'
  | x :: rs', S i => x :: replace_at i r rs'
  end.

Definition name_at (idx : Z) (rs : list RemoteRecord) : string :=
  match nth_error rs (Z.to_nat idx) with Some r => rec_Name r | None => "" end.

(** [upsertRecordFromConfigLocked]: returns the new [a.config]. *)
Definition upsertRecordFromConfigLocked (ids : idsource) (n : nat)
    (ac : Config) (cfg : Config) : Config * nat :=
  let '(ac1, n1) := normalize ids n ac in
  let '(recordID, n2) :=
    if String.eqb (ActiveID cfg) "" then (ids n1, S n1) else (ActiveID cfg, n1) in
  let record :=
    mkRemoteRecord recordID (RecordName cfg) (SSHHost cfg) (SSHPort cfg)
      (SSHUser cfg) (SSHKeyPath cfg) (ProxyPort cfg) (RemotePort cfg)
      (HTTPProxy cfg) (HTTPSProxy cfg) (LogLevel cfg) in
  let record1 :=
    if String.eqb (rec_Name record) "" then
      let idx := findRecordIndex ac1 (rec_ID record) in
      if 0 <=? idx then set_rec_Name (name_at idx (Records ac1)) record else record
    else record in
  let record2 := applyDefaultsToRecord record1 in
  let idx := findRecordIndex ac1 (rec_ID record2) in
  let ac2 :=
    if 0 <=? idx then set_Records (replace_at (Z.to_nat idx) record2 (Records ac1)) ac1
    else set_Records (Records ac1 ++ [record2]) ac1 in
  (syncLegacyFromActive (set_ActiveID (rec_ID record2) ac2), n2).

(** ** proxy.go: substring test used on the upstream proxy's answer *)

Definition len (s : string) : nat := String.length s.

(** The slice expression [s[i:j]] on a string, for [i <= j <= len(s)]. *)
Definition slice (s : string) (i j : nat) : string := substring i (j - i) s.

(** [stringContains]: [for i := 0; i <= len(s)-len(substr); i++]; the bound
    is a signed difference, the loop body runs for [i] from 0 to it. *)
Fixpoint stringContains_loop (s substr : string) (i k : nat) : bool :=
  match k with
  | O => false
  | S k' =>
      if String.eqb (slice s i (i + len substr)) substr then true
      else stringContains_loop s substr (S i) k'
  end.

Definition stringContains (s substr : string) : bool :=
  stringContains_loop s substr 0
    (Z.to_nat (Z.of_nat (len s) - Z.of_nat (len substr) + 1)).

Definition contains (s substr : string) : bool :=
  (len substr <=? len s)%nat
  && (String.eqb (slice s 0 (len substr)) substr
      || ((len substr <? len s)%nat
          && String.eqb (slice s 1 (len substr + 1)) substr)
      || stringContains s substr).

Definition min (a b : Z) : Z := if a <? b then a else b.

(** ** proxy.go: network environment, response writer, effects *)

Definition conn := nat.

Abbreviation header := (gmap string (list string)).

(** What [url.Parse] yields: [u.Host], [u.Hostname()] and [u.Port()]. *)
Record URL := mkURL { url_Host : string; url_Hostname : string; url_Port : string }.

(** One [Read] on a stream: the bytes delivered and the error, if any. *)
Record read_result := mkRead { rd_data : string; rd_err : option string }.

Record Request := mkRequest {
  Method : string;
  req_URL : string;
  req_Host : string;
  req_Header : header;
  req_Body : string
}.

Record Response := mkResponse {
  StatusCode : Z;
  resp_Header : header;
  resp_Body : list read_result
}.

(** The answers of the operating system and of the peers: every call the
    handlers make on the network is looked up here. *)
Record netenv := mkNetenv {
  url_Parse : string -> URL + string;
  net_Dial : string -> conn + string;
  conn_Write : conn -> string -> option string;
  conn_Read : conn -> string + string;
  http_NewRequest : string -> string -> option string;
  roundTrip : option string -> Request -> Response + string;
  redirect_of : Request -> Response -> option Request
}.

(** The [http.ResponseWriter] of one request: what has been written to it,
    and whether it is an [http.Hijacker] ([Some] result of [Hijack()]) and
    an [http.Flusher]. *)
Record ResponseWriter := mkWriter {
  w_header : header;
  w_status : option Z;
  w_body : list string;
  w_flushes : nat;
  w_hijacker : option (conn + string);
  w_flusher : bool
}.

Inductive event :=
| EvLog (level msg : string)
| EvDial (addr : string)
| EvConnWrite (c : conn) (data : string)
| EvConnClose (c : conn)
| EvHijack
| EvRelay (clientConn targetConn : conn)
| EvRoundTrip (viaProxy : option string) (outReq : Request).

Definition LevelError := "ERROR".
Definition LevelInfo := "INFO".
Definition LevelDebug := "DEBUG".

Record ProxyServer := mkProxyServer {
  port : Z;
  httpProxy : string;
  httpsProxy : string
}.

Definition NewProxyServer (port : Z) (httpProxy httpsProxy : string) : ProxyServer :=
  mkProxyServer port httpProxy httpsProxy.

(** [w.WriteHeader]: the first status written wins. *)
Definition WriteHeader (code : Z) (w : ResponseWriter) : ResponseWriter :=
  mkWriter (w_header w) (match w_status w with Some s => Some s | None => Some code end)
    (w_body w) (w_flushes w) (w_hijacker w) (w_flusher w).

(** [w.Write]: an implicit [WriteHeader(200)] if no status was written. *)
Definition w_Write (data : string) (w : ResponseWriter) : ResponseWriter :=
  mkWriter (w_header w) (match w_status w with Some s => Some s | None => Some 200 end)
    (w_body w ++ [data]) (w_flushes w) (w_hijacker w) (w_flusher w).

Definition w_Flush (w : ResponseWriter) : ResponseWriter :=
  mkWriter (w_header w) (w_status w) (w_body w) (S (w_flushes w))
    (w_hijacker w) (w_flusher w).

Definition w_setHeader (h : header) (w : ResponseWriter) : ResponseWriter :=
  mkWriter h (w_status w) (w_body w) (w_flushes w) (w_hijacker w) (w_flusher w).

(** [http.Error] of [net/http]: plain-text headers, the status, and the
    message followed by a newline. *)
Definition http_Error (msg : string) (code : Z) (w : ResponseWriter) : ResponseWriter :=
  let h := <["X-Content-Type-Options" := ["nosniff"]]>
             (<["Content-Type" := ["text/plain; charset=utf-8"]]> (w_header w)) in
  w_Write (msg +:+ String "010"%char "") (WriteHeader code (w_setHeader h w)).

Definition StatusBadGateway := 502.
Definition StatusInternalServerError := 500.

Definition CRLF : string := String "013"%char (String "010"%char "").

(** [net.JoinHostPort]: brackets around a host holding a colon or a
    percent sign. *)
Fixpoint has_byte (b : ascii) (s : string) : bool :=
  match s with
  | EmptyString => false
  | String a s' => Ascii.eqb a b || has_byte b s'
  end.

Definition JoinHostPort (host port : string) : string :=
  if has_byte ":"%char host || has_byte "%"%char host
  then "[" +:+ host +:+ "]:" +:+ port
  else host +:+ ":" +:+ port.

(** [dialThroughProxy]: the connection or the error, and the effects. *)
Definition dialThroughProxy (env : netenv) (proxyURL targetHost : string)
  : (conn + string) * list event :=
  match url_Parse env proxyURL with
  | inr err => (inr ("invalid proxy URL: " +:+ err), [])
  | inl parsedURL =>
      let proxyAddr :=
        if String.eqb (url_Port parsedURL) ""
        then JoinHostPort (url_Hostname parsedURL) "80"
        else url_Host parsedURL in
      match net_Dial env proxyAddr with
      | inr err =>
          (inr ("failed to connect to proxy " +:+ proxyAddr +:+ ": " +:+ err),
           [EvDial proxyAddr])
      | inl c =>
          let connectReq :=
            "CONNECT " +:+ targetHost +:+ " HTTP/1.1" +:+ CRLF
            +:+ "Host: " +:+ targetHost +:+ CRLF +:+ CRLF in
          match conn_Write env c connectReq with
          | Some err =>
              (inr ("failed to send CONNECT to proxy: " +:+ err),
               [EvDial proxyAddr; EvConnWrite c connectReq; EvConnClose c])
          | None =>
              match conn_Read env c with
              | inr err =>
                  (inr ("failed to read proxy response: " +:+ err),
                   [EvDial proxyAddr; EvConnWrite c connectReq; EvConnClose c])
              | inl responseStr =>
                  if negb (contains responseStr "200") && negb (contains responseStr "201")
                  then
                    (inr ("proxy rejected connection: "
                          +:+ slice responseStr 0
                                (Z.to_nat (min 200 (Z.of_nat (len responseStr))))),
                     [EvDial proxyAddr; EvConnWrite c connectReq; EvConnClose c])
                  else
                    (inl c,
                     [EvDial proxyAddr; EvConnWrite c connectReq;
                      EvLog LevelDebug
                        ("Connected to " +:+ targetHost +:+ " through proxy " +:+ proxyAddr)])
              end
          end
      end
  end.

Definition established : string := "HTTP/1.1 200 Connection Established" +:+ CRLF +:+ CRLF.

(** [handleConnect].  The two copy goroutines and [wg.Wait] are the single
    effect [EvRelay]; their behaviour is the subject of the relay section.
    Deferred [Close] calls run last, the client's before the target's. *)
Definition handleConnect (p : ProxyServer) (env : netenv) (r : Request)
    (w : ResponseWriter) : ResponseWriter * list event :=
  let hello := EvLog LevelDebug (">> 收到 HTTPS 请求: " +:+ req_Host r) in
  let '(dialed, evs) :=
    if negb (String.eqb (httpsProxy p) "")
    then dialThroughProxy env (httpsProxy p) (req_Host r)
    else (net_Dial env (req_Host r), [EvDial (req_Host r)]) in
  match dialed with
  | inr err =>
      let msg := "Failed to connect to " +:+ req_Host r +:+ ": " +:+ err in
      (http_Error msg StatusBadGateway w, hello :: evs ++ [EvLog LevelError msg])
  | inl targetConn =>
      match w_hijacker w with
      | None =>
          (http_Error "Hijacking not supported" StatusInternalServerError w,
           hello :: evs ++ [EvConnClose targetConn])
      | Some (inr err) =>
          (http_Error ("Hijack failed: " +:+ err) StatusInternalServerError w,
           hello :: evs ++ [EvHijack; EvConnClose targetConn])
      | Some (inl clientConn) =>
          match conn_Write env clientConn established with
          | Some err =>
              (w, hello :: evs
                  ++ [EvHijack; EvConnWrite clientConn established;
                      EvLog LevelError ("Failed to send connection established: " +:+ err);
                      EvConnClose clientConn; EvConnClose targetConn])
          | None =>
              (w, hello :: evs
                  ++ [EvHijack; EvConnWrite clientConn established;
                      EvRelay clientConn targetConn;
                      EvLog LevelDebug ("CONNECT " +:+ req_Host r +:+ " completed");
                      EvConnClose clientConn; EvConnClose targetConn])
          end
      end
  end.

(** ** proxy.go: plain HTTP requests *)

(** [textproto.CanonicalMIMEHeaderKey] of the Go library: a key with a
    byte outside the token alphabet is left as it is; otherwise the first
    letter and every letter after a hyphen is upper case, the others lower
    case. *)
Definition is_lower (c : ascii) : bool :=
  let n := nat_of_ascii c in ((97 <=? n) && (n <=? 122))%nat.
Definition is_upper (c : ascii) : bool :=
  let n := nat_of_ascii c in ((65 <=? n) && (n <=? 90))%nat.
Definition is_digit (c : ascii) : bool :=
  let n := nat_of_ascii c in ((48 <=? n) && (n <=? 57))%nat.

Definition validHeaderFieldByte (c : ascii) : bool :=
  is_lower c || is_upper c || is_digit c
  || has_byte c "!#$%&'*+-.^_`|~".

Fixpoint all_bytes (f : ascii -> bool) (s : string) : bool :=
  match s with
  | EmptyString => true
  | String a s' => f a && all_bytes f s'
  end.

Fixpoint canon_case (upper : bool) (s : string) : string :=
  match s with
  | EmptyString => EmptyString
  | String c s' =>
      let c' :=
        if upper && is_lower c then ascii_of_nat (nat_of_ascii c - 32)
        else if negb upper && is_upper c then ascii_of_nat (nat_of_ascii c + 32)
        else c in
      String c' (canon_case (Ascii.eqb c' "-"%char) s')
  end.

Definition CanonicalMIMEHeaderKey (s : string) : string :=
  if all_bytes validHeaderFieldByte s then canon_case true s else s.

(** [Header.Add], [Header.Del] and [Header.Values]. *)
Definition Header_Add (key value : string) (h : header) : header :=
  let k := CanonicalMIMEHeaderKey key in
  <[k := default [] (h !! k) ++ [value]]> h.

Definition Header_Del (key : string) (h : header) : header :=
  delete (CanonicalMIMEHeaderKey key) h.

Definition Header_Values (h : header) (key : string) : list string :=
  default [] (h !! CanonicalMIMEHeaderKey key).

(** The nested [range] loops that copy a header: [entries] is the
    sequence in which the map iteration visits the keys, which Go leaves
    unspecified. *)
Definition copy_values (key : string) (values : list string) (h : header) : header :=
  foldl (fun acc value => Header_Add key value acc) h values.

Definition copy_header (entries : list (string * list string)) (h : header) : header :=
  foldl (fun acc kv => copy_values (fst kv) (snd kv) acc) h entries.

Definition strip_hop_by_hop (h : header) : header :=
  Header_Del "Proxy-Authorization"
    (Header_Del "Proxy-Authenticate" (Header_Del "Proxy-Connection" h)).

(** The value a [CheckRedirect] function returns. *)
Inductive redirect_decision := FollowRedirect | ErrUseLastResponse | RedirectError (e : string).

(** The [CheckRedirect] closure of [handleHTTP]. *)
Definition CheckRedirect (req : Request) (via : list Request) : redirect_decision :=
  ErrUseLastResponse.

Definition is_redirect (code : Z) : bool :=
  (code =? 301) || (code =? 302) || (code =? 303) || (code =? 307) || (code =? 308).

(** [http.Client.Do] of the Go library, as far as redirects go: a 3xx
    answer with a usable [Location] is submitted to [CheckRedirect];
    [ErrUseLastResponse] hands that answer back with a nil error. *)
Fixpoint client_Do (fuel : nat) (env : netenv) (transportProxy : option string)
    (check : Request -> list Request -> redirect_decision)
    (via : list Request) (req : Request)
  : (Response + string) * list event :=
  match roundTrip env transportProxy req with
  | inr e => (inr e, [EvRoundTrip transportProxy req])
  | inl resp =>
      if is_redirect (StatusCode resp) then
        match redirect_of env req resp with
        | None => (inl resp, [EvRoundTrip transportProxy req])
        | Some next =>
            match check next (via ++ [req]) with
            | ErrUseLastResponse => (inl resp, [EvRoundTrip transportProxy req])
            | RedirectError e => (inr e, [EvRoundTrip transportProxy req])
            | FollowRedirect =>
                match fuel with
                | O => (inr "stopped after 10 redirects", [EvRoundTrip transportProxy req])
                | S fuel' =>
                    let '(res, evs) :=
                      client_Do fuel' env transportProxy check (via ++ [req]) next in
                    (res, EvRoundTrip transportProxy req :: evs)
                end
            end
        end
      else (inl resp, [EvRoundTrip transportProxy req])
  end.

(** The streaming loop: [Read] into the 4096-byte buffer, [Write] and
    [Flush] when [n > 0], leave on the first error.  A reader with no read
    left answers [0, io.EOF]. *)
Fixpoint stream_body (reads : list read_result) (w : ResponseWriter) : ResponseWriter :=
  match reads with
  | [] => w
  | rd :: rest =>
      let w1 := if (0 <? len (rd_data rd))%nat then w_Flush (w_Write (rd_data rd) w) else w in
      match rd_err rd with
      | Some _ => w1
      | None => stream_body rest w1
      end
  end.

(** [io.Copy(w, resp.Body)]: the same reads, written without flushing. *)
Fixpoint io_Copy (reads : list read_result) (w : ResponseWriter) : ResponseWriter :=
  match reads with
  | [] => w
  | rd :: rest =>
      let w1 := if (0 <? len (rd_data rd))%nat then w_Write (rd_data rd) w else w in
      match rd_err rd with
      | Some _ => w1
      | None => io_Copy rest w1
      end
  end.

(** [handleHTTP].  [inOrder] and [outOrder] are the orders in which the two
    header maps are ranged over. *)
Definition handleHTTP (p : ProxyServer) (env : netenv)
    (inOrder outOrder : header -> list (string * list string))
    (r : Request) (w : ResponseWriter) : ResponseWriter * list event :=
  let hello := EvLog LevelDebug (">> 收到 HTTP 请求: " +:+ Method r +:+ " " +:+ req_URL r) in
  match http_NewRequest env (Method r) (req_URL r) with
  | Some err =>
      (http_Error ("Failed to create request: " +:+ err) StatusInternalServerError w,
       [hello])
  | None =>
      let outHeader := strip_hop_by_hop (copy_header (inOrder (req_Header r)) ∅) in
      let outReq := mkRequest (Method r) (req_URL r) (req_Host r) outHeader (req_Body r) in
      let '(transportProxy, evp) :=
        if negb (String.eqb (httpProxy p) "") then
          match url_Parse env (httpProxy p) with
          | inl _ =>
              (Some (httpProxy p),
               [EvLog LevelDebug ("Using upstream HTTP proxy: " +:+ httpProxy p)])
          | inr _ => (None, [])
          end
        else (None, []) in
      let '(res, evs) := client_Do 10 env transportProxy CheckRedirect [] outReq in
      match res with
      | inr err =>
          (http_Error ("Failed to send request: " +:+ err) StatusBadGateway w,
           hello :: evp ++ evs)
      | inl resp =>
          let w1 := w_setHeader (copy_header (outOrder (resp_Header resp)) (w_header w)) w in
          let w2 := WriteHeader (StatusCode resp) w1 in
          let w3 := if w_flusher w then stream_body (resp_Body resp) w2
                    else io_Copy (resp_Body resp) w2 in
          (w3, hello :: evp ++ evs)
      end
  end.

Definition MethodConnect := "CONNECT".

(** [handleRequest]. *)
Definition handleRequest (p : ProxyServer) (env : netenv)
    (inOrder outOrder : header -> list (string * list string))
    (r : Request) (w : ResponseWriter) : ResponseWriter * list event :=
  if String.eqb (Method r) MethodConnect then handleConnect p env r w
  else handleHTTP p env inOrder outOrder r w.

(** The server of [Start]: [net/http] runs the handler once per request it
    accepts, each with a writer of its own. *)
Definition Serve (p : ProxyServer) (env : netenv)
    (inOrder outOrder : header -> list (string * list string))
    (reqs : list (Request * ResponseWriter)) : list (ResponseWriter * list event) :=
  map (fun rw => handleRequest p env inOrder outOrder (fst rw) (snd rw)) reqs.

(** ** ssh_tunnel.go: authentication methods *)

Inductive AuthMethod :=
| AgentAuth
| KeyAuth (path : string)
| PasswordAuth (password : string)
| KeyboardInteractive.

(** What the host answers to [buildAuthMethods]: the agent socket named by
    the environment, the agent, the home directory and the key files. *)
Record hostenv := mkHostenv {
  SSH_AUTH_SOCK : string;
  agent_reachable : bool;
  agent_List : option nat;
  UserHomeDir : option string;
  os_Stat : string -> bool;
  os_ReadFile : string -> option string;
  ParsePrivateKey : string -> bool;
  ParsePrivateKeyWithPassphrase : string -> string -> bool;
  select_pick : nat -> bool
}.

Record SSHTunnel := mkSSHTunnel {
  t_config : Config;
  client : option nat;
  listener : option nat;
  stopChan_closed : bool;
  reconnect : bool;
  OnStatusChange : bool;
  PasswordPrompt : option string
}.

Definition NewSSHTunnel (cfg : Config) : SSHTunnel :=
  mkSSHTunnel cfg None None false true false None.

Definition with_callbacks (status : bool) (prompt : option string) (t : SSHTunnel) : SSHTunnel :=
  mkSSHTunnel (t_config t) (client t) (listener t) (stopChan_closed t)
    (reconnect t) status prompt.

Definition set_client (c : option nat) (t : SSHTunnel) : SSHTunnel :=
  mkSSHTunnel (t_config t) c (listener t) (stopChan_closed t) (reconnect t)
    (OnStatusChange t) (PasswordPrompt t).

Definition set_listener (l : option nat) (t : SSHTunnel) : SSHTunnel :=
  mkSSHTunnel (t_config t) (client t) l (stopChan_closed t) (reconnect t)
    (OnStatusChange t) (PasswordPrompt t).

Definition set_t_config (c : Config) (t : SSHTunnel) : SSHTunnel :=
  mkSSHTunnel c (client t) (listener t) (stopChan_closed t) (reconnect t)
    (OnStatusChange t) (PasswordPrompt t).

Definition getDefaultKeyPaths (h : hostenv) : list string :=
  match UserHomeDir h with
  | None => []
  | Some home =>
      let sshDir := home +:+ "/.ssh" in
      [sshDir +:+ "/id_rsa"; sshDir +:+ "/id_ed25519";
       sshDir +:+ "/id_ecdsa"; sshDir +:+ "/id_dsa"]
  end.

(** [trySSHAgent]: [true] when an auth method comes back.  Its second
    result, the connection to the agent, is [trySSHAgent_conn] below. *)
Definition trySSHAgent (h : hostenv) : bool :=
  if String.eqb (SSH_AUTH_SOCK h) "" then false
  else if negb (agent_reachable h) then false
  else match agent_List h with
       | None => false
       | Some keys => negb (Nat.eqb keys 0)
       end.



(** [loadPrivateKeyFromPath]: [Some] method when [err == nil]. *)
Definition loadPrivateKeyFromPath (h : hostenv) (t : SSHTunnel) (keyPath : string)
  : option AuthMethod :=
  match os_ReadFile h keyPath with
  | None => None
  | Some key =>
      if ParsePrivateKey h key then Some (KeyAuth keyPath)
      else if negb (String.eqb (SSHKeyPassphrase (t_config t)) "")
      then if ParsePrivateKeyWithPassphrase h key (SSHKeyPassphrase (t_config t))
           then Some (KeyAuth keyPath) else None
      else None
  end.

Definition default_key_methods (h : hostenv) (t : SSHTunnel) : list AuthMethod :=
  flat_map (fun keyPath =>
              if os_Stat h keyPath
              then match loadPrivateKeyFromPath h t keyPath with
                   | Some keyAuth => [keyAuth]
                   | None => []
                   end
              else [])
           (getDefaultKeyPaths h).

Definition buildAuthMethods (h : hostenv) (t : SSHTunnel) : list AuthMethod :=
  let methods1 := if trySSHAgent h then [AgentAuth] else [] in
  let methods2 :=
    if negb (String.eqb (SSHKeyPath (t_config t)) "") then
      match loadPrivateKeyFromPath h t (SSHKeyPath (t_config t)) with
      | Some keyAuth => methods1 ++ [keyAuth]
      | None => methods1
      end
    else methods1 in
  let methods3 := methods2 ++ default_key_methods h t in
  let methods4 :=
    if negb (String.eqb (SSHPassword (t_config t)) "")
    then methods3 ++ [PasswordAuth (SSHPassword (t_config t))] else methods3 in
  methods4 ++ [KeyboardInteractive].

(** ** ssh_tunnel.go: [Start], [connect], [keepalive] and [Stop]

    The goroutine that runs [Start] is a machine with a control point for
    every call it can block in.  The environment drives it with [input]s:
    the outcome of the call it is blocked in, or something another
    goroutine does meanwhile (a cancellation of the context, a call of
    [Stop], a tick of a keepalive timer).  What the tunnel does in answer
    is the list of [output]s of the step. *)

Inductive control :=
| Idle
| Dialing (retry : bool)
| Listening
| Accepting
| Backoff
| Returned (err : option string)
| Panicked.

Inductive input :=
| CallStart
| Cancel
| CallStop
| DialResult (err : option string)
| ListenResult (err : option string)
| AcceptResult (r : conn + string)
| TimerFired
| Tick (err : option string).

Inductive output :=
| OConnect (attempt : nat)
| ODial (addr user : string) (auth : list AuthMethod)
| OListen (addr : string)
| OStatus (connected : bool) (err : option string)
| OSleep (seconds : Z)
| OSpawnKeepalive
| OSpawnRelay (remoteConn : conn)
| OKeepalive
| OKeepaliveExit
| OCloseListener
| OCloseClient
| OCloseStopChan
| OReturn (err : option string)
| OPanic (msg : string).

Record machine := mkMachine {
  tun : SSHTunnel;
  pc : control;
  ctx_done : bool;
  keepalives : nat;
  attempt : nat;
  nsel : nat
}.

Definition set_tun (t : SSHTunnel) (m : machine) : machine :=
  mkMachine t (pc m) (ctx_done m) (keepalives m) (attempt m) (nsel m).
Definition set_pc (c : control) (m : machine) : machine :=
  mkMachine (tun m) c (ctx_done m) (keepalives m) (attempt m) (nsel m).
Definition set_ctx_done (m : machine) : machine :=
  mkMachine (tun m) (pc m) true (keepalives m) (attempt m) (nsel m).
Definition set_keepalives (k : nat) (m : machine) : machine :=
  mkMachine (tun m) (pc m) (ctx_done m) k (attempt m) (nsel m).
Definition next_attempt (m : machine) : machine :=
  mkMachine (tun m) (pc m) (ctx_done m) (keepalives m) (S (attempt m)) (nsel m).
Definition next_sel (m : machine) : machine :=
  mkMachine (tun m) (pc m) (ctx_done m) (keepalives m) (attempt m) (S (nsel m)).

Definition machine_of (t : SSHTunnel) : machine := mkMachine t Idle false 0 0 0.

Definition ctx_Err : option string := Some "context canceled".

(** The cases [<-ctx.Done()] and [<-t.stopChan] of a [select]: the error
    to return when one is ready, [None] when neither is.  When both are, Go
    picks one at random; the pick is the environment's. *)
Definition select_done (h : hostenv) (m : machine) : option (option string) * machine :=
  match ctx_done m, stopChan_closed (tun m) with
  | true, true =>
      (Some (if select_pick h (nsel m) then ctx_Err else None), next_sel m)
  | true, false => (Some ctx_Err, m)
  | false, true => (Some None, m)
  | false, false => (None, m)
  end.

(** [Start] from the return of [connect] on: the status callback on an
    error, the [reconnect] flag, the five-second [select]. *)
Definition after_connect (h : hostenv) (m : machine) (err : option string)
  : machine * list output :=
  let status :=
    match err with
    | Some e => if OnStatusChange (tun m) then [OStatus false (Some e)] else []
    | None => []
    end in
  if negb (reconnect (tun m)) then
    (set_pc (Returned err) m, status ++ [OReturn err])
  else
    match select_done h m with
    | (Some r, m1) => (set_pc (Returned r) m1, status ++ [OSleep 5; OReturn r])
    | (None, m1) => (set_pc Backoff m1, status ++ [OSleep 5])
    end.

(** The deferred functions of [connect], in the order they run. *)
Definition run_defers (m : machine) : machine * list output :=
  let '(m1, o1) :=
    match listener (tun m) with
    | Some _ => (set_tun (set_listener None (tun m)) m, [OCloseListener])
    | None => (m, [])
    end in
  let '(m2, o2) :=
    match client (tun m1) with
    | Some _ => (set_tun (set_client None (tun m1)) m1, [OCloseClient])
    | None => (m1, [])
    end in
  (m2, o1 ++ o2).

Definition connect_returns (h : hostenv) (m : machine) (err : option string)
  : machine * list output :=
  let '(m1, o1) := run_defers m in
  let '(m2, o2) := after_connect h m1 err in
  (m2, o1 ++ o2).

Definition ssh_addr (c : Config) : string := SSHHost c +:+ ":" +:+ pretty (SSHPort c).
Definition remote_addr (c : Config) : string := "127.0.0.1:" +:+ pretty (RemotePort c).

(** [connect] from its first line to the first [ssh.Dial], for the list of
    methods [authMethods]. *)
Definition connect_with (h : hostenv) (authMethods : list AuthMethod) (m : machine)
  : machine * list output :=
  let m0 := next_attempt m in
  match authMethods with
  | [] =>
      let '(m1, o1) := connect_returns h m0 (Some "no authentication methods available") in
      (m1, OConnect (attempt m) :: o1)
  | _ :: _ =>
      (set_pc (Dialing false) m0,
       [OConnect (attempt m);
        ODial (ssh_addr (t_config (tun m))) (SSHUser (t_config (tun m))) authMethods])
  end.

Definition connect (h : hostenv) (m : machine) : machine * list output :=
  connect_with h (buildAuthMethods h (tun m)) m.

(** The head of the loop of [Start]: the [select] with a [default]. *)
Definition Start_loop (h : hostenv) (m : machine) : machine * list output :=
  match select_done h m with
  | (Some r, m1) => (set_pc (Returned r) m1, [OReturn r])
  | (None, m1) => connect h m1
  end.

(** The head of the accept loop of [connect]. *)
Definition accept_loop (h : hostenv) (m : machine) : machine * list output :=
  match select_done h m with
  | (Some r, m1) => connect_returns h m1 r
  | (None, m1) => (set_pc Accepting m1, [])
  end.

(** [ssh.Dial] succeeded: the client is stored and the remote listener
    is requested. *)
Definition dial_ok (m : machine) : machine * list output :=
  (set_pc Listening (set_tun (set_client (Some (attempt m)) (tun m)) m),
   [OListen (remote_addr (t_config (tun m)))]).

(** [Stop]. Closing a channel that is closed already is a run-time panic. *)
Definition Stop (m : machine) : machine * list output :=
  let t := mkSSHTunnel (t_config (tun m)) (client (tun m)) (listener (tun m))
             (stopChan_closed (tun m)) false (OnStatusChange (tun m))
             (PasswordPrompt (tun m)) in
  if stopChan_closed (tun m) then
    (set_pc Panicked (set_tun t m), [OPanic "close of closed channel"])
  else
    let t1 := mkSSHTunnel (t_config t) (client t) (listener t) true false
                (OnStatusChange t) (PasswordPrompt t) in
    (set_keepalives 0 (set_tun t1 m),
     [OCloseStopChan]
       ++ (match listener t with Some _ => [OCloseListener] | None => [] end)
       ++ (match client t with Some _ => [OCloseClient] | None => [] end)).

Definition step (h : hostenv) (m : machine) (i : input) : machine * list output :=
  match pc m, i with
  | Panicked, _ => (m, [])
  | _, CallStop =>
      let '(m1, o1) := Stop m in
      match pc m1 with
      | Backoff => (set_pc (Returned None) m1, o1 ++ [OReturn None])
      | Accepting =>
          (* the closed listener fails the pending [Accept]; the inner
             [select] finds [stopChan] closed *)
          let '(m2, o2) := connect_returns h m1 None in (m2, o1 ++ o2)
      | _ => (m1, o1)
      end
  | Backoff, Cancel =>
      (set_pc (Returned ctx_Err) (set_keepalives 0 (set_ctx_done m)), [OReturn ctx_Err])
  | _, Cancel => (set_keepalives 0 (set_ctx_done m), [])
  | _, Tick err =>
      match keepalives m with
      | O => (m, [])
      | S k =>
          match err with
          | None => (m, [OKeepalive])
          | Some _ => (set_keepalives k m, [OKeepalive; OKeepaliveExit])
          end
      end
  | Idle, CallStart => Start_loop h m
  | Dialing _, DialResult None => dial_ok m
  | Dialing false, DialResult (Some e) =>
      match String.eqb (SSHPassword (t_config (tun m))) "", PasswordPrompt (tun m) with
      | true, Some answer =>
          let cfg := set_SSHPassword answer (t_config (tun m)) in
          (set_pc (Dialing true) (set_tun (set_t_config cfg (tun m)) m),
           [ODial (ssh_addr cfg) (SSHUser cfg) [PasswordAuth answer]])
      | _, _ => connect_returns h m (Some ("failed to dial SSH: " +:+ e))
      end
  | Dialing true, DialResult (Some e) =>
      connect_returns h m (Some ("failed to dial SSH: " +:+ e))
  | Listening, ListenResult (Some e) =>
      connect_returns h m
        (Some ("failed to listen on remote " +:+ remote_addr (t_config (tun m))
               +:+ ": " +:+ e))
  | Listening, ListenResult None =>
      let m1 := set_tun (set_listener (Some (attempt m)) (tun m)) m in
      let status := if OnStatusChange (tun m) then [OStatus true None] else [] in
      let m2 := set_keepalives (S (keepalives m1)) m1 in
      let '(m3, o3) := accept_loop h m2 in
      (m3, status ++ [OSpawnKeepalive] ++ o3)
  | Accepting, AcceptResult (inl remoteConn) =>
      let '(m1, o1) := accept_loop h m in
      (m1, OSpawnRelay remoteConn :: o1)
  | Accepting, AcceptResult (inr e) =>
      if stopChan_closed (tun m) then connect_returns h m None
      else connect_returns h m (Some ("accept error: " +:+ e))
  | Backoff, TimerFired => Start_loop h m
  | _, _ => (m, [])
  end.

Fixpoint run (h : hostenv) (m : machine) (ins : list input) : machine * list output :=
  match ins with
  | [] => (m, [])
  | i :: rest =>
      let '(m1, o1) := step h m i in
      let '(m2, o2) := run h m1 rest in
      (m2, o1 ++ o2)
  end.

(** ** The relay of a pair of connections

    Both [handleConnect] and [handleRemoteConnection] start two goroutines
    and wait for them on a [sync.WaitGroup].  A goroutine is the list of
    the calls it makes; the scheduler and the two peers are a list of
    [choice]s. *)

(** The two connections of a pair.  In [handleConnect], [SideA] is
    [clientConn] and [SideB] is [targetConn]; in [handleRemoteConnection],
    [SideA] is [remoteConn] and [SideB] is [localConn]. *)
Inductive side := SideA | SideB.

Inductive call :=
| Copy (dst src : side)
| CloseWrite (c : side)
| WgDone.

(** The goroutines of [handleConnect]. *)
Definition handleConnect_routines : list call * list call :=
  ([Copy SideB SideA; CloseWrite SideB; WgDone],
   [Copy SideA SideB; CloseWrite SideA; WgDone]).

(** The goroutines of [handleRemoteConnection]. *)
Definition handleRemoteConnection_routines : list call * list call :=
  ([Copy SideB SideA; WgDone],
   [Copy SideA SideB; WgDone]).

Record relay := mkRelay {
  g1 : list call;
  g2 : list call;
  wg : nat;
  waited : bool;
  eofA : bool;
  eofB : bool;
  finA : bool;
  finB : bool;
  closedA : bool;
  closedB : bool
}.

(** [wg.Add(2)] and the two [go] statements. *)
Definition relay_start (routines : list call * list call) : relay :=
  mkRelay (fst routines) (snd routines) 2 false false false false false false false.

Definition eof_of (s : side) (r : relay) : bool :=
  match s with SideA => eofA r | SideB => eofB r end.

Definition shut_write (s : side) (r : relay) : relay :=
  match s with
  | SideA => mkRelay (g1 r) (g2 r) (wg r) (waited r) (eofA r) (eofB r) true (finB r)
               (closedA r) (closedB r)
  | SideB => mkRelay (g1 r) (g2 r) (wg r) (waited r) (eofA r) (eofB r) (finA r) true
               (closedA r) (closedB r)
  end.

Definition peer_shut (s : side) (r : relay) : relay :=
  match s with
  | SideA => mkRelay (g1 r) (g2 r) (wg r) (waited r) true (eofB r) (finA r) (finB r)
               (closedA r) (closedB r)
  | SideB => mkRelay (g1 r) (g2 r) (wg r) (waited r) (eofA r) true (finA r) (finB r)
               (closedA r) (closedB r)
  end.

(** One call of a goroutine: the relay after it, or [None] while the call
    blocks.  [io.Copy(dst, src)] returns once reading [src] meets the end
    of the stream; its return on a read or write error is the event
    [CopyFails] of [faulty_step] below. *)
Definition exec (c : call) (r : relay) : option relay :=
  match c with
  | Copy dst src => if eof_of src r then Some r else None
  | CloseWrite s => Some (shut_write s r)
  | WgDone =>
      Some (mkRelay (g1 r) (g2 r) (Nat.pred (wg r)) (waited r) (eofA r) (eofB r)
              (finA r) (finB r) (closedA r) (closedB r))
  end.

Inductive choice :=
| RunFirst          (* the first goroutine runs its next call *)
| RunSecond         (* the second goroutine runs its next call *)
| RunWait           (* the handler tries [wg.Wait] and then returns *)
| PeerShuts (s : side)   (* the peer of [s] shuts its sending side by itself *)
| PeerAnswers (s : side) (* the peer of [s], having read the end of the
                            stream, shuts its sending side in turn *).

Definition relay_step (r : relay) (c : choice) : relay :=
  match c with
  | RunFirst =>
      match g1 r with
      | [] => r
      | k :: rest =>
          match exec k r with
          | None => r
          | Some r1 => mkRelay rest (g2 r1) (wg r1) (waited r1) (eofA r1) (eofB r1)
                         (finA r1) (finB r1) (closedA r1) (closedB r1)
          end
      end
  | RunSecond =>
      match g2 r with
      | [] => r
      | k :: rest =>
          match exec k r with
          | None => r
          | Some r1 => mkRelay (g1 r1) rest (wg r1) (waited r1) (eofA r1) (eofB r1)
                         (finA r1) (finB r1) (closedA r1) (closedB r1)
          end
      end
  | RunWait =>
      if Nat.eqb (wg r) 0
      then mkRelay (g1 r) (g2 r) (wg r) true (eofA r) (eofB r) true true true true
      else r
  | PeerShuts s => peer_shut s r
  | PeerAnswers s =>
      match s with
      | SideA => if finA r then peer_shut SideA r else r
      | SideB => if finB r then peer_shut SideB r else r
      end
  end.

Definition relay_run (r : relay) (cs : list choice) : relay := foldl relay_step r cs.

(** One round in which every party gets a turn. *)
Definition round : list choice :=
  [RunFirst; RunSecond; PeerAnswers SideA; PeerAnswers SideB; RunWait].

Fixpoint rounds (n : nat) : list choice :=
  match n with O => [] | S n' => round ++ rounds n' end.

(** [io.Copy] also returns when a read or a write fails, on a connection
    that was reset or closed; the goroutine then goes on with its next
    call.  The choices of the scheduler and the peers, with that event for
    the copy of the first or of the second goroutine. *)
Inductive fault_choice :=
| Sched (c : choice)
| CopyFails (first : bool).

Definition copy_returns (g : list call) : list call :=
  match g with
  | Copy _ _ :: rest => rest
  | _ => g
  end.

Definition faulty_step (r : relay) (c : fault_choice) : relay :=
  match c with
  | Sched c => relay_step r c
  | CopyFails true =>
      mkRelay (copy_returns (g1 r)) (g2 r) (wg r) (waited r) (eofA r) (eofB r)
        (finA r) (finB r) (closedA r) (closedB r)
  | CopyFails false =>
      mkRelay (g1 r) (copy_returns (g2 r)) (wg r) (waited r) (eofA r) (eofB r)
        (finA r) (finB r) (closedA r) (closedB r)
  end.

Definition faulty_run (r : relay) (cs : list fault_choice) : relay :=
  foldl faulty_step r cs.

(** ** config.go and app.go: completeness, records, logs, session *)

(** [IsComplete]. *)
Definition IsComplete (c : Config) : bool :=
  if String.eqb (SSHHost c) "" || String.eqb (SSHUser c) "" then false
  else if String.eqb (SSHPassword c) "" && String.eqb (SSHKeyPath c) "" then false
  else true.

(** What happens when [Save] marshals and writes the file. *)
Inductive save_io :=
| SaveOk
| MarshalFails (err : string)
| WriteFails (err : string).

(** The error [Save] returns. *)
Definition Save_error (io : save_io) : option string :=
  match io with
  | SaveOk => None
  | MarshalFails e => Some ("failed to marshal config: " +:+ e)
  | WriteFails e => Some ("failed to write config: " +:+ e)
  end.

(** The [switch configLevel] of [log]: is a message of [level] kept. *)
Definition shouldLog (configLevel level : string) : bool :=
  let configLevel := if String.eqb configLevel "" then LevelInfo else configLevel in
  if String.eqb configLevel LevelError then String.eqb level LevelError
  else if String.eqb configLevel LevelInfo
  then String.eqb level LevelError || String.eqb level LevelInfo
  else if String.eqb configLevel LevelDebug then true
  else String.eqb level LevelError || String.eqb level LevelInfo.

(** [log]; [now] is [time.Now().Format("15:04:05")]. *)
Definition App_log (now level msg : string) (a : App) : App :=
  if negb (shouldLog (LogLevel (config a)) level) then a
  else
    let prefix :=
      if String.eqb level LevelError then "[ERROR] "
      else if String.eqb level LevelDebug then "[DEBUG] " else "" in
    let logEntry := "[" +:+ now +:+ "] " +:+ prefix +:+ msg in
    let logs1 := logs a ++ [logEntry] in
    mkApp (config a)
      (if (100 <? length logs1)%nat then skipn (length logs1 - 100) logs1 else logs1).

Definition addLog (now msg : string) (a : App) : App := App_log now LevelInfo msg a.

Definition GetLogs (a : App) : list string := logs a.

Definition ClearLogs (a : App) : App := mkApp (config a) [].

Record RecordsResponse := mkRecordsResponse {
  resp_Records : list RemoteRecord;
  resp_ActiveID : string
}.

Definition recordsResponseLocked (a : App) : RecordsResponse :=
  mkRecordsResponse (Records (config a)) (ActiveID (config a)).

Definition GetRecords (a : App) : RecordsResponse := recordsResponseLocked a.

(** How a call ends: it returns, or it blocks for ever. *)
Inductive ending (A : Type) : Type :=
| Returns (a : A)
| Deadlock.
Arguments Returns {A} a.
Arguments Deadlock {A}.

(** [log] called by a goroutine that may hold [a.configMu.Lock()].  The
    first statement of [log] is [a.configMu.RLock()]; a [sync.RWMutex]
    grants no read lock while the write lock is held, not even to the
    goroutine that holds it, so the call blocks for ever. *)
Definition log_locked (configMu_held : bool) (now level msg : string) (a : App)
  : ending App :=
  if configMu_held then Deadlock else Returns (App_log now level msg a).

Definition addLog_locked (configMu_held : bool) (now msg : string) (a : App)
  : ending App :=
  log_locked configMu_held now LevelInfo msg a.

(** [a.config.Save()] in a method that holds [a.configMu.Lock()], followed
    by the [addLog] and the early return on an error: the application, the
    error [Save] returned if the method goes on, and the draw counter.
    When the call blocks, the application is the one it blocks with. *)
Definition save_and_log (ids : idsource) (n : nat) (now : string) (io : save_io)
    (a : App) : App * ending (option string) * nat :=
  let '(c1, n1) := Save_receiver ids n (config a) in
  match Save_error io with
  | Some err =>
      match addLog_locked true now ("保存配置失败: " +:+ err) (mkApp c1 (logs a)) with
      | Returns a1 => (a1, Returns (Some err), n1)
      | Deadlock => (mkApp c1 (logs a), Deadlock, n1)
      end
  | None => (mkApp c1 (logs a), Returns None, n1)
  end.

(** [SaveConfig]: the caller's config after the defaults, the
    application, and how the call ends. *)
Definition SaveConfig (ids : idsource) (n : nat) (now : string) (io : save_io)
    (a : App) (cfg : Config) : Config * App * ending (option string) * nat :=
  let cfg1 := applyPortDefaults cfg in
  let '(ac1, n1) := upsertRecordFromConfigLocked ids n (config a) cfg1 in
  let '(a1, saved, n2) := save_and_log ids n1 now io (mkApp ac1 (logs a)) in
  match saved with
  | Deadlock => (cfg1, a1, Deadlock, n2)
  | Returns (Some err) => (cfg1, a1, Returns (Some err), n2)
  | Returns None =>
      match addLog_locked true now "配置已保存" a1 with
      | Returns a2 => (cfg1, a2, Returns None, n2)
      | Deadlock => (cfg1, a1, Deadlock, n2)
      end
  end.

(** [SaveRecord]; [None] is the nil pointer. *)
Definition SaveRecord (ids : idsource) (n : nat) (now : string) (io : save_io)
    (a : App) (record : option RemoteRecord)
  : App * ending (RecordsResponse + string) * nat :=
  match record with
  | None => (a, Returns (inr "record is nil"), n)
  | Some record =>
      let '(c1, n1) := normalize ids n (config a) in
      let '(newRecord, n2) :=
        if String.eqb (rec_ID record) "" then (set_rec_ID (ids n1) record, S n1)
        else (record, n1) in
      let newRecord1 :=
        if String.eqb (rec_Name newRecord) "" then
          let idx := findRecordIndex c1 (rec_ID newRecord) in
          if 0 <=? idx then set_rec_Name (name_at idx (Records c1)) newRecord
          else newRecord
        else newRecord in
      let newRecord2 := applyDefaultsToRecord newRecord1 in
      let idx := findRecordIndex c1 (rec_ID newRecord2) in
      let c2 :=
        if 0 <=? idx
        then set_Records (replace_at (Z.to_nat idx) newRecord2 (Records c1)) c1
        else set_Records (Records c1 ++ [newRecord2]) c1 in
      let c3 := syncLegacyFromActive (set_ActiveID (rec_ID newRecord2) c2) in
      let '(a1, saved, n3) := save_and_log ids n2 now io (mkApp c3 (logs a)) in
      match saved with
      | Deadlock => (a1, Deadlock, n3)
      | Returns (Some e) => (a1, Returns (inr e), n3)
      | Returns None => (a1, Returns (inl (recordsResponseLocked a1)), n3)
      end
  end.

(** [append(rs[:idx], rs[idx+1:]...)]. *)
Definition remove_at (idx : nat) (rs : list RemoteRecord) : list RemoteRecord :=
  firstn idx rs ++ skipn (S idx) rs.

(** [DeleteRecord]. *)
Definition DeleteRecord (ids : idsource) (n : nat) (now : string) (io : save_io)
    (a : App) (id : string)
  : App * ending (RecordsResponse + string) * nat :=
  if String.eqb id "" then (a, Returns (inr "record id is empty"), n)
  else
    let '(c1, n1) := normalize ids n (config a) in
    let idx := findRecordIndex c1 id in
    let c2 :=
      if 0 <=? idx then set_Records (remove_at (Z.to_nat idx) (Records c1)) c1
      else c1 in
    let '(c3, n2) :=
      if Nat.eqb (length (Records c2)) 0 then
        let '(defaultConfig, n') := DefaultConfig ids n1 in
        (set_ActiveID (ActiveID defaultConfig)
           (set_Records (Records defaultConfig) c2), n')
      else (c2, n1) in
    let c4 :=
      if (findRecordIndex c3 (ActiveID c3) =? -1)
         && negb (Nat.eqb (length (Records c3)) 0)
      then set_ActiveID (first_ID (Records c3)) c3 else c3 in
    let c5 := syncLegacyFromActive c4 in
    let '(a1, saved, n3) := save_and_log ids n2 now io (mkApp c5 (logs a)) in
    match saved with
    | Deadlock => (a1, Deadlock, n3)
    | Returns (Some e) => (a1, Returns (inr e), n3)
    | Returns None => (a1, Returns (inl (recordsResponseLocked a1)), n3)
    end.

(** [SetActiveRecord]. *)
Definition SetActiveRecord (ids : idsource) (n : nat) (now : string) (io : save_io)
    (a : App) (id : string)
  : App * ending (Config + string) * nat :=
  if String.eqb id "" then (a, Returns (inr "record id is empty"), n)
  else
    let '(c1, n1) := normalize ids n (config a) in
    if findRecordIndex c1 id =? -1
    then (mkApp c1 (logs a), Returns (inr "record not found"), n1)
    else
      let c2 := syncLegacyFromActive (set_ActiveID id c1) in
      let '(a1, saved, n2) := save_and_log ids n1 now io (mkApp c2 (logs a)) in
      match saved with
      | Deadlock => (a1, Deadlock, n2)
      | Returns (Some e) => (a1, Returns (inr e), n2)
      | Returns None => (a1, Returns (inl (GetConfig a1)), n2)
      end.

(** The other fields of [App]: the status, and the proxy, the tunnel and
    the cancel function of the running session ([None] is nil).  Handles
    are numbers, [fresh] is the next one. *)
Record Status := mkStatus {
  ProxyRunning : bool;
  TunnelConnected : bool;
  TunnelRunning : bool;
  LastError : string;
  StartTime : string
}.

Record Session := mkSession {
  status : Status;
  proxy : option nat;
  tunnel : option nat;
  tunnelStop : option nat;
  fresh : nat
}.

(** [NewApp]. *)
Definition NewSession : Session :=
  mkSession (mkStatus false false false "" "") None None None 0.

(** [updateStatus]: [StartTime] is left as it is. *)
Definition updateStatus (proxyRunning tunnelConnected tunnelRunning : bool)
    (lastError : string) (s : Session) : Session :=
  mkSession (mkStatus proxyRunning tunnelConnected tunnelRunning lastError
               (StartTime (status s)))
    (proxy s) (tunnel s) (tunnelStop s) (fresh s).

Definition GetStatus (s : Session) : Status := status s.

Inductive app_event :=
| AppCancel (ctx : nat)
| AppTunnelStop (t : nat)
| AppProxyStop (p : nat)
| AppSpawnProxy (p : nat) (port : Z) (httpProxy httpsProxy : string)
| AppSpawnTunnel (t ctx : nat) (cfg : Config).

Definition stop_calls (s : Session) : list app_event :=
  (match tunnelStop s with Some c => [AppCancel c] | None => [] end)
  ++ (match tunnel s with Some t => [AppTunnelStop t] | None => [] end)
  ++ (match proxy s with Some p => [AppProxyStop p] | None => [] end).

(** [App.Start], up to its [return nil]: the caller's config after the
    defaults, the application, the session and the calls made.  The two
    goroutines it starts are the events [AppSpawnProxy] and
    [AppSpawnTunnel]; what they write to the log and to the status, at a
    later time of their own, is [App_proxy_output] and
    [App_tunnel_output] below. *)
Definition App_Start (ids : idsource) (n : nat) (now : string)
    (a : App) (s : Session) (cfg : Config)
  : Config * App * Session * list app_event * nat :=
  let evs := stop_calls s in
  let cfg1 := applyPortDefaults cfg in
  let '(ac1, n1) := upsertRecordFromConfigLocked ids n (config a) cfg1 in
  let '(ac2, n2) := Save_receiver ids n1 ac1 in
  let ctx := fresh s in
  let s1 := updateStatus false false true ""
              (mkSession (status s) (proxy s) (tunnel s) (Some ctx) (fresh s)) in
  let a1 := addLog now "正在启动代理服务器..." (mkApp ac2 (logs a)) in
  let p := S (fresh s) in
  let t := S (S (fresh s)) in
  let s2 := mkSession (status s1) (Some p) (Some t) (Some ctx) (S (S (S (fresh s)))) in
  (cfg1, a1, s2,
   evs ++ [AppSpawnProxy p (ProxyPort cfg1) (HTTPProxy cfg1) (HTTPSProxy cfg1);
           AppSpawnTunnel t ctx cfg1],
   n2).

(** [App.Stop]. *)
Definition App_Stop (now : string) (a : App) (s : Session)
  : App * Session * list app_event :=
  let evs := stop_calls s in
  let s1 := updateStatus false false false ""
              (mkSession (status s) None None None (fresh s)) in
  (addLog now "隧道已停止" a, s1, evs).

(** The status callback [App.Start] installs on the tunnel. *)
Definition App_OnStatusChange (now : string) (connected : bool) (err : option string)
    (a : App) (s : Session) : App * Session :=
  let a1 := match err with
            | Some e => addLog now ("SSH 状态: " +:+ e) a
            | None => a
            end in
  let a2 := if connected then addLog now "SSH 隧道连接成功!" a1 else a1 in
  (a2, updateStatus true connected true (default "" err) s).

(** The calls a user interface makes on the session. *)
Inductive app_call :=
| DoStart (cfg : Config)
| DoStop.

Fixpoint App_calls (ids : idsource) (n : nat) (now : string)
    (a : App) (s : Session) (calls : list app_call)
  : App * Session * list app_event :=
  match calls with
  | [] => (a, s, [])
  | DoStart cfg :: rest =>
      let '(_, a1, s1, e1, n1) := App_Start ids n now a s cfg in
      let '(a2, s2, e2) := App_calls ids n1 now a1 s1 rest in
      (a2, s2, e1 ++ e2)
  | DoStop :: rest =>
      let '(a1, s1, e1) := App_Stop now a s in
      let '(a2, s2, e2) := App_calls ids n now a1 s1 rest in
      (a2, s2, e1 ++ e2)
  end.

(** The closures [App.Start] installs on the tunnel and wraps around
    [tunnel.Start]: what an output of the tunnel does to the application.
    The status callback logs and updates the status; an error returned by
    [Start] is logged and stored as the last error. *)
Definition App_tunnel_output (now : string) (st : App * Session) (o : output)
  : App * Session :=
  match o with
  | OStatus connected err => App_OnStatusChange now connected err (fst st) (snd st)
  | OReturn (Some err) =>
      (addLog now ("SSH 隧道错误: " +:+ err) (fst st),
       updateStatus true false false err (snd st))
  | _ => st
  end.

(** The goroutine [App.Start] starts for the proxy: what it does before
    it calls [a.proxy.Start()], and what it does when that call returns an
    error, as it does once [Stop] has closed the server. *)
Inductive proxy_event :=
| ProxyServing (cfg : Config)
| ProxyReturned (err : string).

Definition App_proxy_output (now : string) (st : App * Session) (e : proxy_event)
  : App * Session :=
  match e with
  | ProxyServing cfg =>
      let a1 :=
        if negb (String.eqb (HTTPProxy cfg) "") || negb (String.eqb (HTTPSProxy cfg) "")
        then addLog now ("上游代理: HTTP=" +:+ HTTPProxy cfg +:+ " HTTPS="
                         +:+ HTTPSProxy cfg) (fst st)
        else fst st in
      (addLog now ("代理服务监听 127.0.0.1:" +:+ pretty (ProxyPort cfg)) a1,
       updateStatus true false true "" (snd st))
  | ProxyReturned err =>
      (addLog now ("代理服务错误: " +:+ err) (fst st),
       updateStatus false false false err (snd st))
  end.

(** ** app.go: [NewApp] and [startup] *)

(** The application as [NewApp] makes it: [config] is nil ([None]) until
    [startup] sets it. *)
Record BareApp := mkBareApp {
  bare_config : option Config;
  bare_logs : list string
}.

Definition NewApp : BareApp := mkBareApp None [].

Definition nil_dereference : string :=
  "runtime error: invalid memory address or nil pointer dereference".

(** [addLog] on such an application: [log] begins by reading
    [a.config.LogLevel], a run-time panic ([None]) when [a.config] is
    nil. *)
Definition bare_addLog (now msg : string) (a : BareApp) : option BareApp :=
  match bare_config a with
  | None => None
  | Some c =>
      let a' := addLog now msg (mkApp c (bare_logs a)) in
      Some (mkBareApp (Some (config a')) (logs a'))
  end.

(** [startup]: the application, or the panic it ends with. *)
Definition startup (ids : idsource) (n : nat) (now : string) (f : config_file)
    (a : BareApp) : (BareApp + string) * nat :=
  let '(loaded, n1) := LoadOrCreateConfig ids n f in
  let chosen :=
    match loaded with
    | inl config => (inl (a, config), n1)
    | inr err =>
        match bare_addLog now ("配置加载错误: " +:+ err) a with
        | None => (inr nil_dereference, n1)
        | Some a1 =>
            let '(config, n2) := DefaultConfig ids n1 in (inl (a1, config), n2)
        end
    end in
  match chosen with
  | (inr p, n2) => (inr p, n2)
  | (inl (a1, config), n2) =>
      match bare_addLog now "应用启动完成" (mkBareApp (Some config) (bare_logs a1)) with
      | None => (inr nil_dereference, n2)
      | Some a2 => (inl a2, n2)
      end
  end.

(** * Vocabulary of the properties *)

(** ** Lookup in a JSON object *)

Fixpoint assoc_json (k : string) (l : list (string * json)) : option json :=
  match l with
  | [] => None
  | (k', v) :: rest => if String.eqb k' k then Some v else assoc_json k rest
  end.

Definition json_field (k : string) (j : json) : option json :=
  match j with JObj l => assoc_json k l | _ => None end.



(** ** Ports of a record and of a configuration *)

Definition ports_of (r : RemoteRecord) : Z * Z * Z :=
  (rec_SSHPort r, rec_ProxyPort r, rec_RemotePort r).

Definition legacy_ports (c : Config) : Z * Z * Z :=
  (SSHPort c, ProxyPort c, RemotePort c).

(** The defaults as the specification words them: 22 for SSH, 8080 for
    the proxy and the remote port, for a field that is zero. *)
Definition default_ports (p : Z * Z * Z) : Z * Z * Z :=
  let '(s, x, r) := p in
  (if s =? 0 then 22 else s, if x =? 0 then 8080 else x, if r =? 0 then 8080 else r).

Definition ports_set (p : Z * Z * Z) : Prop :=
  let '(s, x, r) := p in s <> 0 /\ x <> 0 /\ r <> 0.


(** ** Substrings and the status line of an HTTP answer *)

(** [sub] occurs in [s]. *)
Definition has_substring (s sub : string) : Prop :=
  exists pre post, s = pre +:+ sub +:+ post.

Definition starts_with_LF (s : string) : bool :=
  match s with
  | String c _ => Ascii.eqb c "010"%char
  | EmptyString => false
  end.

(** The first line of an answer: the bytes before the first CR LF. *)
Fixpoint status_line (s : string) : string :=
  match s with
  | EmptyString => EmptyString
  | String c s' =>
      if Ascii.eqb c "013"%char && starts_with_LF s' then EmptyString
      else String c (status_line s')
  end.

Fixpoint after_space (s : string) : string :=
  match s with
  | EmptyString => EmptyString
  | String c s' => if Ascii.eqb c " "%char then s' else after_space s'
  end.

(** The status code of the status line [HTTP/1.1 NNN reason] is 2xx. *)
Definition status_is_2xx (response : string) : bool :=
  match after_space (status_line response) with
  | String d1 (String d2 (String d3 rest)) =>
      Ascii.eqb d1 "2"%char && is_digit d2 && is_digit d3
      && match rest with
         | EmptyString => true
         | String c _ => Ascii.eqb c " "%char
         end
  | _ => false
  end.

(** The address [dialThroughProxy] dials for a parsed proxy URL, and the
    request it writes. *)
Definition proxy_address (u : URL) : string :=
  if String.eqb (url_Port u) "" then JoinHostPort (url_Hostname u) "80" else url_Host u.

Definition connect_request (targetHost : string) : string :=
  "CONNECT " +:+ targetHost +:+ " HTTP/1.1" +:+ CRLF
  +:+ "Host: " +:+ targetHost +:+ CRLF +:+ CRLF.

(** The upstream proxy was reached on connection [c], took the CONNECT
    request and answered [response] to the first read. *)
Definition upstream_answered (env : netenv) (proxyURL targetHost : string)
    (c : conn) (response : string) : Prop :=
  exists u, url_Parse env proxyURL = inl u
            /\ net_Dial env (proxy_address u) = inl c
            /\ conn_Write env c (connect_request targetHost) = None
            /\ conn_Read env c = inl response.

(** An environment in which the upstream proxy at [proxy.local:3128]
    answers [response] and every other dial is refused. *)
Definition upstream_env (response : string) : netenv :=
  mkNetenv (fun _ => inl (mkURL "proxy.local:3128" "proxy.local" "3128"))
           (fun addr => if String.eqb addr "proxy.local:3128" then inl 7%nat
                        else inr "connection refused")
           (fun _ _ => None)
           (fun _ => inl response)
           (fun _ _ => None)
           (fun _ _ => inr "no route")
           (fun _ _ => None).

Definition answer_204 : string := "HTTP/1.1 204 No Content" +:+ CRLF +:+ CRLF.

Definition answer_407 : string :=
  "HTTP/1.1 407 Proxy Authentication Required" +:+ CRLF
  +:+ "Content-Length: 200" +:+ CRLF +:+ CRLF.

Definition answer_200 : string := "HTTP/1.1 200 Connection established" +:+ CRLF +:+ CRLF.

(** ** Vocabulary of the CONNECT handler *)

(** The dial at the head of [handleConnect]: through the HTTPS upstream
    proxy when one is configured, directly otherwise. *)
Definition dial_target (p : ProxyServer) (env : netenv) (host : string)
  : (conn + string) * list event :=
  if negb (String.eqb (httpsProxy p) "")
  then dialThroughProxy env (httpsProxy p) host
  else (net_Dial env host, [EvDial host]).

(** The writer [net/http] hands to a handler: nothing written yet. *)
Definition fresh_writer (w : ResponseWriter) : Prop :=
  w_status w = None /\ w_body w = [] /\ w_header w = ∅.

Definition is_relay (e : event) : bool :=
  match e with EvRelay _ _ => true | _ => false end.

Definition is_hijack (e : event) : bool :=
  match e with EvHijack => true | _ => false end.

Definition LF : string := String "010"%char "".

(** An environment in which every dial is refused. *)
Definition unreachable_env : netenv :=
  mkNetenv (fun _ => inr "parse error")
           (fun _ => inr "dial tcp: connection refused")
           (fun _ _ => None)
           (fun _ => inr "EOF")
           (fun _ _ => None)
           (fun _ _ => inr "no route")
           (fun _ _ => None).

Definition blank_writer : ResponseWriter :=
  mkWriter ∅ None [] 0 (Some (inl 3%nat)) true.

(** ** Vocabulary of the plain HTTP handler *)

(** A header map as [net/http] builds it from the wire: every key is in
    canonical form and carries at least one value. *)
Definition entry_ok (kv : string * list string) : bool :=
  String.eqb (CanonicalMIMEHeaderKey (fst kv)) (fst kv)
  && negb (Nat.eqb (length (snd kv)) 0).

Definition wire_header (h : header) : bool :=
  forallb entry_ok (map_to_list h).

(** An order in which Go may range over a map: any arrangement of its
    entries. *)
Definition range_order (order : header -> list (string * list string)) : Prop :=
  forall h, order h ≡ₚ map_to_list h.

(** The inbound header without the three proxy-control headers. *)
Definition without_proxy_headers (h : header) : header :=
  delete "Proxy-Authorization"
    (delete "Proxy-Authenticate" (delete "Proxy-Connection" h)).

(** The bytes of a body: what the reads deliver up to the first error. *)
Fixpoint body_bytes (reads : list read_result) : string :=
  match reads with
  | [] => ""
  | rd :: rest =>
      match rd_err rd with
      | Some _ => rd_data rd
      | None => rd_data rd +:+ body_bytes rest
      end
  end.

Definition joined (chunks : list string) : string :=
  foldr String.append "" chunks.

(** The request [handleHTTP] sends for the inbound request [r]. *)
Definition outbound (order : header -> list (string * list string)) (r : Request)
  : Request :=
  mkRequest (Method r) (req_URL r) (req_Host r)
    (strip_hop_by_hop (copy_header (order (req_Header r)) ∅)) (req_Body r).

(** An origin that answers every request with a redirect to [/next]. *)
Definition redirecting_env : netenv :=
  mkNetenv (fun _ => inr "parse error")
           (fun _ => inr "connection refused")
           (fun _ _ => None)
           (fun _ => inr "EOF")
           (fun _ _ => None)
           (fun _ _ =>
              inl (mkResponse 302 {["Location" := ["/next"]]}
                     [mkRead "moved" None; mkRead "" (Some "EOF")]))
           (fun rq _ => Some rq).

Definition sample_request : Request :=
  mkRequest "GET" "http://example.com/" "example.com"
    {["Accept" := ["*/*"]; "Proxy-Connection" := ["keep-alive"]]} "".

(** ** Vocabulary of the relay *)

(** A schedule in which the peer of [SideB] never shuts its sending side
    by itself: it sends its last byte only after it has read the end of
    what the other peer sends. *)
Definition waits_for_end (cs : list choice) : bool :=
  forallb (fun c => match c with PeerShuts SideB => false | _ => true end) cs.

(** The relay has returned and both connections are closed. *)
Definition relay_over (r : relay) : bool :=
  waited r && closedA r && closedB r.

(** The states the relay of [handleConnect] goes through. *)
Definition connect_routine_ok (g : list call) (dst src : side) (r : relay) : Prop :=
  g = [Copy dst src; CloseWrite dst; WgDone]
  \/ g = [CloseWrite dst; WgDone]
  \/ (g = [WgDone] /\ (match dst with SideA => finA r | SideB => finB r end) = true)
  \/ (g = [] /\ (match dst with SideA => finA r | SideB => finB r end) = true).

Definition running (g : list call) : nat :=
  match g with [] => 0%nat | _ :: _ => 1%nat end.

Definition connect_relay_inv (r : relay) : Prop :=
  connect_routine_ok (g1 r) SideB SideA r
  /\ connect_routine_ok (g2 r) SideA SideB r
  /\ wg r = (running (g1 r) + running (g2 r))%nat
  /\ (waited r = true ->
      g1 r = [] /\ g2 r = [] /\ closedA r = true /\ closedB r = true).

(** The states the relay of [handleRemoteConnection] goes through while
    the local side waits for the end of the remote stream. *)
Definition tunnel_relay_inv (r : relay) : Prop :=
  g2 r = [Copy SideA SideB; WgDone]
  /\ eofB r = false /\ finB r = false /\ waited r = false
  /\ closedA r = false /\ closedB r = false
  /\ ((g1 r = [Copy SideB SideA; WgDone] /\ wg r = 2%nat)
      \/ (g1 r = [WgDone] /\ wg r = 2%nat)
      \/ (g1 r = [] /\ wg r = 1%nat)).

(** ** Vocabulary of the tunnel *)

Definition is_status (o : output) : bool :=
  match o with OStatus _ _ => true | _ => false end.

Definition is_connect (o : output) : bool :=
  match o with OConnect _ => true | _ => false end.

Definition is_dial (o : output) : bool :=
  match o with ODial _ _ _ => true | _ => false end.

Definition is_sleep (o : output) : bool :=
  match o with OSleep _ => true | _ => false end.

Definition is_panic (o : output) : bool :=
  match o with OPanic _ => true | _ => false end.

Definition no_auth_error : string := "no authentication methods available".

(** None of the credentials the specification numbers (1) to (4)
    resolves: no agent with a key, no loadable explicit key, no loadable
    default key, no password. *)
Definition no_credential_resolves (h : hostenv) (t : SSHTunnel) : bool :=
  negb (trySSHAgent h)
  && match loadPrivateKeyFromPath h t (SSHKeyPath (t_config t)) with
     | Some _ => String.eqb (SSHKeyPath (t_config t)) ""
     | None => true
     end
  && Nat.eqb (length (default_key_methods h t)) 0
  && String.eqb (SSHPassword (t_config t)) "".

(** The error with which [connect] ends on the outcome [i] of the call it
    is blocked in, if it ends with one: a failed dial that is not retried
    with a prompted password, a failed request for the remote listener, a
    failed accept while [Stop] was not called. *)
Definition terminal_error (m : machine) (i : input) : option string :=
  match pc m, i with
  | Dialing false, DialResult (Some e) =>
      match String.eqb (SSHPassword (t_config (tun m))) "", PasswordPrompt (tun m) with
      | true, Some _ => None
      | _, _ => Some ("failed to dial SSH: " +:+ e)
      end
  | Dialing true, DialResult (Some e) => Some ("failed to dial SSH: " +:+ e)
  | Listening, ListenResult (Some e) =>
      Some ("failed to listen on remote " +:+ remote_addr (t_config (tun m))
            +:+ ": " +:+ e)
  | Accepting, AcceptResult (inr e) =>
      if stopChan_closed (tun m) then None else Some ("accept error: " +:+ e)
  | _, _ => None
  end.

(** The tunnel was told to end: the context is cancelled or [Stop] was
    called. *)
Definition told_to_end (m : machine) : bool :=
  ctx_done m || stopChan_closed (tun m).

(** [i] is the outcome of the call the goroutine of [Start] is blocked
    in. *)
Definition awaited (c : control) (i : input) : bool :=
  match c, i with
  | Idle, CallStart => true
  | Dialing _, DialResult _ => true
  | Listening, ListenResult _ => true
  | Accepting, AcceptResult _ => true
  | Backoff, TimerFired => true
  | _, _ => false
  end.

(** How many outcomes of blocking calls [Start] may still wait for once
    it was told to end. *)
Definition calls_before_return (c : control) : nat :=
  match c with
  | Idle => 1
  | Dialing false => 3
  | Dialing true => 2
  | Listening => 1
  | Accepting => 1
  | Backoff => 1
  | Returned _ => 0
  | Panicked => 0
  end%nat.

(** Whatever the outcomes of the next [k] calls [Start] blocks in, it has
    returned by then. *)
Fixpoint returns_within (h : hostenv) (k : nat) (m : machine) : Prop :=
  (exists e, pc m = Returned e)
  \/ match k with
     | O => False
     | S k' =>
         forall i, awaited (pc m) i = true -> returns_within h k' (fst (step h m i))
     end.

(** [connect] returns the error [e] on the outcome [i]: a terminal error,
    or the error of the context when the accept loop finds the context
    cancelled, which it looks at once the remote listener is there and
    after every accepted connection. *)
Definition connect_error (m : machine) (i : input) (e : string) : Prop :=
  terminal_error m i = Some e
  \/ (ctx_Err = Some e /\ ctx_done m = true
      /\ ((pc m = Listening /\ i = ListenResult None)
          \/ (pc m = Accepting /\ exists c, i = AcceptResult (inl c)))).

(** A host with no agent, no home directory and no key file. *)
Definition bare_host : hostenv :=
  mkHostenv "" false None None (fun _ => false) (fun _ => None)
    (fun _ => false) (fun _ _ => false) (fun _ => true).

Definition sample_config : Config :=
  mkConfig [] "" "" "b.example" 22 "dev" "" "" "" 8080 8080 "" "" "INFO".

(** A tunnel as [App.Start] sets it up: status callback set, no password
    prompt. *)
Definition sample_tunnel : SSHTunnel :=
  with_callbacks true None (NewSSHTunnel sample_config).

Definition is_close (o : output) : bool :=
  match o with OCloseListener | OCloseClient => true | _ => false end.

(** The tunnel of [sample_tunnel] after [Start] was called, the dial and
    the request for the remote listener succeeded: blocked in [Accept]. *)
Definition accepting_machine : machine :=
  fst (run bare_host (machine_of sample_tunnel)
         [CallStart; DialResult None; ListenResult None]).

(** The same tunnel blocked in its first [ssh.Dial]. *)
Definition dialing_machine : machine :=
  fst (step bare_host (machine_of sample_tunnel) CallStart).

(** ** Vocabulary of the record store *)

(** A record as [normalize] leaves it: an identifier and three ports. *)
Definition record_ready (r : RemoteRecord) : bool :=
  negb (String.eqb (rec_ID r) "")
  && negb (rec_SSHPort r =? 0) && negb (rec_ProxyPort r =? 0)
  && negb (rec_RemotePort r =? 0).

(** A configuration as [normalize] leaves it: at least one record, every
    record ready, and an active identifier that names a record. *)
Definition normalized (c : Config) : bool :=
  negb (Nat.eqb (length (Records c)) 0)
  && forallb record_ready (Records c)
  && negb (String.eqb (ActiveID c) "")
  && negb (findRecordIndex c (ActiveID c) =? -1).

(** The fields of the configuration repeat those of the record [r]. *)
Definition mirrors (c : Config) (r : RemoteRecord) : Prop :=
  RecordName c = rec_Name r /\ SSHHost c = rec_SSHHost r
  /\ SSHPort c = rec_SSHPort r /\ SSHUser c = rec_SSHUser r
  /\ SSHKeyPath c = rec_SSHKeyPath r /\ ProxyPort c = rec_ProxyPort r
  /\ RemotePort c = rec_RemotePort r /\ HTTPProxy c = rec_HTTPProxy r
  /\ HTTPSProxy c = rec_HTTPSProxy r
  /\ LogLevel c = (if String.eqb (rec_LogLevel r) "" then "INFO" else rec_LogLevel r).

(** The configuration is normalized and its fields repeat its active
    record. *)
Definition settled (c : Config) : Prop :=
  normalized c = true
  /\ exists r, getActiveRecord c = Some r /\ In r (Records c) /\ mirrors c r.

(** Identifiers are never empty: [newRecordID] yields sixteen hexadecimal
    digits or a decimal clock reading. *)
Definition ids_nonempty (ids : idsource) : Prop := forall k, ids k <> "".

Definition sample_ids : idsource := fun k => "id" +:+ pretty (Z.of_nat k).

Definition sample_record : RemoteRecord :=
  mkRemoteRecord "" "lab" "b.example" 0 "dev" "" 0 9090 "" "" "".

(** ** Vocabulary of the logs and of the session *)

(** A sequence of [log] calls: time stamp, level and message of each. *)
Definition log_all (entries : list (string * string * string)) (a : App) : App :=
  foldl (fun acc e => App_log (fst (fst e)) (snd (fst e)) (snd e) acc) a entries.

(** The tunnels on which [Stop] was called, in the order of the calls. *)
Definition stopped_tunnels (evs : list app_event) : list nat :=
  flat_map (fun e => match e with AppTunnelStop t => [t] | _ => [] end) evs.

Definition spawned_tunnels (evs : list app_event) : list nat :=
  flat_map (fun e => match e with AppSpawnTunnel t _ _ => [t] | _ => [] end) evs.

(** The tunnels started and not stopped yet. *)
Definition live_tunnels (evs : list app_event) : list nat :=
  foldl (fun live e =>
           match e with
           | AppSpawnTunnel t _ _ => live ++ [t]
           | AppTunnelStop t => List.filter (fun x => negb (Nat.eqb x t)) live
           | _ => live
           end) [] evs.

(** The handles a session holds were handed out before. *)
Definition session_ok (s : Session) : Prop :=
  forall t, tunnel s = Some t -> (t < fresh s)%nat.

Definition held (o : option nat) : list nat :=
  match o with Some t => [t] | None => [] end.

(** One event on the list of live tunnels. *)
Definition live_step (live : list nat) (e : app_event) : list nat :=
  match e with
  | AppSpawnTunnel t _ _ => live ++ [t]
  | AppTunnelStop t => List.filter (fun x => negb (Nat.eqb x t)) live
  | _ => live
  end.

Definition live_from (live : list nat) (evs : list app_event) : list nat :=
  foldl live_step live evs.

(** ** Vocabulary of the proxy handlers *)

Definition is_roundtrip (e : event) : bool :=
  match e with EvRoundTrip _ _ => true | _ => false end.

Definition is_log (e : event) : bool :=
  match e with EvLog _ _ => true | _ => false end.

(** The upstream proxy [handleHTTP] sends a request through: the
    configured one when it is set and parses as a URL. *)
Definition transport_of (p : ProxyServer) (env : netenv) : option string :=
  if String.eqb (httpProxy p) "" then None
  else match url_Parse env (httpProxy p) with
       | inl _ => Some (httpProxy p)
       | inr _ => None
       end.

(** The chunks a body delivers: the data of every read up to the first
    error, the empty ones left out. *)
Fixpoint delivered (reads : list read_result) : list string :=
  match reads with
  | [] => []
  | rd :: rest =>
      (if (0 <? len (rd_data rd))%nat then [rd_data rd] else [])
      ++ match rd_err rd with
         | Some _ => []
         | None => delivered rest
         end
  end.

(** An environment in which every dial and every write succeeds, and no
    URL parses. *)
Definition open_env : netenv :=
  mkNetenv (fun _ => inr "parse error")
           (fun _ => inl 7%nat)
           (fun _ _ => None)
           (fun _ => inr "EOF")
           (fun _ _ => None)
           (fun _ _ => inr "no route")
           (fun _ _ => None).

Definition connect_request_of (host : string) : Request :=
  mkRequest "CONNECT" "" host ∅ "".

(** ** Vocabulary of the tunnel session *)

Definition unset {A : Type} (o : option A) : bool :=
  match o with None => true | Some _ => false end.

(** A tunnel as [NewSSHTunnel] makes it, with the two callbacks set or
    not, before [Start] is called. *)
Definition new_machine (cfg : Config) (status : bool) (prompt : option string)
  : machine :=
  machine_of (with_callbacks status prompt (NewSSHTunnel cfg)).

(** What holds of the fields of a tunnel at each point [Start] can be
    at. *)
Definition session_inv (m : machine) : bool :=
  Bool.eqb (reconnect (tun m)) (negb (stopChan_closed (tun m)))
  && match pc m with
     | Idle | Dialing _ => unset (client (tun m)) && unset (listener (tun m))
     | Listening => negb (unset (client (tun m))) && unset (listener (tun m))
     | Accepting =>
         negb (unset (client (tun m))) && negb (unset (listener (tun m)))
         && negb (stopChan_closed (tun m))
     | Backoff =>
         unset (client (tun m)) && unset (listener (tun m)) && negb (told_to_end m)
     | Returned _ =>
         unset (client (tun m)) && unset (listener (tun m)) && told_to_end m
     | Panicked => stopChan_closed (tun m)
     end.







Definition auth_rank (a : AuthMethod) : nat :=
  match a with
  | AgentAuth => 0
  | KeyAuth _ => 1
  | PasswordAuth _ => 2
  | KeyboardInteractive => 3
  end%nat.

(** [path] holds a private key that parses, as it is or with the
    configured passphrase. *)
Definition key_loads (h : hostenv) (t : SSHTunnel) (path : string) : Prop :=
  exists key, os_ReadFile h path = Some key
    /\ (ParsePrivateKey h key = true
        \/ (SSHKeyPassphrase (t_config t) <> ""
            /\ ParsePrivateKeyWithPassphrase h key (SSHKeyPassphrase (t_config t)) = true)).

(** The tunnel of [sample_config] with a password prompt installed,
    blocked in its first [ssh.Dial]. *)
Definition prompting_machine : machine :=
  fst (step bare_host (new_machine sample_config true (Some "secret")) CallStart).

(** ** More vocabulary of the relay *)

(** No copy of the first, or of the second, goroutine fails. *)
Definition first_copy_holds (cs : list fault_choice) : bool :=
  forallb (fun c => match c with CopyFails true => false | _ => true end) cs.

Definition second_copy_holds (cs : list fault_choice) : bool :=
  forallb (fun c => match c with CopyFails false => false | _ => true end) cs.

(** A round in which every party gets a turn, [n] times. *)
Definition fair_rounds (n : nat) : list fault_choice := map Sched (rounds n).

(** In the relay of [handleConnect] no connection is closed before the
    handler returns. *)
Definition connect_closed_inv (r : relay) : Prop :=
  connect_relay_inv r
  /\ (waited r = false -> closedA r = false /\ closedB r = false).

(** While the copy of the first goroutine of [handleConnect] has not
    failed, that goroutine is past its copy only when the client's stream
    has ended, and the write side of the target is shut only then. *)
Definition connect_first_inv (r : relay) : Prop :=
  connect_relay_inv r
  /\ (g1 r = [Copy SideB SideA; CloseWrite SideB; WgDone] \/ eofA r = true)
  /\ (finB r = true -> eofA r = true).

Definition connect_second_inv (r : relay) : Prop :=
  connect_relay_inv r
  /\ (g2 r = [Copy SideA SideB; CloseWrite SideA; WgDone] \/ eofB r = true)
  /\ (finA r = true -> eofB r = true).

(** The states the relay of [handleRemoteConnection] goes through,
    whatever the peers do and whichever copy fails. *)
Definition tunnel_shape_inv (r : relay) : Prop :=
  (g1 r = [Copy SideB SideA; WgDone] \/ g1 r = [WgDone] \/ g1 r = [])
  /\ (g2 r = [Copy SideA SideB; WgDone] \/ g2 r = [WgDone] \/ g2 r = [])
  /\ wg r = (running (g1 r) + running (g2 r))%nat
  /\ (waited r = true ->
      g1 r = [] /\ g2 r = [] /\ closedA r = true /\ closedB r = true)
  /\ (waited r = false ->
      finA r = false /\ finB r = false /\ closedA r = false /\ closedB r = false).

(** While no copy of the first, of the second, goroutine fails, it is
    past its copy only when its source has ended. *)
Definition tunnel_first_inv (r : relay) : Prop :=
  tunnel_shape_inv r /\ (g1 r = [Copy SideB SideA; WgDone] \/ eofA r = true).

Definition tunnel_second_inv (r : relay) : Prop :=
  tunnel_shape_inv r /\ (g2 r = [Copy SideA SideB; WgDone] \/ eofB r = true).

(** The tunnel of [sample_tunnel], cancelled and stopped during its
    first dial, as [App.Stop] does. *)
Definition stopped_while_dialing : machine :=
  fst (run bare_host (machine_of sample_tunnel) [CallStart; Cancel; CallStop]).


(** The entry [log] writes for a message. *)
Definition log_entry (now level msg : string) : string :=
  "[" +:+ now +:+ "] "
  +:+ (if String.eqb level LevelError then "[ERROR] "
       else if String.eqb level LevelDebug then "[DEBUG] " else "")
  +:+ msg.

(** * Properties *)

(** ** Configuration defaults (config.go, app.go) *)

Lemma default_ports_set p : ports_set (default_ports p).
Proof.
  destruct p as [[s x] r]; simpl.
  repeat split; repeat case_match; lia.
Qed.

Lemma default_ports_idem p : default_ports (default_ports p) = default_ports p.
Proof.
  destruct p as [[s x] r]; simpl.
  repeat case_match; (reflexivity || lia).
Qed.

Lemma default_ports_nonzero p : ports_set p -> default_ports p = p.
Proof.
  destruct p as [[s x] r]; simpl. intros (Hs & Hx & Hr).
  repeat case_match; (reflexivity || lia).
Qed.

Lemma applyDefaults_ports r :
  ports_of (applyDefaultsToRecord r) = default_ports (ports_of r).
Proof. reflexivity. Qed.

Lemma applyDefaults_ID r : rec_ID (applyDefaultsToRecord r) = rec_ID r.
Proof. reflexivity. Qed.

Lemma normalize_records_ports ids rs : forall n,
  map ports_of (fst (normalize_records ids n rs))
  = map (fun r => default_ports (ports_of r)) rs.
Proof.
  induction rs as [|r rs IH]; intros n; simpl; [reflexivity|].
  destruct (String.eqb (rec_ID r) "");
    match goal with
    | |- context [normalize_records ids ?k rs] =>
        specialize (IH k); destruct (normalize_records ids k rs) as [rest n2]
    end; simpl in *; f_equal; assumption.
Qed.

Lemma normalize_records_IDs ids rs : (forall k, ids k <> "") -> forall n,
  Forall (fun r => rec_ID r <> "") (fst (normalize_records ids n rs)).
Proof.
  intros Hids. induction rs as [|r rs IH]; intros n; simpl; [constructor|].
  destruct (String.eqb (rec_ID r) "") eqn:E;
    match goal with
    | |- context [normalize_records ids ?k rs] =>
        specialize (IH k); destruct (normalize_records ids k rs) as [rest n2]
    end; simpl in *; constructor; try assumption.
  - apply Hids.
  - apply String.eqb_neq in E. exact E.
Qed.

Lemma normalize_records_length ids rs : forall n,
  length (fst (normalize_records ids n rs)) = length rs.
Proof.
  intros n.
  rewrite <- (length_map ports_of), normalize_records_ports, length_map.
  reflexivity.
Qed.

Lemma findIndex_from_found id rs : forall i,
  findIndex_from i id rs <> -1 -> 0 <= i ->
  exists r, find_by_ID id rs = Some r /\ In r rs.
Proof.
  induction rs as [|r rs IH]; intros i H Hi; simpl in *; [congruence|].
  destruct (String.eqb (rec_ID r) id).
  - exists r; split; [reflexivity | left; reflexivity].
  - destruct (IH (i + 1)) as (r' & Hr' & Hin); [assumption | lia |].
    exists r'; split; [assumption | right; assumption].
Qed.

Lemma findIndex_from_first rs i :
  rs <> [] -> findIndex_from i (first_ID rs) rs = i.
Proof.
  destruct rs as [|r rs]; [congruence|]. intros _. simpl.
  rewrite String.eqb_refl. reflexivity.
Qed.

(** After [normalize] the active record exists. *)
Lemma normalize_active ids n c :
  (forall k, ids k <> "") ->
  exists r, getActiveRecord (fst (normalize ids n c)) = Some r
            /\ In r (Records (fst (normalize ids n c))).
Proof.
  intros Hids. unfold normalize.
  set (start := match Records c with [] => _ | _ :: _ => _ end).
  assert (Hne : Records (fst start) <> []).
  { subst start. destruct (Records c) eqn:E; simpl; [discriminate|].
    rewrite E. discriminate. }
  destruct start as [c1 n1]. simpl in Hne.
  pose proof (normalize_records_IDs ids (Records c1) Hids n1) as HID.
  pose proof (normalize_records_length ids (Records c1) n1) as Hlen.
  destruct (normalize_records ids n1 (Records c1)) as [rs n2].
  simpl fst in HID, Hlen. lazy zeta. simpl fst.
  assert (Hrs : rs <> []).
  { intros ->. destruct (Records c1); [congruence | discriminate]. }
  assert (Hfirst : first_ID rs <> "").
  { destruct rs as [|r rs]; [congruence|]. inversion HID; subst. assumption. }
  assert (Key : forall cfg, Records cfg = rs -> ActiveID cfg <> "" ->
             findRecordIndex cfg (ActiveID cfg) <> -1 ->
             exists r, getActiveRecord cfg = Some r /\ In r (Records cfg)).
  { intros cfg HR HA HF. unfold getActiveRecord.
    apply String.eqb_neq in HA. rewrite HA.
    apply (findIndex_from_found _ _ 0); [exact HF | lia]. }
  assert (First : forall cfg, Records cfg = rs ->
             exists r, getActiveRecord (set_ActiveID (first_ID (Records cfg)) cfg) = Some r
                       /\ In r (Records (set_ActiveID (first_ID (Records cfg)) cfg))).
  { intros cfg HR. apply Key; simpl; rewrite ?HR; try reflexivity; try assumption.
    unfold findRecordIndex; simpl. rewrite HR, findIndex_from_first by assumption. lia. }
  set (c2 := set_Records rs c1).
  set (c3 := if _ : bool then _ else c2).
  assert (H3 : Records c3 = rs /\ ActiveID c3 <> "").
  { subst c3. destruct (_ && _) eqn:E; simpl.
    - split; [reflexivity | assumption].
    - split; [reflexivity|]. apply andb_false_iff in E. destruct E as [E|E].
      + apply String.eqb_neq in E. exact E.
      + destruct rs; [congruence | discriminate]. }
  destruct H3 as [HR3 HA3]. clearbody c3.
  destruct (_ && _) eqn:E.
  - apply First. assumption.
  - apply Key; try assumption.
    apply andb_false_iff in E. destruct E as [E|E].
    + apply andb_false_iff in E. destruct E as [E|E].
      * apply negb_false_iff, String.eqb_eq in E. contradiction.
      * apply Z.eqb_neq. exact E.
    + rewrite HR3 in E. destruct rs; [congruence | discriminate].
Qed.

Lemma Records_if_active (b : bool) id cfg :
  Records (if b then set_ActiveID id cfg else cfg) = Records cfg.
Proof. destruct b; reflexivity. Qed.

Lemma normalize_ports ids n c :
  map ports_of (Records (fst (normalize ids n c)))
  = match Records c with
    | [] => [default_ports (legacy_ports c)]
    | rs => map (fun r => default_ports (ports_of r)) rs
    end.
Proof.
  unfold normalize.
  set (start := match Records c with [] => _ | _ :: _ => _ end).
  assert (Hstart : map (fun r => default_ports (ports_of r)) (Records (fst start))
                   = match Records c with
                     | [] => [default_ports (legacy_ports c)]
                     | rs => map (fun r => default_ports (ports_of r)) rs
                     end).
  { subst start. destruct (Records c) eqn:E; simpl.
    - f_equal. apply (default_ports_idem (legacy_ports c)).
    - rewrite E. reflexivity. }
  destruct start as [c1 n1]. simpl fst in Hstart.
  pose proof (normalize_records_ports ids (Records c1) n1) as HP.
  destruct (normalize_records ids n1 (Records c1)) as [rs n2].
  simpl fst in HP. lazy zeta. simpl fst.
  rewrite !Records_if_active. simpl Records.
  rewrite HP. exact Hstart.
Qed.

Lemma sync_ports c r :
  getActiveRecord c = Some r -> legacy_ports (syncLegacyFromActive c) = ports_of r.
Proof. intros H. unfold syncLegacyFromActive. rewrite H. reflexivity. Qed.

Lemma getActiveRecord_secrets pw pp c :
  getActiveRecord (set_SSHKeyPassphrase pp (set_SSHPassword pw c)) = getActiveRecord c.
Proof. reflexivity. Qed.

(** C9.  Port defaults.  [applyDefaultsToRecord] puts 22, 8080 and 8080 in
    the port fields that are zero and leaves the others; a fresh
    configuration ([DefaultConfig]) carries these defaults in its record and
    in its own fields; a loaded configuration comes out of [normalize] with
    the defaults applied to every record, and [GetConfig] reads the ports of
    one of these records; [Start] and [SaveConfig] apply the same defaults
    to the configuration they are handed. *)
Theorem port_defaults_applied (ids : idsource) (n : nat) (c : Config)
    (lg : list string) (Hids : forall k, ids k <> "") :
  (forall r, ports_of (applyDefaultsToRecord r) = default_ports (ports_of r))
  /\ (forall p, ports_set p -> default_ports p = p)
  /\ (forall p, ports_set (default_ports p))
  /\ default_ports (0, 0, 0) = (22, 8080, 8080)
  /\ fst (LoadOrCreateConfig ids n FileMissing) = inl (fst (DefaultConfig ids n))
  /\ legacy_ports (fst (DefaultConfig ids n)) = (22, 8080, 8080)
  /\ map ports_of (Records (fst (DefaultConfig ids n))) = [(22, 8080, 8080)]
  /\ fst (LoadOrCreateConfig ids n (FileParsed c)) = inl (fst (normalize ids n c))
  /\ map ports_of (Records (fst (normalize ids n c)))
     = match Records c with
       | [] => [default_ports (legacy_ports c)]
       | rs => map (fun r => default_ports (ports_of r)) rs
       end
  /\ (exists r, In r (Records (fst (normalize ids n c)))
                /\ legacy_ports (GetConfig (mkApp (fst (normalize ids n c)) lg))
                   = ports_of r
                /\ ports_set (ports_of r))
  /\ legacy_ports (applyPortDefaults c) = default_ports (legacy_ports c).
Proof.
  split; [exact applyDefaults_ports|].
  split; [exact default_ports_nonzero|].
  split; [exact default_ports_set|].
  split; [reflexivity|].
  split; [reflexivity|].
  assert (HD : getActiveRecord
                 (mkConfig [mkRemoteRecord (ids n) "" "" 22 "" "" 8080 8080 "" "" ""]
                    (ids n) "" "" 0 "" "" "" "" 0 0 "" "" "")
               = Some (mkRemoteRecord (ids n) "" "" 22 "" "" 8080 8080 "" "" "")).
  { unfold getActiveRecord. simpl.
    destruct (String.eqb (ids n) "") eqn:E.
    - apply String.eqb_eq in E. destruct (Hids n E).
    - rewrite String.eqb_refl. reflexivity. }
  split.
  { unfold DefaultConfig. simpl fst. rewrite (sync_ports _ _ HD). reflexivity. }
  split.
  { unfold DefaultConfig, syncLegacyFromActive. simpl fst. simpl rec_ID.
    rewrite HD. reflexivity. }
  split.
  { simpl. destruct (normalize ids n c). reflexivity. }
  split; [apply normalize_ports|].
  split; [|reflexivity].
  destruct (normalize_active ids n c Hids) as (r & Hr & Hin).
  exists r. split; [exact Hin|]. split.
  - unfold GetConfig. simpl config. apply sync_ports.
    rewrite getActiveRecord_secrets. exact Hr.
  - apply (in_map ports_of) in Hin. rewrite normalize_ports in Hin.
    destruct (Records c) as [|r0 rs0].
    + destruct Hin as [<-|[]]. apply default_ports_set.
    + apply in_map_iff in Hin. destruct Hin as (x & <- & _). apply default_ports_set.
Qed.

Lemma port_defaults_applied_witness :
  (forall k : nat, (fun _ : nat => "a1b2c3d4e5f60718") k <> "")
  /\ legacy_ports (fst (DefaultConfig (fun _ => "a1b2c3d4e5f60718") 0)) = (22, 8080, 8080).
Proof.
  assert (H : forall k : nat, (fun _ : nat => "a1b2c3d4e5f60718") k <> "")
    by (intros k; discriminate).
  split; [exact H|].
  exact (proj1 (proj2 (proj2 (proj2 (proj2 (proj2
           (port_defaults_applied (fun _ => "a1b2c3d4e5f60718") 0%nat zeroConfig [] H))))))).
Defined.

(** ** The secrets stay in the session (config.go, app.go) *)

Lemma normalize_secrets ids n pw pp c :
  normalize ids n (set_SSHKeyPassphrase pp (set_SSHPassword pw c))
  = (set_SSHKeyPassphrase pp (set_SSHPassword pw (fst (normalize ids n c))),
     snd (normalize ids n c)).
Proof.
  destruct c as [rs aid rn h p u w kp kpp pp' rp hp hsp ll].
  unfold normalize, set_SSHKeyPassphrase, set_SSHPassword, set_Records,
    set_ActiveID, findRecordIndex.
  destruct rs as [|r0 rs0]; cbn -[normalize_records applyDefaultsToRecord];
    destruct (normalize_records _ _ _) as [rs n2]; cbn;
    destruct ((aid =? "")%string && negb (length rs =? 0)%nat); cbn;
    destruct (_ && _); reflexivity.
Qed.

Lemma sync_secrets pw pp c :
  syncLegacyFromActive (set_SSHKeyPassphrase pp (set_SSHPassword pw c))
  = set_SSHKeyPassphrase pp (set_SSHPassword pw (syncLegacyFromActive c)).
Proof.
  unfold syncLegacyFromActive. rewrite getActiveRecord_secrets.
  destruct (getActiveRecord c); reflexivity.
Qed.

Lemma configToSave_secrets pw pp c :
  configToSave (set_SSHKeyPassphrase pp (set_SSHPassword pw c)) = configToSave c.
Proof. reflexivity. Qed.

Lemma Save_document_secrets ids n pw pp c :
  Save_document ids n (set_SSHKeyPassphrase pp (set_SSHPassword pw c))
  = Save_document ids n c.
Proof.
  unfold Save_document, Save_receiver.
  rewrite normalize_secrets. destruct (normalize ids n c) as [c1 n1]. simpl.
  rewrite sync_secrets, configToSave_secrets. reflexivity.
Qed.

Lemma assoc_app_None k (l1 l2 : list (string * json)) :
  assoc_json k l1 = None -> assoc_json k (l1 ++ l2) = assoc_json k l2.
Proof.
  induction l1 as [|[k' v] l1 IH]; simpl; [reflexivity|].
  destruct (String.eqb k' k); [discriminate | exact IH].
Qed.

(** C10.  Two configurations that differ in [SSHPassword] and
    [SSHKeyPassphrase] only are saved as the same bytes and are returned by
    [GetConfig] as the same value; the value returned has both fields
    empty, and the document saved has neither key. *)
Theorem secrets_not_exposed {B : Type} (MarshalIndent : json -> B)
    (ids : idsource) (n : nat) (c : Config) (lg : list string)
    (pw1 pp1 pw2 pp2 : string) :
  let c1 := set_SSHKeyPassphrase pp1 (set_SSHPassword pw1 c) in
  let c2 := set_SSHKeyPassphrase pp2 (set_SSHPassword pw2 c) in
  snd (Save MarshalIndent ids n c1) = snd (Save MarshalIndent ids n c2)
  /\ GetConfig (mkApp c1 lg) = GetConfig (mkApp c2 lg)
  /\ SSHPassword (GetConfig (mkApp c1 lg)) = ""
  /\ SSHKeyPassphrase (GetConfig (mkApp c1 lg)) = ""
  /\ json_field "ssh_password" (Save_document ids n c1) = None
  /\ json_field "ssh_key_passphrase" (Save_document ids n c1) = None.
Proof.
  intros c1 c2. subst c1 c2.
  split. { unfold Save. simpl snd. rewrite !Save_document_secrets. reflexivity. }
  split. { reflexivity. }
  split. { unfold GetConfig, syncLegacyFromActive. simpl config.
           destruct (getActiveRecord _); reflexivity. }
  split. { unfold GetConfig, syncLegacyFromActive. simpl config.
           destruct (getActiveRecord _); reflexivity. }
  rewrite Save_document_secrets.
  unfold Save_document, json_of_config, json_field.
  set (cs := fst (Save_receiver ids n c)).
  assert (HR : forall k, k <> "records" ->
                assoc_json k (match Records (configToSave cs) with
                              | [] => []
                              | rs => [("records", JArr (map json_of_record rs))]
                              end) = None).
  { intros k Hk. destruct (Records (configToSave cs)) as [|r0 rs0]; [reflexivity|].
    cbn [assoc_json]. destruct (String.eqb "records" k) eqn:E; [|reflexivity].
    apply String.eqb_eq in E. congruence. }
  split.
  - rewrite assoc_app_None by (apply HR; discriminate).
    unfold field_str_omitempty, field_str, field_int. simpl.
    repeat (case_match; simpl); reflexivity.
  - rewrite assoc_app_None by (apply HR; discriminate).
    unfold field_str_omitempty, field_str, field_int. simpl.
    repeat (case_match; simpl); reflexivity.
Qed.

(** ** The upstream proxy's answer (proxy.go) *)

Lemma append_cons (c : ascii) (a b : string) : String c a +:+ b = String c (a +:+ b).
Proof. reflexivity. Qed.

Lemma append_nil_l (b : string) : "" +:+ b = b.
Proof. reflexivity. Qed.

Lemma append_nil_r (a : string) : a +:+ "" = a.
Proof.
  induction a as [|x a IH]; [reflexivity|].
  rewrite append_cons. f_equal. exact IH.
Qed.

Lemma len_append (a b : string) : len (a +:+ b) = (len a + len b)%nat.
Proof.
  unfold len. induction a as [|c a IH]; [reflexivity|].
  rewrite append_cons. simpl. now rewrite IH.
Qed.

Lemma append_assoc (a b c : string) : (a +:+ b) +:+ c = a +:+ (b +:+ c).
Proof.
  induction a as [|x a IH]; [reflexivity|].
  rewrite !append_cons. f_equal. exact IH.
Qed.

Lemma substring_prefix (sub post : string) :
  substring 0 (len sub) (sub +:+ post) = sub.
Proof.
  unfold len. induction sub as [|c sub IH].
  - rewrite append_nil_l. destruct post; reflexivity.
  - rewrite append_cons. simpl. now rewrite IH.
Qed.

Lemma substring_skip (pre s : string) (k : nat) :
  substring (len pre) k (pre +:+ s) = substring 0 k s.
Proof.
  unfold len. induction pre as [|c pre IH]; [reflexivity|].
  rewrite append_cons. simpl. exact IH.
Qed.

Lemma substring_at (pre sub post : string) :
  slice (pre +:+ sub +:+ post) (len pre) (len pre + len sub) = sub.
Proof.
  unfold slice. replace (len pre + len sub - len pre)%nat with (len sub) by lia.
  rewrite substring_skip. apply substring_prefix.
Qed.

Lemma substring_head (sub s : string) :
  substring 0 (len sub) s = sub -> exists post, s = sub +:+ post.
Proof.
  unfold len. revert s. induction sub as [|d sub IH]; intros s H.
  - exists s. reflexivity.
  - destruct s as [|c s]; simpl in H; [discriminate|].
    injection H as -> H. destruct (IH s H) as (post & ->).
    exists post. reflexivity.
Qed.

Lemma substring_found (s sub : string) : forall i,
  substring i (len sub) s = sub -> has_substring s sub.
Proof.
  induction s as [|c s IH]; intros i H.
  - exists "", "". unfold len in H.
    destruct i, (String.length sub); simpl in H; subst; reflexivity.
  - destruct i as [|i].
    + destruct (substring_head sub _ H) as (post & Hp).
      exists "", post. exact Hp.
    + simpl in H. destruct (IH i H) as (pre & post & ->).
      exists (String c pre), post. reflexivity.
Qed.

Lemma stringContains_loop_true (s sub : string) : forall k i,
  stringContains_loop s sub i k = true <->
  exists j, (i <= j < i + k)%nat /\ slice s j (j + len sub) = sub.
Proof.
  induction k as [|k IH]; intros i; simpl.
  - split; [discriminate | intros (j & Hj & _); lia].
  - destruct (String.eqb (slice s i (i + len sub)) sub) eqn:E.
    + apply String.eqb_eq in E. split; [|reflexivity].
      intros _. exists i. split; [lia | exact E].
    + apply String.eqb_neq in E. rewrite IH. split.
      * intros (j & Hj & H). exists j. split; [lia | exact H].
      * intros (j & Hj & H). exists j. split; [|exact H].
        destruct (Nat.eq_dec j i) as [->|]; [contradiction | lia].
Qed.

Lemma slice_found (s sub : string) (j : nat) :
  slice s j (j + len sub) = sub -> has_substring s sub.
Proof.
  unfold slice. replace (j + len sub - j)%nat with (len sub) by lia.
  apply substring_found.
Qed.

Lemma has_substring_len (s sub : string) :
  has_substring s sub -> (len sub <= len s)%nat.
Proof. intros (pre & post & ->). rewrite !len_append. lia. Qed.

(** [stringContains] is the substring test when [substr] is not longer
    than [s]. *)
Lemma stringContains_spec (s sub : string) :
  stringContains s sub = true <-> has_substring s sub.
Proof.
  unfold stringContains. rewrite stringContains_loop_true. split.
  - intros (j & _ & H). exact (slice_found _ _ _ H).
  - intros (pre & post & ->). exists (len pre). split.
    + rewrite !len_append. lia.
    + apply substring_at.
Qed.

(** [contains] is the substring test: its first two disjuncts are the
    offsets 0 and 1 of the loop of [stringContains]. *)
Lemma contains_spec (s sub : string) :
  contains s sub = true <-> has_substring s sub.
Proof.
  unfold contains. split.
  - intros H. apply andb_true_iff in H. destruct H as [_ H].
    apply orb_true_iff in H. destruct H as [H|H].
    + apply orb_true_iff in H. destruct H as [H|H].
      * apply String.eqb_eq in H. exact (slice_found s sub 0 H).
      * apply andb_true_iff in H. destruct H as [_ H].
        apply String.eqb_eq in H.
        apply (slice_found s sub 1). rewrite Nat.add_comm. exact H.
    + apply stringContains_spec. exact H.
  - intros H. apply andb_true_iff. split.
    + apply Nat.leb_le. apply has_substring_len. exact H.
    + apply orb_true_iff. right. apply stringContains_spec. exact H.
Qed.

Lemma contains_false (s sub : string) :
  contains s sub = false <-> ~ has_substring s sub.
Proof.
  rewrite <- contains_spec. destruct (contains s sub); split; congruence.
Qed.

Lemma status_line_prefix (s : string) : exists rest, s = status_line s +:+ rest.
Proof.
  induction s as [|c s (rest & IH)]; simpl.
  - exists "". reflexivity.
  - destruct (_ && _).
    + exists (String c s). reflexivity.
    + exists rest. rewrite append_cons. f_equal. exact IH.
Qed.

Lemma status_line_substring (s sub : string) :
  has_substring (status_line s) sub -> has_substring s sub.
Proof.
  intros (pre & post & H). destruct (status_line_prefix s) as (rest & Hs).
  exists pre, (post +:+ rest).
  etransitivity; [exact Hs|]. rewrite H, !append_assoc. reflexivity.
Qed.

Lemma dialThroughProxy_answered env proxyURL targetHost c response :
  upstream_answered env proxyURL targetHost c response ->
  exists proxyAddr,
    dialThroughProxy env proxyURL targetHost
    = if negb (contains response "200") && negb (contains response "201")
      then (inr ("proxy rejected connection: "
                 +:+ slice response 0 (Z.to_nat (min 200 (Z.of_nat (len response))))),
            [EvDial proxyAddr; EvConnWrite c (connect_request targetHost);
             EvConnClose c])
      else (inl c,
            [EvDial proxyAddr; EvConnWrite c (connect_request targetHost);
             EvLog LevelDebug
               ("Connected to " +:+ targetHost +:+ " through proxy " +:+ proxyAddr)]).
Proof.
  intros (u & Hu & Hd & Hw & Hr). exists (proxy_address u).
  unfold dialThroughProxy.
  rewrite Hu. fold (proxy_address u). rewrite Hd.
  fold (connect_request targetHost). rewrite Hw, Hr.
  destruct (_ && _); reflexivity.
Qed.

(** The exact test of the code: the tunnel is taken as established exactly
    when the bytes of the first read hold [200] or [201] somewhere. *)
Lemma dialThroughProxy_accepts_iff env proxyURL targetHost c response :
  upstream_answered env proxyURL targetHost c response ->
  fst (dialThroughProxy env proxyURL targetHost) = inl c
  <-> (has_substring response "200" \/ has_substring response "201").
Proof.
  intros H. destruct (dialThroughProxy_answered _ _ _ _ _ H) as (addr & ->).
  rewrite <- !contains_spec.
  destruct (contains response "200"), (contains response "201"); simpl;
    split; intros; try reflexivity; try discriminate; auto.
  destruct H0; discriminate.
Qed.

(** C4 (amended).  When the upstream proxy has been reached and has
    answered: an answer whose status line holds [200] or [201] establishes
    the tunnel, on the connection to the proxy, which is left open; an
    answer that holds neither [200] nor [201] closes the connection and
    returns an error.  A status that is 2xx is not enough: the answer
    [204 No Content] is refused. *)
Theorem upstream_answer_checked (env : netenv) (proxyURL targetHost : string)
    (c : conn) (response : string)
    (H : upstream_answered env proxyURL targetHost c response) :
  ((has_substring (status_line response) "200"
    \/ has_substring (status_line response) "201") ->
   fst (dialThroughProxy env proxyURL targetHost) = inl c
   /\ ~ In (EvConnClose c) (snd (dialThroughProxy env proxyURL targetHost)))
  /\ (~ has_substring response "200" -> ~ has_substring response "201" ->
      (exists msg, fst (dialThroughProxy env proxyURL targetHost) = inr msg)
      /\ In (EvConnClose c) (snd (dialThroughProxy env proxyURL targetHost)))
  /\ status_is_2xx answer_204 = true
  /\ (exists msg,
        fst (dialThroughProxy (upstream_env answer_204) "http://proxy.local:3128"
               "example.com:443") = inr msg).
Proof.
  destruct (dialThroughProxy_answered _ _ _ _ _ H) as (addr & ->).
  split; [|split; [|split]].
  - intros Hs.
    assert (Hc : contains response "200" = true \/ contains response "201" = true).
    { destruct Hs as [Hs|Hs]; [left | right];
        apply contains_spec, status_line_substring; exact Hs. }
    assert (Hb : negb (contains response "200") && negb (contains response "201") = false).
    { destruct Hc as [-> | ->]; simpl; [reflexivity | apply andb_false_r]. }
    rewrite Hb. simpl. split; [reflexivity|].
    intros [Hx|[Hx|[Hx|[]]]]; discriminate.
  - intros H1 H2. apply contains_false in H1, H2. rewrite H1, H2. simpl.
    split; [eexists; reflexivity|]. right; right; left; reflexivity.
  - reflexivity.
  - eexists. vm_compute. reflexivity.
Qed.

Lemma upstream_answer_checked_witness :
  upstream_answered (upstream_env answer_200) "http://proxy.local:3128"
    "example.com:443" 7%nat answer_200
  /\ fst (dialThroughProxy (upstream_env answer_200) "http://proxy.local:3128"
            "example.com:443") = inl 7%nat.
Proof.
  assert (H : upstream_answered (upstream_env answer_200) "http://proxy.local:3128"
                "example.com:443" 7%nat answer_200).
  { exists (mkURL "proxy.local:3128" "proxy.local" "3128").
    repeat split; reflexivity. }
  split; [exact H|].
  apply (upstream_answer_checked _ _ _ _ _ H).
  left. exists "HTTP/1.1 ", " Connection established". reflexivity.
Defined.

(** C4 as stated fails.  With the upstream proxy at [proxy.local:3128]
    answering [r]: the answer [204 No Content] has a 2xx status and is
    refused; the answer [407] whose [Content-Length] is 200 is taken as an
    established tunnel though its status line holds neither [200] nor
    [201]. *)
Lemma upstream_answer_counterexample :
  let dial r := fst (dialThroughProxy (upstream_env r) "http://proxy.local:3128"
                       "example.com:443") in
  ~ (forall r, dial r = inl 7%nat <-> status_is_2xx r = true)
  /\ ~ (forall r, dial r = inl 7%nat
                  <-> (has_substring (status_line r) "200"
                       \/ has_substring (status_line r) "201")).
Proof.
  intros dial. split; intros Hall.
  - specialize (Hall answer_204). destruct Hall as [_ Hall].
    specialize (Hall eq_refl). vm_compute in Hall. discriminate.
  - specialize (Hall answer_407). destruct Hall as [Hall _].
    assert (Hd : dial answer_407 = inl 7%nat) by (vm_compute; reflexivity).
    specialize (Hall Hd).
    destruct Hall as [Hs|Hs]; apply contains_spec in Hs; vm_compute in Hs; discriminate.
Qed.

(** ** CONNECT to an unreachable target (proxy.go) *)

Lemma handleConnect_dial (p : ProxyServer) (env : netenv) (r : Request)
    (w : ResponseWriter) :
  handleConnect p env r w
  = let hello := EvLog LevelDebug (">> 收到 HTTPS 请求: " +:+ req_Host r) in
    let '(dialed, evs) := dial_target p env (req_Host r) in
    match dialed with
    | inr err =>
        let msg := "Failed to connect to " +:+ req_Host r +:+ ": " +:+ err in
        (http_Error msg StatusBadGateway w, hello :: evs ++ [EvLog LevelError msg])
    | inl targetConn =>
        match w_hijacker w with
        | None =>
            (http_Error "Hijacking not supported" StatusInternalServerError w,
             hello :: evs ++ [EvConnClose targetConn])
        | Some (inr err) =>
            (http_Error ("Hijack failed: " +:+ err) StatusInternalServerError w,
             hello :: evs ++ [EvHijack; EvConnClose targetConn])
        | Some (inl clientConn) =>
            match conn_Write env clientConn established with
            | Some err =>
                (w, hello :: evs
                    ++ [EvHijack; EvConnWrite clientConn established;
                        EvLog LevelError ("Failed to send connection established: " +:+ err);
                        EvConnClose clientConn; EvConnClose targetConn])
            | None =>
                (w, hello :: evs
                    ++ [EvHijack; EvConnWrite clientConn established;
                        EvRelay clientConn targetConn;
                        EvLog LevelDebug ("CONNECT " +:+ req_Host r +:+ " completed");
                        EvConnClose clientConn; EvConnClose targetConn])
            end
        end
    end.
Proof. reflexivity. Qed.

(** Whatever [dialThroughProxy] does, it neither hijacks the client nor
    relays. *)
Lemma dialThroughProxy_events env proxyURL host :
  forallb (fun e => negb (is_relay e) && negb (is_hijack e))
    (snd (dialThroughProxy env proxyURL host)) = true.
Proof.
  unfold dialThroughProxy.
  repeat (case_match; simpl; try reflexivity).
Qed.

Lemma dial_target_events p env host :
  forallb (fun e => negb (is_relay e) && negb (is_hijack e))
    (snd (dial_target p env host)) = true.
Proof.
  unfold dial_target. destruct (negb _).
  - apply dialThroughProxy_events.
  - reflexivity.
Qed.

(** C5.  A CONNECT request whose dial fails with [err], directly or through
    the upstream proxy: the client is answered [502] with the body
    [Failed to connect to <host>: <err>]; the connection is not hijacked and
    nothing is relayed; the handler returns, and the server handles the
    requests around it as before. *)
Theorem connect_dial_failure (p : ProxyServer) (env : netenv)
    (inOrder outOrder : header -> list (string * list string))
    (r : Request) (w : ResponseWriter) (err : string)
    (before after : list (Request * ResponseWriter))
    (Hmethod : Method r = MethodConnect)
    (Hfresh : fresh_writer w)
    (Hdial : fst (dial_target p env (req_Host r)) = inr err) :
  w_status (fst (handleConnect p env r w)) = Some 502
  /\ w_body (fst (handleConnect p env r w))
     = ["Failed to connect to " +:+ req_Host r +:+ ": " +:+ err +:+ LF]
  /\ has_substring
       ("Failed to connect to " +:+ req_Host r +:+ ": " +:+ err +:+ LF) err
  /\ forallb (fun e => negb (is_relay e) && negb (is_hijack e))
       (snd (handleConnect p env r w)) = true
  /\ Serve p env inOrder outOrder (before ++ (r, w) :: after)
     = Serve p env inOrder outOrder before
       ++ handleConnect p env r w :: Serve p env inOrder outOrder after.
Proof.
  destruct Hfresh as (Hst & Hbody & Hhdr).
  assert (HS : Serve p env inOrder outOrder (before ++ (r, w) :: after)
               = Serve p env inOrder outOrder before
                 ++ handleConnect p env r w :: Serve p env inOrder outOrder after).
  { unfold Serve. rewrite map_app. simpl. f_equal. f_equal.
    unfold handleRequest. rewrite Hmethod. reflexivity. }
  rewrite HS. clear HS.
  rewrite handleConnect_dial.
  pose proof (dial_target_events p env (req_Host r)) as Hev.
  destruct (dial_target p env (req_Host r)) as [dialed evs].
  simpl in Hdial, Hev. subst dialed. cbv zeta.
  split; [|split; [|split; [|split]]].
  - simpl. rewrite Hst. reflexivity.
  - simpl. rewrite Hbody. simpl. rewrite !append_assoc. reflexivity.
  - exists ("Failed to connect to " +:+ req_Host r +:+ ": "), LF.
    rewrite !append_assoc. reflexivity.
  - simpl. rewrite forallb_app, Hev. reflexivity.
  - reflexivity.
Qed.

Lemma connect_dial_failure_witness :
  let r := mkRequest "CONNECT" "" "unreachable.invalid:443" ∅ "" in
  Method r = MethodConnect
  /\ fresh_writer blank_writer
  /\ fst (dial_target (NewProxyServer 8080 "" "") unreachable_env (req_Host r))
     = inr "dial tcp: connection refused"
  /\ w_status (fst (handleConnect (NewProxyServer 8080 "" "") unreachable_env r
                      blank_writer)) = Some 502.
Proof.
  intros r.
  assert (H1 : Method r = MethodConnect) by reflexivity.
  assert (H2 : fresh_writer blank_writer) by (repeat split; reflexivity).
  assert (H3 : fst (dial_target (NewProxyServer 8080 "" "") unreachable_env (req_Host r))
               = inr "dial tcp: connection refused") by reflexivity.
  split; [exact H1|]. split; [exact H2|]. split; [exact H3|].
  exact (proj1 (connect_dial_failure (NewProxyServer 8080 "" "") unreachable_env
                  map_to_list map_to_list r blank_writer _ [] [] H1 H2 H3)).
Defined.

(** ** Plain HTTP requests (proxy.go) *)

Lemma copy_values_lookup (key : string) (values : list string) :
  forall (acc : header) (k : string),
  CanonicalMIMEHeaderKey key = key ->
  copy_values key values acc !! k
  = if decide (key = k)
    then match values with
         | [] => acc !! k
         | _ :: _ => Some (default [] (acc !! k) ++ values)
         end
    else acc !! k.
Proof.
  unfold copy_values.
  induction values as [|v vs IH]; intros acc k Hc; simpl.
  - destruct (decide (key = k)); reflexivity.
  - rewrite IH by exact Hc. unfold Header_Add. rewrite Hc.
    destruct (decide (key = k)) as [->|Hne].
    + rewrite lookup_insert_eq. simpl.
      destruct vs as [|v' vs'].
      * reflexivity.
      * rewrite <- app_assoc. reflexivity.
    + rewrite lookup_insert_ne by exact Hne. reflexivity.
Qed.

(** Copying entries with distinct canonical keys and non-empty values
    into a header that has none of these keys adds exactly them. *)
Lemma copy_header_lookup (entries : list (string * list string)) :
  forall (acc : header) (k : string),
  NoDup (entries.*1) ->
  forallb entry_ok entries = true ->
  (forall k', k' ∈ entries.*1 -> acc !! k' = None) ->
  copy_header entries acc !! k
  = match (list_to_map entries : header) !! k with
    | Some vs => Some vs
    | None => acc !! k
    end.
Proof.
  unfold copy_header.
  induction entries as [|[key values] es IH]; intros acc k Hnd Hok Hacc.
  - reflexivity.
  - simpl in *. apply NoDup_cons in Hnd. destruct Hnd as [Hnotin Hnd].
    apply andb_true_iff in Hok. destruct Hok as [Hkv Hok].
    unfold entry_ok in Hkv. simpl in Hkv.
    apply andb_true_iff in Hkv. destruct Hkv as [Hc Hlen].
    apply String.eqb_eq in Hc.
    rewrite IH; [| exact Hnd | exact Hok |].
    + destruct (decide (key = k)) as [->|Hne].
      * rewrite lookup_insert_eq.
        rewrite (not_elem_of_list_to_map_1 es k Hnotin).
        rewrite copy_values_lookup by exact Hc.
        rewrite decide_True by reflexivity.
        rewrite (Hacc k) by (left).
        destruct values; [discriminate | reflexivity].
      * rewrite lookup_insert_ne by exact Hne.
        destruct (list_to_map es !! k); [reflexivity|].
        rewrite copy_values_lookup by exact Hc.
        rewrite decide_False by exact Hne. reflexivity.
    + intros k' Hk'. rewrite copy_values_lookup by exact Hc.
      destruct (decide (key = k')) as [->|Hne]; [contradiction|].
      apply Hacc. right. exact Hk'.
Qed.

Lemma wire_header_entries (order : header -> list (string * list string)) (h : header) :
  range_order order -> wire_header h = true ->
  NoDup ((order h).*1) /\ forallb entry_ok (order h) = true
  /\ (list_to_map (order h) : header) = h.
Proof.
  intros Hord Hw. specialize (Hord h).
  split; [|split].
  - rewrite Hord. apply NoDup_fst_map_to_list.
  - apply forallb_forall. intros kv Hin.
    unfold wire_header in Hw. rewrite forallb_forall in Hw.
    apply Hw. apply list_elem_of_In. rewrite <- Hord.
    apply list_elem_of_In. exact Hin.
  - rewrite <- (list_to_map_to_list h) at 2.
    apply list_to_map_proper; [|exact Hord].
    rewrite Hord. apply NoDup_fst_map_to_list.
Qed.

(** Ranging over a wire header in any order and adding every value to an
    empty header gives the header back. *)
Lemma copy_header_id (order : header -> list (string * list string)) (h : header) :
  range_order order -> wire_header h = true ->
  copy_header (order h) ∅ = h.
Proof.
  intros Hord Hw.
  destruct (wire_header_entries order h Hord Hw) as (Hnd & Hok & Hmap).
  apply map_eq. intros k.
  rewrite copy_header_lookup; [| exact Hnd | exact Hok | intros; apply lookup_empty].
  rewrite Hmap, lookup_empty. destruct (h !! k); reflexivity.
Qed.

Lemma strip_hop_by_hop_spec (h : header) :
  strip_hop_by_hop h = without_proxy_headers h.
Proof. reflexivity. Qed.

(** With the [CheckRedirect] of [handleHTTP], [client.Do] makes one round
    trip and hands its outcome back, redirect or not. *)
Lemma client_Do_no_redirect fuel env tp via req :
  client_Do fuel env tp CheckRedirect via req
  = (roundTrip env tp req, [EvRoundTrip tp req]).
Proof.
  destruct fuel; simpl; destruct (roundTrip env tp req) as [resp|e];
    try reflexivity;
    destruct (is_redirect (StatusCode resp)); try reflexivity;
    destruct (redirect_of env req resp); reflexivity.
Qed.

Lemma joined_app (a b : list string) : joined (a ++ b) = joined a +:+ joined b.
Proof.
  unfold joined. induction a as [|x a IH]; simpl; [reflexivity|].
  rewrite IH, append_assoc. reflexivity.
Qed.

Lemma stream_body_spec (reads : list read_result) : forall w,
  let w' := stream_body reads w in
  joined (w_body w') = joined (w_body w) +:+ body_bytes reads
  /\ w_header w' = w_header w
  /\ (w_status w <> None -> w_status w' = w_status w).
Proof.
  induction reads as [|rd rest IH]; intros w; simpl.
  - rewrite append_nil_r. auto.
  - assert (Hone : forall w0, w_status w0 <> None ->
              let w1 := if (0 <? len (rd_data rd))%nat
                        then w_Flush (w_Write (rd_data rd) w0) else w0 in
              joined (w_body w1) = joined (w_body w0) +:+ rd_data rd
              /\ w_header w1 = w_header w0 /\ w_status w1 = w_status w0).
    { intros w0 Hs. destruct (0 <? len (rd_data rd))%nat eqn:E; simpl.
      - rewrite joined_app. simpl. rewrite append_nil_r.
        destruct (w_status w0); [auto | congruence].
      - apply Nat.ltb_ge in E. unfold len in E.
        destruct (rd_data rd); [|simpl in E; lia].
        rewrite append_nil_r. auto. }
    destruct (w_status w) eqn:Hst.
    + destruct (Hone w) as (H1 & H2 & H3); [congruence|].
      destruct (rd_err rd).
      * rewrite H1, H2, H3, Hst. auto.
      * specialize (IH (if (0 <? len (rd_data rd))%nat
                        then w_Flush (w_Write (rd_data rd) w) else w)).
        destruct IH as (I1 & I2 & I3).
        rewrite I1, I2, H1, H2, append_assoc.
        split; [reflexivity|]. split; [reflexivity|].
        intros _. rewrite I3; [rewrite H3, Hst; reflexivity | rewrite H3, Hst; discriminate].
    + assert (Hb : let w1 := if (0 <? len (rd_data rd))%nat
                        then w_Flush (w_Write (rd_data rd) w) else w in
              joined (w_body w1) = joined (w_body w) +:+ rd_data rd
              /\ w_header w1 = w_header w).
      { destruct (0 <? len (rd_data rd))%nat eqn:E; simpl.
        - rewrite joined_app. simpl. rewrite append_nil_r. auto.
        - apply Nat.ltb_ge in E. unfold len in E.
          destruct (rd_data rd); [|simpl in E; lia].
          rewrite append_nil_r. auto. }
      destruct Hb as (H1 & H2).
      destruct (rd_err rd).
      * rewrite H1, H2. split; [reflexivity|]. split; [reflexivity|]. congruence.
      * specialize (IH (if (0 <? len (rd_data rd))%nat
                        then w_Flush (w_Write (rd_data rd) w) else w)).
        destruct IH as (I1 & I2 & I3).
        rewrite I1, I2, H1, H2, append_assoc.
        split; [reflexivity|]. split; [reflexivity|]. congruence.
Qed.

(** [io.Copy] writes what the streaming loop writes; only the flushes
    differ. *)
Lemma io_Copy_stream_body (reads : list read_result) : forall w1 w2,
  w_body w1 = w_body w2 -> w_status w1 = w_status w2 -> w_header w1 = w_header w2 ->
  w_body (io_Copy reads w1) = w_body (stream_body reads w2)
  /\ w_status (io_Copy reads w1) = w_status (stream_body reads w2)
  /\ w_header (io_Copy reads w1) = w_header (stream_body reads w2).
Proof.
  induction reads as [|rd rest IH]; intros w1 w2 Hb Hs Hh; simpl.
  - auto.
  - destruct (0 <? len (rd_data rd))%nat, (rd_err rd); simpl;
      try apply IH; simpl; rewrite ?Hb, ?Hs, ?Hh; auto.
Qed.

(** C6.  A plain request through the proxy with no upstream proxy, whose
    header is as [net/http] reads it from the wire: the request sent out
    carries the inbound header without [Proxy-Connection],
    [Proxy-Authenticate] and [Proxy-Authorization], whatever the order in
    which the map is ranged over; one round trip is made, whatever the
    status of the answer, so a redirect is handed to the client and not
    followed; the client receives the status, the header and the body
    bytes of that answer. *)
Theorem plain_http_forwarded (p : ProxyServer) (env : netenv)
    (inOrder outOrder : header -> list (string * list string))
    (r : Request) (w : ResponseWriter) (resp : Response)
    (Hin : range_order inOrder) (Hout : range_order outOrder)
    (Hwire : wire_header (req_Header r) = true)
    (Hnoproxy : httpProxy p = "")
    (Hfresh : fresh_writer w)
    (Hnew : http_NewRequest env (Method r) (req_URL r) = None)
    (Hrt : roundTrip env None (outbound inOrder r) = inl resp)
    (Hwire' : wire_header (resp_Header resp) = true) :
  req_Header (outbound inOrder r) = without_proxy_headers (req_Header r)
  /\ snd (handleHTTP p env inOrder outOrder r w)
     = [EvLog LevelDebug (">> 收到 HTTP 请求: " +:+ Method r +:+ " " +:+ req_URL r);
        EvRoundTrip None (outbound inOrder r)]
  /\ w_status (fst (handleHTTP p env inOrder outOrder r w)) = Some (StatusCode resp)
  /\ w_header (fst (handleHTTP p env inOrder outOrder r w)) = resp_Header resp
  /\ joined (w_body (fst (handleHTTP p env inOrder outOrder r w)))
     = body_bytes (resp_Body resp).
Proof.
  destruct Hfresh as (Hst & Hbody & Hhdr).
  split.
  { unfold outbound. simpl. rewrite copy_header_id by assumption. reflexivity. }
  unfold handleHTTP. rewrite Hnew, Hnoproxy. simpl negb. cbv iota.
  rewrite client_Do_no_redirect. fold (outbound inOrder r). rewrite Hrt.
  simpl snd. split; [reflexivity|]. simpl fst.
  rewrite Hhdr, copy_header_id by assumption.
  set (w2 := WriteHeader (StatusCode resp) (w_setHeader (resp_Header resp) w)).
  assert (H2 : w_status w2 = Some (StatusCode resp) /\ w_body w2 = []
               /\ w_header w2 = resp_Header resp).
  { subst w2. simpl. rewrite Hst, Hbody. auto. }
  destruct H2 as (S2 & B2 & D2).
  destruct (stream_body_spec (resp_Body resp) w2) as (J & Hd & Hs).
  rewrite B2 in J. simpl in J.
  assert (Hs' : w_status (stream_body (resp_Body resp) w2) = Some (StatusCode resp)).
  { rewrite Hs; [exact S2 | rewrite S2; discriminate]. }
  destruct (w_flusher w).
  - rewrite Hs', Hd, D2, J. auto.
  - destruct (io_Copy_stream_body (resp_Body resp) w2 w2 eq_refl eq_refl eq_refl)
      as (E1 & E2 & E3).
    rewrite E1, E2, E3, Hs', Hd, D2, J. auto.
Qed.

Lemma plain_http_forwarded_witness :
  range_order map_to_list
  /\ wire_header (req_Header sample_request) = true
  /\ httpProxy (NewProxyServer 8080 "" "") = ""
  /\ fresh_writer blank_writer
  /\ http_NewRequest redirecting_env (Method sample_request) (req_URL sample_request) = None
  /\ (exists resp, roundTrip redirecting_env None (outbound map_to_list sample_request)
                   = inl resp
                   /\ wire_header (resp_Header resp) = true
                   /\ w_status (fst (handleHTTP (NewProxyServer 8080 "" "") redirecting_env
                                       map_to_list map_to_list sample_request blank_writer))
                      = Some (StatusCode resp)).
Proof.
  assert (H1 : range_order map_to_list) by (intros h; reflexivity).
  assert (H2 : wire_header (req_Header sample_request) = true) by (vm_compute; reflexivity).
  assert (H4 : fresh_writer blank_writer) by (repeat split; reflexivity).
  split; [exact H1|]. split; [exact H2|]. split; [reflexivity|].
  split; [exact H4|]. split; [reflexivity|].
  exists (mkResponse 302 {["Location" := ["/next"]]}
            [mkRead "moved" None; mkRead "" (Some "EOF")]).
  assert (H7 : wire_header {["Location" := ["/next"]]} = true) by (vm_compute; reflexivity).
  split; [reflexivity|]. split; [exact H7|].
  exact (proj1 (proj2 (proj2
    (plain_http_forwarded (NewProxyServer 8080 "" "") redirecting_env
       map_to_list map_to_list sample_request blank_writer _
       H1 H1 H2 eq_refl H4 eq_refl eq_refl H7)))).
Defined.

(** ** The relay of a pair (proxy.go, ssh_tunnel.go) *)

Lemma relay_run_app (r : relay) (cs1 cs2 : list choice) :
  relay_run r (cs1 ++ cs2) = relay_run (relay_run r cs1) cs2.
Proof. unfold relay_run. apply foldl_app. Qed.

Lemma tunnel_relay_inv_step (r : relay) (c : choice) :
  tunnel_relay_inv r ->
  (match c with PeerShuts SideB => false | _ => true end) = true ->
  tunnel_relay_inv (relay_step r c).
Proof.
  intros (H2 & HeB & HfB & Hw & HcA & HcB & H1) Hc.
  destruct r as [q1 q2 n wt eA eB fA fB cA cB]. simpl in *. subst.
  unfold tunnel_relay_inv.
  destruct c as [ | | | [|] | [|] ]; try discriminate; simpl;
    destruct H1 as [[-> ->] | [[-> ->] | [-> ->]]]; simpl;
    try destruct eA; try destruct fA; simpl; tauto.
Qed.

Lemma tunnel_relay_inv_run (cs : list choice) : forall r,
  tunnel_relay_inv r -> waits_for_end cs = true ->
  tunnel_relay_inv (relay_run r cs).
Proof.
  induction cs as [|c cs IH]; intros r Hr Hcs; simpl in *; [exact Hr|].
  apply andb_true_iff in Hcs. destruct Hcs as [Hc Hcs].
  apply IH; [|exact Hcs]. apply tunnel_relay_inv_step; assumption.
Qed.

(** C1 on [handleRemoteConnection].  Whatever the remote peer and the
    scheduler do, as long as the local side waits for the end of the remote
    stream before it ends its own: the write side of the local connection
    is never shut, the local side never reads the end of the stream, the
    second copy never ends, [wg.Wait] never returns and the local
    connection is never closed. *)
Theorem tunnel_relay_never_half_closes (cs : list choice)
    (Hwaits : waits_for_end cs = true) :
  let r := relay_run (relay_start handleRemoteConnection_routines) cs in
  finB r = false /\ eofB r = false
  /\ g2 r = [Copy SideA SideB; WgDone]
  /\ waited r = false /\ closedB r = false /\ relay_over r = false.
Proof.
  assert (H0 : tunnel_relay_inv (relay_start handleRemoteConnection_routines)).
  { unfold tunnel_relay_inv. simpl. tauto. }
  pose proof (tunnel_relay_inv_run cs _ H0 Hwaits) as (H2 & HeB & HfB & Hw & HcA & HcB & _).
  simpl. unfold relay_over. rewrite Hw. tauto.
Qed.

Lemma tunnel_relay_never_half_closes_witness :
  waits_for_end (PeerShuts SideA :: rounds 6) = true
  /\ relay_over (relay_run (relay_start handleRemoteConnection_routines)
                   (PeerShuts SideA :: rounds 6)) = false.
Proof.
  assert (H : waits_for_end (PeerShuts SideA :: rounds 6) = true) by reflexivity.
  split; [exact H|].
  exact (proj2 (proj2 (proj2 (proj2 (proj2
    (tunnel_relay_never_half_closes (PeerShuts SideA :: rounds 6) H)))))).
Defined.

(** The same schedule on the relay of [handleConnect], which shuts the
    write side after each copy: the relay is over. *)
Example connect_relay_same_schedule :
  relay_over (relay_run (relay_start handleConnect_routines)
                (PeerShuts SideA :: rounds 6)) = true.
Proof. reflexivity. Qed.

Lemma connect_relay_inv_step (r : relay) (c : choice) :
  connect_relay_inv r -> connect_relay_inv (relay_step r c).
Proof.
  intros (H1 & H2 & Hwg & Hwt).
  destruct r as [q1 q2 n wt eA eB fA fB cA cB]. simpl in *.
  unfold connect_relay_inv, connect_routine_ok in *. simpl in *.
  destruct H1 as [-> | [-> | [[-> H1] | [-> H1]]]];
    destruct H2 as [-> | [-> | [[-> H2] | [-> H2]]]];
    simpl in *; subst;
    destruct c as [ | | | [|] | [|] ]; simpl;
    try destruct eA; try destruct eB; try destruct fA; try destruct fB;
    simpl; try destruct wt; simpl;
    repeat split; try tauto; try (intros; discriminate);
    try (right; tauto); try (right; right; tauto);
    try (intro Hx; destruct (Hwt Hx) as (? & ? & ? & ?); congruence);
    try (destruct (Hwt eq_refl) as (? & ? & ? & ?); congruence).
Qed.

Lemma connect_relay_inv_run (cs : list choice) : forall r,
  connect_relay_inv r -> connect_relay_inv (relay_run r cs).
Proof.
  induction cs as [|c cs IH]; intros r Hr; simpl; [exact Hr|].
  apply IH, connect_relay_inv_step, Hr.
Qed.

Lemma connect_relay_finishes (r : relay) :
  connect_relay_inv r -> eofA r = true ->
  relay_over (relay_run r (rounds 6)) = true.
Proof.
  intros (H1 & H2 & Hwg & Hwt) HeA.
  destruct r as [q1 q2 n wt eA eB fA fB cA cB].
  unfold connect_routine_ok in H1, H2.
  cbn [g1 g2 wg waited eofA eofB finA finB closedA closedB] in H1, H2, Hwg, Hwt, HeA.
  subst eA.
  assert (Hw : wt = true -> q1 = [] /\ q2 = [] /\ cA = true /\ cB = true) by exact Hwt.
  clear Hwt.
  destruct H1 as [-> | [-> | [[-> H1] | [-> H1]]]];
    destruct H2 as [-> | [-> | [[-> H2] | [-> H2]]]];
    cbn [running Nat.add] in Hwg; subst n; try subst fA; try subst fB;
    destruct wt;
    try (destruct (Hw eq_refl) as (Ha & Hb & Hc & Hd); try discriminate Ha;
         try discriminate Hb; subst cA cB);
    clear Hw;
    try destruct eB; try destruct cA; try destruct cB;
    try destruct fA; try destruct fB;
    vm_compute; reflexivity.
Qed.

(** The relay of [handleConnect] does what C1 says: in every state a
    schedule leads to, a goroutine past its [CloseWrite] has shut the write
    side of its destination, and the handler has returned only if both
    goroutines are through; and once the client shuts its sending side, six
    rounds in which everybody gets a turn end the relay with both
    connections closed. *)
Lemma connect_relay_half_closes (cs : list choice) :
  connect_relay_inv (relay_run (relay_start handleConnect_routines) cs)
  /\ relay_over (relay_run (relay_start handleConnect_routines)
                   (cs ++ PeerShuts SideA :: rounds 6)) = true.
Proof.
  assert (H0 : connect_relay_inv (relay_start handleConnect_routines)).
  { unfold connect_relay_inv, connect_routine_ok. simpl.
    repeat split; try tauto; intros; discriminate. }
  split; [apply connect_relay_inv_run, H0|].
  rewrite relay_run_app.
  change (PeerShuts SideA :: rounds 6) with ([PeerShuts SideA] ++ rounds 6).
  rewrite relay_run_app.
  apply connect_relay_finishes.
  - apply connect_relay_inv_run, connect_relay_inv_run, H0.
  - reflexivity.
Qed.

(** [wg.Wait] joins: in both handlers the relay returns only after both
    goroutines, hence both copies, are through. *)
Lemma relay_joins (routines : list call * list call) (cs : list choice) :
  let r := relay_run (relay_start routines) cs in
  waited r = true -> wg r = 0%nat.
Proof.
  simpl. remember (relay_start routines) as r0.
  assert (H0 : waited r0 = true -> wg r0 = 0%nat) by (subst; discriminate).
  clear Heqr0. revert r0 H0.
  induction cs as [|c cs IH]; intros r0 H0; simpl; [exact H0|].
  apply IH. intros Hw.
  destruct r0 as [q1 q2 n wt eA eB fA fB cA cB]. simpl in *.
  destruct c as [ | | | [|] | [|] ]; simpl in *.
  - destruct q1 as [|k q1]; simpl in *; [auto|].
    destruct k as [d s'|s'|]; simpl in *.
    + destruct s'; simpl in *; [destruct eA | destruct eB]; simpl in *; auto.
    + destruct s'; simpl in *; auto.
    + rewrite (H0 Hw). reflexivity.
  - destruct q2 as [|k q2]; simpl in *; [auto|].
    destruct k as [d s'|s'|]; simpl in *.
    + destruct s'; simpl in *; [destruct eA | destruct eB]; simpl in *; auto.
    + destruct s'; simpl in *; auto.
    + rewrite (H0 Hw). reflexivity.
  - destruct (Nat.eqb n 0) eqn:E; simpl in *; [apply Nat.eqb_eq; exact E | auto].
  - auto.
  - auto.
  - destruct fA; simpl in *; auto.
  - destruct fB; simpl in *; auto.
Qed.

(** ** Authentication methods (ssh_tunnel.go) *)

Lemma buildAuthMethods_last (h : hostenv) (t : SSHTunnel) :
  exists methods, buildAuthMethods h t = methods ++ [KeyboardInteractive].
Proof. unfold buildAuthMethods. eexists. reflexivity. Qed.

Lemma buildAuthMethods_nonempty (h : hostenv) (t : SSHTunnel) :
  buildAuthMethods h t <> [].
Proof.
  destruct (buildAuthMethods_last h t) as (ms & ->).
  destruct ms; discriminate.
Qed.

Lemma no_credential_methods (h : hostenv) (t : SSHTunnel) :
  no_credential_resolves h t = true ->
  buildAuthMethods h t = [KeyboardInteractive].
Proof.
  unfold no_credential_resolves, buildAuthMethods. intros H.
  apply andb_true_iff in H. destruct H as [H Hpw].
  apply andb_true_iff in H. destruct H as [H Hdef].
  apply andb_true_iff in H. destruct H as [Hagent Hkey].
  apply negb_true_iff in Hagent. rewrite Hagent, Hpw. simpl.
  apply Nat.eqb_eq in Hdef. destruct (default_key_methods h t); [|discriminate].
  destruct (loadPrivateKeyFromPath h t (SSHKeyPath (t_config t))).
  - rewrite Hkey. reflexivity.
  - destruct (negb _); reflexivity.
Qed.

(** ** The steps of the tunnel (ssh_tunnel.go) *)

Ltac machine_cases m :=
  let t := fresh "t" in
  let cfg := fresh "cfg" in let cl := fresh "cl" in let li := fresh "li" in
  let sc := fresh "sc" in let rc := fresh "rc" in let cb := fresh "cb" in
  let pp := fresh "pp" in let c := fresh "c" in let cd := fresh "cd" in
  let ka := fresh "ka" in let att := fresh "att" in let ns := fresh "ns" in
  destruct m as [t c cd ka att ns]; destruct t as [cfg cl li sc rc cb pp];
  unfold told_to_end in *; cbn in *.

Ltac crush_step :=
  unfold step, Stop, Start_loop, connect, connect_with, accept_loop, dial_ok,
    connect_returns, run_defers, after_connect, select_done,
    set_pc, set_tun, set_ctx_done, set_keepalives, next_attempt, next_sel,
    set_client, set_listener, set_t_config in *;
  cbn in *.

Ltac explode := repeat (case_match; simplify_eq; cbn in * ).

(** Once the tunnel was told to end it stays so. *)
Lemma told_to_end_step (h : hostenv) (m : machine) (i : input) :
  told_to_end m = true -> told_to_end (fst (step h m i)) = true.
Proof.
  intros H. machine_cases m. crush_step. explode.
  all: try reflexivity; try assumption; try discriminate.
  all: rewrite ?orb_true_r; reflexivity.
Qed.

Lemma no_connect_after_end_step (h : hostenv) (m : machine) (i : input) :
  told_to_end m = true ->
  forallb (fun o => negb (is_connect o)) (snd (step h m i)) = true.
Proof.
  intros H. machine_cases m. crush_step. explode.
  all: try reflexivity; try discriminate.
Qed.

Lemma no_connect_after_end (h : hostenv) (ins : list input) : forall m,
  told_to_end m = true ->
  forallb (fun o => negb (is_connect o)) (snd (run h m ins)) = true.
Proof.
  induction ins as [|i ins IH]; intros m H; simpl; [reflexivity|].
  pose proof (no_connect_after_end_step h m i H) as H1.
  pose proof (told_to_end_step h m i H) as H2.
  destruct (step h m i) as [m1 o1]. simpl in *.
  specialize (IH m1 H2). destruct (run h m1 ins) as [m2 o2]. simpl in *.
  rewrite forallb_app, H1, IH. reflexivity.
Qed.

(** Told to end, [Start] gets closer to its return with every outcome
    of the call it is blocked in. *)
Lemma returns_after_end_step (h : hostenv) (m : machine) (i : input) :
  told_to_end m = true -> awaited (pc m) i = true ->
  (calls_before_return (pc (fst (step h m i))) < calls_before_return (pc m))%nat.
Proof.
  intros H Ha. machine_cases m. crush_step. explode.
  all: try discriminate; try lia.
Qed.

(** A failed keepalive ends the keepalive goroutine and nothing else. *)
Lemma keepalive_failure_step (h : hostenv) (m : machine) (e : string) :
  pc (fst (step h m (Tick (Some e)))) = pc m
  /\ tun (fst (step h m (Tick (Some e)))) = tun m
  /\ forallb (fun o => match o with OKeepalive | OKeepaliveExit => true | _ => false end)
       (snd (step h m (Tick (Some e)))) = true.
Proof.
  machine_cases m. crush_step. explode.
  all: repeat split; reflexivity.
Qed.

Lemma terminal_error_step (h : hostenv) (m : machine) (i : input) (e : string) :
  terminal_error m i = Some e ->
  ctx_done m = false -> stopChan_closed (tun m) = false ->
  reconnect (tun m) = true -> OnStatusChange (tun m) = true ->
  pc (fst (step h m i)) = Backoff
  /\ told_to_end (fst (step h m i)) = false
  /\ exists closes, snd (step h m i) = closes ++ [OStatus false (Some e); OSleep 5]
                    /\ forallb is_close closes = true.
Proof.
  intros He Hc Hs Hr Hcb. unfold terminal_error in He.
  machine_cases m. subst. crush_step. explode.
  all: split; [reflexivity|]; split; [reflexivity|].
  all: first [ exists []; split; reflexivity
             | exists [OCloseClient]; split; reflexivity
             | exists [OCloseListener]; split; reflexivity
             | exists [OCloseListener; OCloseClient]; split; reflexivity ].
Qed.

Lemma backoff_timer_step (h : hostenv) (m : machine) :
  pc m = Backoff -> told_to_end m = false ->
  pc (fst (step h m TimerFired)) = Dialing false
  /\ exists methods,
       snd (step h m TimerFired)
       = [OConnect (attempt m);
          ODial (ssh_addr (t_config (tun m))) (SSHUser (t_config (tun m)))
            (methods ++ [KeyboardInteractive])].
Proof.
  intros Hp He. machine_cases m. subst.
  apply orb_false_iff in He. destruct He as [-> ->].
  unfold step. cbn. unfold Start_loop, select_done. cbn.
  unfold connect. cbn.
  match goal with |- context [buildAuthMethods h ?t] =>
    destruct (buildAuthMethods_last h t) as (ms & ->) end.
  split; [|exists ms]; unfold connect_with; destruct ms; reflexivity.
Qed.

Lemma backoff_preempted (h : hostenv) (m : machine) :
  pc m = Backoff -> told_to_end m = false ->
  pc (fst (step h m Cancel)) = Returned ctx_Err
  /\ pc (fst (step h m CallStop)) = Returned None.
Proof.
  intros Hp He. machine_cases m. subst.
  apply orb_false_iff in He. destruct He as [-> ->].
  split; reflexivity.
Qed.

Lemma Stop_unblocks_Accept (h : hostenv) (m : machine) :
  pc m = Accepting -> stopChan_closed (tun m) = false ->
  pc (fst (step h m CallStop)) = Returned None.
Proof.
  intros Hp Hs. machine_cases m. subst. crush_step. explode.
  all: reflexivity.
Qed.

Lemma awaited_never_panics (h : hostenv) (m : machine) (i : input) :
  pc m <> Panicked -> awaited (pc m) i = true -> pc (fst (step h m i)) <> Panicked.
Proof.
  intros Hp Ha. machine_cases m.
  destruct c; destruct i as [| | |[e|]|[e|]|[rc'|e]| |[e|]]; try discriminate Ha.
  all: crush_step; explode; discriminate.
Qed.

Lemma returns_within_more (h : hostenv) (k : nat) : forall k' m,
  (k <= k')%nat -> returns_within h k m -> returns_within h k' m.
Proof.
  induction k as [|k IH]; intros k' m Hle H.
  - destruct H as [H|[]]. destruct k'; left; exact H.
  - destruct H as [H|H]; [destruct k'; left; exact H|].
    destruct k' as [|k']; [lia|]. right. intros i Hi.
    apply (IH k'); [lia | apply H, Hi].
Qed.

Lemma returns_within_bound (h : hostenv) (k : nat) : forall m,
  told_to_end m = true -> pc m <> Panicked ->
  (calls_before_return (pc m) <= k)%nat -> returns_within h k m.
Proof.
  induction k as [|k IH]; intros m He Hp Hk.
  - left. destruct (pc m) as [| [|] | | | | e |]; simpl in Hk; try lia.
    + exists e. reflexivity.
    + destruct (Hp eq_refl).
  - destruct (pc m) as [| [|] | | | | e |] eqn:E; try (left; exists e; reflexivity);
      try (destruct (Hp eq_refl)).
    all: right; intros i Hi.
    all: pose proof (returns_after_end_step h m i He Hi) as Hlt.
    all: apply IH;
      [ apply told_to_end_step, He
      | apply awaited_never_panics; [rewrite E; discriminate | exact Hi]
      | rewrite E in Hlt; simpl in Hlt, Hk; lia ].
Qed.

(** C7 (amended).  A connect attempt that ends with an error (a failed
    dial, a failed request for the remote listener, a failed accept), while
    the context is not cancelled and [Stop] was not called: the status
    callback is called with [false] and that error, the five-second timer is
    armed and [Start] waits; when the timer fires a new attempt starts with
    a dial.  A failed keepalive ends the keepalive goroutine only.  Once the
    context is cancelled or [Stop] was called, no attempt is started any
    more; a cancellation or a [Stop] during the wait, and a [Stop] during
    [Accept], make [Start] return at once.  Otherwise neither interrupts
    the call [Start] is blocked in: a dial goes on, and when it succeeds
    the remote listener is still requested; every outcome of a call
    [Start] is blocked in brings it closer to its return, and it has
    returned after the outcomes of at most three such calls (a dial, its
    retry with a prompted password, the request for the remote listener;
    after one outcome from the request for the listener or from
    [Accept]). *)
Theorem reconnect_after_terminal_error (h : hostenv) (m : machine) (i : input)
    (e : string)
    (Herr : terminal_error m i = Some e)
    (Hctx : ctx_done m = false) (Hstop : stopChan_closed (tun m) = false)
    (Hrec : reconnect (tun m) = true) (Hcb : OnStatusChange (tun m) = true) :
  (let m1 := fst (step h m i) in
   pc m1 = Backoff
   /\ (exists closes, snd (step h m i) = closes ++ [OStatus false (Some e); OSleep 5]
                      /\ forallb is_close closes = true)
   /\ pc (fst (step h m1 TimerFired)) = Dialing false
   /\ (exists methods,
         snd (step h m1 TimerFired)
         = [OConnect (attempt m1);
            ODial (ssh_addr (t_config (tun m1))) (SSHUser (t_config (tun m1)))
              (methods ++ [KeyboardInteractive])])
   /\ pc (fst (step h m1 Cancel)) = Returned ctx_Err
   /\ pc (fst (step h m1 CallStop)) = Returned None)
  /\ (forall m' e',
        pc (fst (step h m' (Tick (Some e')))) = pc m'
        /\ forallb (fun o => match o with OKeepalive | OKeepaliveExit => true | _ => false end)
             (snd (step h m' (Tick (Some e')))) = true)
  /\ (forall m' ins, told_to_end m' = true ->
        forallb (fun o => negb (is_connect o)) (snd (run h m' ins)) = true)
  /\ (forall m' i', told_to_end m' = true -> awaited (pc m') i' = true ->
        (calls_before_return (pc (fst (step h m' i')))
         < calls_before_return (pc m'))%nat)
  /\ (forall m', pc m' = Accepting -> stopChan_closed (tun m') = false ->
        pc (fst (step h m' CallStop)) = Returned None)
  /\ (forall m', told_to_end m' = true -> pc m' <> Panicked ->
        returns_within h (calls_before_return (pc m')) m'
        /\ (calls_before_return (pc m') <= 3)%nat
        /\ (pc m' = Listening \/ pc m' = Accepting -> returns_within h 1 m'))
  /\ (forall m' retry, pc m' = Dialing retry ->
        pc (fst (step h m' Cancel)) = Dialing retry
        /\ (stopChan_closed (tun m') = false ->
            pc (fst (step h m' CallStop)) = Dialing retry)
        /\ pc (fst (step h m' (DialResult None))) = Listening)
  /\ (forall m', pc m' = Accepting -> pc (fst (step h m' Cancel)) = Accepting).
Proof.
  destruct (terminal_error_step h m i e Herr Hctx Hstop Hrec Hcb) as (Hp & He & Ho).
  destruct (backoff_timer_step h _ Hp He) as (Hd & Hm).
  split; [|split; [|split; [|split; [|split; [|split; [|split]]]]]].
  - cbv zeta. split; [exact Hp|]. split; [exact Ho|]. split; [exact Hd|].
    split; [exact Hm|].
    apply backoff_preempted; assumption.
  - intros m' e'. destruct (keepalive_failure_step h m' e') as (H1 & _ & H3).
    split; assumption.
  - intros m' ins. apply no_connect_after_end.
  - intros m' i'. apply returns_after_end_step.
  - intros m'. apply Stop_unblocks_Accept.
  - intros m' He' Hp'. split; [|split].
    + apply returns_within_bound; [exact He' | exact Hp' | lia].
    + destruct (pc m') as [| [|] | | | | |]; simpl; lia.
    + intros Hpc. apply returns_within_bound; [exact He' | exact Hp' |].
      destruct Hpc as [-> | ->]; simpl; lia.
  - clear. intros m' retry Hpc. machine_cases m'. subst.
    destruct retry; (split; [reflexivity|]; split; [intros ->|]; reflexivity).
  - clear. intros m' Hpc. machine_cases m'. subst. reflexivity.
Qed.

Lemma reconnect_after_terminal_error_witness :
  terminal_error dialing_machine (DialResult (Some "connection refused"))
  = Some "failed to dial SSH: connection refused"
  /\ ctx_done dialing_machine = false
  /\ stopChan_closed (tun dialing_machine) = false
  /\ reconnect (tun dialing_machine) = true
  /\ OnStatusChange (tun dialing_machine) = true
  /\ pc (fst (step bare_host dialing_machine (DialResult (Some "connection refused"))))
     = Backoff.
Proof.
  repeat (split; [reflexivity|]).
  exact (proj1 (proj1 (reconnect_after_terminal_error bare_host dialing_machine
                         (DialResult (Some "connection refused"))
                         "failed to dial SSH: connection refused"
                         eq_refl eq_refl eq_refl eq_refl eq_refl))).
Defined.

(** C7 as stated fails on the keepalive.  The tunnel is blocked in
    [Accept]; the keepalive request fails; five seconds later the tunnel is
    still blocked in the same [Accept]: no status callback, no timer, no
    new attempt, and the next remote connection is served by the same
    session. *)
Lemma keepalive_failure_counterexample :
  pc accepting_machine = Accepting
  /\ keepalives accepting_machine = 1%nat
  /\ run bare_host accepting_machine
       [Tick (Some "EOF"); TimerFired; AcceptResult (inl 9%nat)]
     = (set_keepalives 0 accepting_machine,
        [OKeepalive; OKeepaliveExit; OSpawnRelay 9%nat]).
Proof. vm_compute. repeat split; reflexivity. Qed.

Lemma connect_dials (h : hostenv) (m : machine) :
  connect h m
  = (set_pc (Dialing false) (next_attempt m),
     [OConnect (attempt m);
      ODial (ssh_addr (t_config (tun m))) (SSHUser (t_config (tun m)))
        (buildAuthMethods h (tun m))]).
Proof.
  unfold connect, connect_with.
  destruct (buildAuthMethods_last h (tun m)) as (ms & ->).
  destruct ms; reflexivity.
Qed.

Ltac crush_step_dial :=
  unfold step, Stop, Start_loop, accept_loop, dial_ok,
    connect_returns, run_defers, after_connect, select_done in *;
  rewrite ?connect_dials in *;
  unfold set_pc, set_tun, set_ctx_done, set_keepalives, next_attempt, next_sel,
    set_client, set_listener, set_t_config in *;
  cbn in *.

Ltac explode_dial :=
  repeat (first [ progress (rewrite ?connect_dials in * )
                | case_match; simplify_eq ];
          unfold set_pc, next_attempt in *; cbn in * ).

Ltac in_status H :=
  repeat match type of H with
         | _ \/ _ => destruct H as [H|H]
         | False => destruct H
         | OStatus _ _ = OStatus _ _ => injection H as <- <-
         | _ = OStatus _ _ => discriminate H
         end.

(** The transitions that call nothing. *)
Lemma silent_steps (h : hostenv) (m : machine) :
  List.filter is_status (snd (step h m CallStart)) = []
  /\ List.filter is_status (snd (step h m TimerFired)) = []
  /\ List.filter is_status (snd (step h m (DialResult None))) = []
  /\ List.filter is_status (snd (step h m CallStop)) = []
  /\ List.filter is_status (snd (step h m Cancel)) = []
  /\ (forall e, List.filter is_status (snd (step h m (Tick e))) = [])
  /\ (forall c, ctx_done m = false ->
        List.filter is_status (snd (step h m (AcceptResult (inl c)))) = []).
Proof.
  machine_cases m.
  repeat split; try intros e; try intros Hc; subst.
  all: destruct c; crush_step_dial; explode_dial; reflexivity.
Qed.

(** C8 (amended).  The status callback is called at two places only: with
    [true] and no error when the request for the remote listener has just
    succeeded, and with [false] and the error when [connect] has just
    returned that error, a terminal error or the error of the cancelled
    context found by the accept loop, after which [Start] waits or
    returns.  The start of an attempt, a handshake that succeeds, an
    accepted connection, a keepalive, a cancellation and [Stop] call
    nothing: after a handshake the step only requests the remote listener.
    With the callback installed both calls are made: at the listener, and
    at every terminal error. *)
Theorem status_callback_sites (h : hostenv) (m : machine) (i : input)
    (connected : bool) (err : option string)
    (Hcall : In (OStatus connected err) (snd (step h m i))) :
  ((connected = true /\ err = None /\ pc m = Listening /\ i = ListenResult None)
   \/ (connected = false
       /\ exists e, err = Some e /\ connect_error m i e
                    /\ (pc (fst (step h m i)) = Backoff
                        \/ exists r, pc (fst (step h m i)) = Returned r)))
  /\ OnStatusChange (tun m) = true
  /\ (forall m' retry, pc m' = Dialing retry ->
        snd (step h m' (DialResult None)) = [OListen (remote_addr (t_config (tun m')))]
        /\ pc (fst (step h m' (DialResult None))) = Listening)
  /\ (forall m',
        List.filter is_status (snd (step h m' CallStart)) = []
        /\ List.filter is_status (snd (step h m' TimerFired)) = []
        /\ List.filter is_status (snd (step h m' (DialResult None))) = []
        /\ List.filter is_status (snd (step h m' CallStop)) = []
        /\ List.filter is_status (snd (step h m' Cancel)) = []
        /\ (forall e, List.filter is_status (snd (step h m' (Tick e))) = [])
        /\ (forall c, ctx_done m' = false ->
              List.filter is_status (snd (step h m' (AcceptResult (inl c)))) = []))
  /\ (forall m', OnStatusChange (tun m') = true ->
        (pc m' = Listening ->
         In (OStatus true None) (snd (step h m' (ListenResult None))))
        /\ (forall i' e, terminal_error m' i' = Some e ->
              In (OStatus false (Some e)) (snd (step h m' i')))).
Proof.
  split; [|split; [|split; [|split]]].
  - unfold connect_error, terminal_error. machine_cases m.
    destruct c; destruct i as [| | |[e|]|[e|]|[rc'|e]| |[e|]].
    all: crush_step_dial; explode_dial; in_status Hcall.
    all: try (left; repeat split; reflexivity).
    all: right; split; [reflexivity|]; eexists; split; [reflexivity|].
    all: split;
      [ first [ left; reflexivity
              | right; split; [first [reflexivity | assumption]|];
                split; [reflexivity|];
                first [ left; split; reflexivity
                      | right; split; [reflexivity | eexists; reflexivity] ] ]
      | first [ left; reflexivity | right; eexists; reflexivity ] ].
  - machine_cases m.
    destruct c; destruct i as [| | |[e|]|[e|]|[rc'|e]| |[e|]].
    all: crush_step_dial; explode_dial; in_status Hcall;
      first [reflexivity | assumption | congruence].
  - clear. intros m' retry Hp. machine_cases m'. subst.
    destruct retry; split; reflexivity.
  - clear. intros m'. apply silent_steps.
  - clear. intros m' Hcb. split.
    + intros Hp. machine_cases m'. subst. crush_step_dial. explode_dial; simpl; auto.
    + intros i' e He. unfold terminal_error in He. machine_cases m'. subst.
      destruct c; destruct i' as [| | |[e'|]|[e'|]|[rc'|e']| |[e'|]];
        try discriminate He.
      all: crush_step_dial; explode_dial; simpl; auto 8.
Qed.

Lemma status_callback_sites_witness :
  let m := fst (run bare_host (machine_of sample_tunnel) [CallStart; DialResult None]) in
  In (OStatus true None) (snd (step bare_host m (ListenResult None)))
  /\ pc m = Listening.
Proof.
  intros m.
  assert (H : In (OStatus true None) (snd (step bare_host m (ListenResult None))))
    by (left; reflexivity).
  split; [exact H|].
  destruct (proj1 (status_callback_sites bare_host m (ListenResult None) true None H))
    as [(_ & _ & Hp & _) | (Hf & _)].
  - exact Hp.
  - discriminate Hf.
Defined.

(** C8 as stated fails: not every transition calls the callback.  From
    [Start] to [Stop] through a handshake, the remote listener and an
    accepted connection, the callback is called once. *)
Lemma status_callback_counterexample :
  let r := run bare_host (machine_of sample_tunnel)
             [CallStart; DialResult None; ListenResult None;
              AcceptResult (inl 9%nat); CallStop] in
  pc (fst r) = Returned None
  /\ filter is_status (snd r) = [OStatus true None]
  /\ pc dialing_machine = Dialing false
  /\ pc (fst (step bare_host dialing_machine (DialResult None))) = Listening
  /\ filter is_status (snd (step bare_host dialing_machine (DialResult None))) = [].
Proof. vm_compute. repeat split; reflexivity. Qed.

(** ** [Stop] (ssh_tunnel.go) *)

(** C2 (amended).  A call of [Stop] on a tunnel whose stop channel is
    still open, in whatever state: no panic; reconnection is disabled and
    the stop channel closed; the remote listener and the SSH client are
    closed if present; the keepalive goroutines end; a pending [Accept] or
    a pending wait of [Start] is left and [Start] returns [nil]; no connect
    attempt is started afterwards. *)
Theorem first_Stop_is_safe (h : hostenv) (m : machine)
    (Hlive : pc m <> Panicked)
    (Hopen : stopChan_closed (tun m) = false) :
  let m1 := fst (step h m CallStop) in
  let o1 := snd (step h m CallStop) in
  pc m1 <> Panicked
  /\ forallb (fun o => negb (is_panic o)) o1 = true
  /\ reconnect (tun m1) = false
  /\ stopChan_closed (tun m1) = true
  /\ In OCloseStopChan o1
  /\ (listener (tun m) = None \/ In OCloseListener o1)
  /\ (client (tun m) = None \/ In OCloseClient o1)
  /\ keepalives m1 = 0%nat
  /\ (pc m = Accepting \/ pc m = Backoff -> pc m1 = Returned None)
  /\ (forall ins, forallb (fun o => negb (is_connect o)) (snd (run h m1 ins)) = true).
Proof.
  cbv zeta.
  assert (Hend : told_to_end (fst (step h m CallStop)) = true).
  { machine_cases m. subst. crush_step. explode.
    all: rewrite ?orb_true_r; reflexivity. }
  assert (Hrest :
    pc (fst (step h m CallStop)) <> Panicked
    /\ forallb (fun o => negb (is_panic o)) (snd (step h m CallStop)) = true
    /\ reconnect (tun (fst (step h m CallStop))) = false
    /\ stopChan_closed (tun (fst (step h m CallStop))) = true
    /\ In OCloseStopChan (snd (step h m CallStop))
    /\ (listener (tun m) = None \/ In OCloseListener (snd (step h m CallStop)))
    /\ (client (tun m) = None \/ In OCloseClient (snd (step h m CallStop)))
    /\ keepalives (fst (step h m CallStop)) = 0%nat
    /\ (pc m = Accepting \/ pc m = Backoff ->
        pc (fst (step h m CallStop)) = Returned None)).
  { clear Hend. machine_cases m. subst. crush_step. explode.
    all: try contradiction.
    all: repeat match goal with |- _ /\ _ => split end.
    all: try reflexivity; try discriminate; auto.
    all: try (intros [?|?]; discriminate).
    all: try (right; cbn; auto; fail). }
  destruct Hrest as (R1 & R2 & R3 & R4 & R5 & R6 & R7 & R8 & R9).
  repeat match goal with |- _ /\ _ => split end; try assumption.
  intros ins. apply no_connect_after_end. exact Hend.
Qed.

Lemma first_Stop_is_safe_witness :
  pc accepting_machine <> Panicked
  /\ stopChan_closed (tun accepting_machine) = false
  /\ pc (fst (step bare_host accepting_machine CallStop)) <> Panicked.
Proof.
  assert (H1 : pc accepting_machine <> Panicked) by discriminate.
  assert (H2 : stopChan_closed (tun accepting_machine) = false) by reflexivity.
  split; [exact H1|]. split; [exact H2|].
  exact (proj1 (first_Stop_is_safe bare_host accepting_machine H1 H2)).
Defined.

(** C2 as stated fails on the second call: [close(t.stopChan)] on the
    channel the first call closed panics, with or without a session. *)
Lemma second_Stop_panics :
  pc (fst (run bare_host (machine_of sample_tunnel) [CallStop; CallStop])) = Panicked
  /\ snd (run bare_host (machine_of sample_tunnel) [CallStop; CallStop])
     = [OCloseStopChan; OPanic "close of closed channel"]
  /\ pc (fst (run bare_host accepting_machine [CallStop; CallStop])) = Panicked.
Proof. vm_compute. repeat split; reflexivity. Qed.

(** ** The empty list of methods (ssh_tunnel.go) *)

Lemma append_head_neq (c d : ascii) (a b x : string) :
  c <> d -> String c a +:+ x <> String d b.
Proof. intros H E. rewrite append_cons in E. injection E as E _. contradiction. Qed.

(** No step reports or returns the error of the empty list. *)
Lemma no_auth_error_step (h : hostenv) (m : machine) (i : input) :
  forallb (fun o => match o with
                    | OStatus _ (Some e) | OReturn (Some e) =>
                        negb (String.eqb e no_auth_error)
                    | _ => true
                    end) (snd (step h m i)) = true.
Proof.
  assert (Hd : forall e, String.eqb ("failed to dial SSH: " +:+ e) no_auth_error = false).
  { intros e. apply String.eqb_neq. apply append_head_neq. discriminate. }
  assert (Hl : forall a e, String.eqb ("failed to listen on remote " +:+ a +:+ ": " +:+ e)
                             no_auth_error = false).
  { intros a e. apply String.eqb_neq. apply append_head_neq. discriminate. }
  assert (Ha : forall e, String.eqb ("accept error: " +:+ e) no_auth_error = false).
  { intros e. apply String.eqb_neq. apply append_head_neq. discriminate. }
  assert (Hk : forall ms mm, forallb (fun o => match o with
                    | OStatus _ (Some e) | OReturn (Some e) =>
                        negb (String.eqb e no_auth_error)
                    | _ => true
                    end) (snd (connect_with h (ms ++ [KeyboardInteractive]) mm)) = true).
  { intros ms mm. unfold connect_with. destruct ms; reflexivity. }
  assert (Hc : forall mm, forallb (fun o => match o with
                    | OStatus _ (Some e) | OReturn (Some e) =>
                        negb (String.eqb e no_auth_error)
                    | _ => true
                    end) (snd (connect h mm)) = true).
  { intros mm. unfold connect.
    destruct (buildAuthMethods_last h (tun mm)) as (ms & ->). apply Hk. }
  clear Hk.
  machine_cases m.
  unfold step, Stop, Start_loop, accept_loop, dial_ok,
    connect_returns, run_defers, after_connect, select_done,
    set_pc, set_tun, set_ctx_done, set_keepalives, next_attempt, next_sel,
    set_client, set_listener, set_t_config, ctx_Err. cbn.
  repeat (case_match; simplify_eq; cbn in *; rewrite ?Hd, ?Hl, ?Ha; cbn).
  all: try reflexivity.
  all: try apply Hc.
Qed.

(** C3 (amended).  [connect] on an empty list of methods fails at once
    with [no authentication methods available], without a dial; but the
    list [buildAuthMethods] builds is never empty, the keyboard-interactive
    method is always its last element, so [connect] always goes on to dial
    and no step of the tunnel ever reports or returns that error.  With no
    credential at all the list is the keyboard-interactive method alone. *)
Theorem empty_method_list_unreachable (h : hostenv) (m : machine) (i : input) :
  (forallb (fun o => negb (is_dial o)) (snd (connect_with h [] m)) = true
   /\ (OnStatusChange (tun m) = false
       \/ In (OStatus false (Some no_auth_error)) (snd (connect_with h [] m)))
   /\ (reconnect (tun m) = true
       \/ pc (fst (connect_with h [] m)) = Returned (Some no_auth_error)))
  /\ (exists methods, buildAuthMethods h (tun m) = methods ++ [KeyboardInteractive])
  /\ pc (fst (connect h m)) = Dialing false
  /\ (exists methods,
        snd (connect h m)
        = [OConnect (attempt m);
           ODial (ssh_addr (t_config (tun m))) (SSHUser (t_config (tun m)))
             (methods ++ [KeyboardInteractive])])
  /\ forallb (fun o => match o with
                       | OStatus _ (Some e) | OReturn (Some e) =>
                           negb (String.eqb e no_auth_error)
                       | _ => true
                       end) (snd (step h m i)) = true
  /\ (no_credential_resolves h (tun m) = false
      \/ buildAuthMethods h (tun m) = [KeyboardInteractive]).
Proof.
  split; [|split; [|split; [|split; [|split]]]].
  - clear i. machine_cases m. crush_step. explode.
    all: repeat match goal with |- _ /\ _ => split end.
    all: try reflexivity.
    all: try (left; reflexivity).
    all: try (right; reflexivity).
    all: try (right; repeat (first [left; reflexivity | right]); fail).
    all: match goal with
         | H : negb ?b = _ |- _ => destruct b; try discriminate H
         end; auto.
  - apply buildAuthMethods_last.
  - unfold connect. destruct (buildAuthMethods_last h (tun m)) as (ms & ->).
    destruct ms; reflexivity.
  - unfold connect. destruct (buildAuthMethods_last h (tun m)) as (ms & ->).
    exists ms. destruct ms; reflexivity.
  - apply no_auth_error_step.
  - destruct (no_credential_resolves h (tun m)) eqn:E; [right | left; reflexivity].
    apply no_credential_methods. exact E.
Qed.

(** C3 as stated fails.  On a host with no agent, no home directory and no
    key file, with no password configured, no credential resolves; yet the
    connect attempt does not fail: it dials with the keyboard-interactive
    method. *)
Lemma no_credential_counterexample :
  no_credential_resolves bare_host sample_tunnel = true
  /\ step bare_host (machine_of sample_tunnel) CallStart
     = (set_pc (Dialing false) (next_attempt (machine_of sample_tunnel)),
        [OConnect 0; ODial "b.example:22" "dev" [KeyboardInteractive]]).
Proof. vm_compute. split; reflexivity. Qed.

(** ** The record store (config.go, app.go) *)

Lemma applyDefaults_ready (r : RemoteRecord) :
  record_ready r = true -> applyDefaultsToRecord r = r.
Proof.
  unfold record_ready, applyDefaultsToRecord. intros H.
  repeat (apply andb_true_iff in H; destruct H as [H ?]).
  destruct r as [id nm host sp user kp pp rp hp hsp ll]. simpl in *.
  repeat match goal with
         | H : negb (?x =? 0) = true |- _ =>
             apply negb_true_iff in H; rewrite H; clear H
         end.
  reflexivity.
Qed.

Lemma normalize_records_ready ids rs : forall n,
  forallb record_ready rs = true -> normalize_records ids n rs = (rs, n).
Proof.
  induction rs as [|r rs IH]; intros n H; simpl in *; [reflexivity|].
  apply andb_true_iff in H. destruct H as [Hr Hrs].
  rewrite (applyDefaults_ready r Hr).
  assert (Hid : String.eqb (rec_ID r) "" = false).
  { unfold record_ready in Hr.
    repeat (apply andb_true_iff in Hr; destruct Hr as [Hr ?]).
    apply negb_true_iff in Hr. exact Hr. }
  rewrite Hid, (IH n Hrs). reflexivity.
Qed.

Lemma set_Records_same (c : Config) : set_Records (Records c) c = c.
Proof. destruct c; reflexivity. Qed.

(** [normalize] changes nothing in a normalized configuration and draws
    no identifier. *)
Lemma normalize_normalized ids n c :
  normalized c = true -> normalize ids n c = (c, n).
Proof.
  unfold normalized. intros H.
  apply andb_true_iff in H. destruct H as [H Hfound].
  apply andb_true_iff in H. destruct H as [H Hactive].
  apply andb_true_iff in H. destruct H as [Hlen Hready].
  unfold normalize.
  destruct (Records c) as [|r0 rs0] eqn:E; [discriminate|].
  rewrite E, (normalize_records_ready ids (r0 :: rs0) n Hready).
  rewrite <- E, set_Records_same.
  apply negb_true_iff in Hactive. rewrite Hactive. cbn [andb negb].
  apply negb_true_iff in Hfound. rewrite Hfound, andb_false_r. reflexivity.
Qed.

Lemma defaults_ready (r : RemoteRecord) :
  rec_ID r <> "" -> record_ready (applyDefaultsToRecord r) = true.
Proof.
  intros H. apply String.eqb_neq in H.
  unfold record_ready, applyDefaultsToRecord. simpl. rewrite H. simpl.
  destruct (rec_SSHPort r =? 0) eqn:E1, (rec_ProxyPort r =? 0) eqn:E2,
    (rec_RemotePort r =? 0) eqn:E3; rewrite ?E1, ?E2, ?E3; reflexivity.
Qed.

Lemma normalize_records_all_ready ids rs : ids_nonempty ids -> forall n,
  forallb record_ready (fst (normalize_records ids n rs)) = true.
Proof.
  intros Hids. induction rs as [|r rs IH]; intros n; simpl; [reflexivity|].
  destruct (String.eqb (rec_ID r) "") eqn:E;
    match goal with
    | |- context [normalize_records ids ?k rs] =>
        specialize (IH k); destruct (normalize_records ids k rs) as [rest n2]
    end; simpl in *; rewrite IH, andb_true_r.
  - apply (defaults_ready (set_rec_ID (ids n) r)). apply Hids.
  - apply defaults_ready. apply String.eqb_neq. exact E.
Qed.

Lemma findIndex_from_range id rs : forall i,
  findIndex_from i id rs = -1 \/ (i <= findIndex_from i id rs < i + Z.of_nat (length rs)).
Proof.
  induction rs as [|r rs IH]; intros i; simpl; [left; reflexivity|].
  destruct (String.eqb (rec_ID r) id); [right; lia|].
  destruct (IH (i + 1)) as [H|H]; [left; exact H | right; lia].
Qed.

Lemma findIndex_from_shift id rs : forall i,
  0 <= i ->
  findIndex_from i id rs
  = if findIndex_from 0 id rs =? -1 then -1 else i + findIndex_from 0 id rs.
Proof.
  induction rs as [|r rs IH]; intros i Hi; cbn [findIndex_from]; [reflexivity|].
  destruct (String.eqb (rec_ID r) id).
  { change (0 =? -1) with false. cbv iota. lia. }
  rewrite (IH (i + 1)) by lia. rewrite (IH (0 + 1)) by lia.
  destruct (findIndex_from_range id rs 0) as [H|H].
  - rewrite H. reflexivity.
  - destruct (findIndex_from 0 id rs =? -1) eqn:E.
    + apply Z.eqb_eq in E. lia.
    + destruct (0 + 1 + findIndex_from 0 id rs =? -1) eqn:E2.
      * apply Z.eqb_eq in E2. lia.
      * lia.
Qed.

(** [findRecordIndex] and [getActiveRecord] look up the same record: the
    first one that carries the identifier. *)
Lemma findIndex_from_lookup id rs :
  match find_by_ID id rs with
  | None => findIndex_from 0 id rs = -1 /\ Forall (fun r => rec_ID r <> id) rs
  | Some r =>
      0 <= findIndex_from 0 id rs < Z.of_nat (length rs)
      /\ nth_error rs (Z.to_nat (findIndex_from 0 id rs)) = Some r
      /\ rec_ID r = id
      /\ Forall (fun x => rec_ID x <> id) (firstn (Z.to_nat (findIndex_from 0 id rs)) rs)
  end.
Proof.
  induction rs as [|r rs IH]; cbn [find_by_ID findIndex_from].
  - split; [reflexivity | constructor].
  - destruct (String.eqb (rec_ID r) id) eqn:E.
    + apply String.eqb_eq in E. simpl. repeat split; try lia; try assumption.
      constructor.
    + apply String.eqb_neq in E.
      rewrite (findIndex_from_shift id rs (0 + 1)) by lia.
      destruct (find_by_ID id rs) as [x|].
      * destruct IH as (Hr & Hn & Hx & Hf).
        destruct (findIndex_from 0 id rs =? -1) eqn:E1;
          [apply Z.eqb_eq in E1; lia|].
        replace (Z.to_nat (0 + 1 + findIndex_from 0 id rs))
          with (S (Z.to_nat (findIndex_from 0 id rs))) by lia.
        cbn [nth_error firstn length].
        repeat split; try lia; try assumption.
        constructor; assumption.
      * destruct IH as (Hr & Hf). rewrite Hr. simpl.
        split; [reflexivity | constructor; assumption].
Qed.

Lemma normalize_Records_ready ids n c :
  ids_nonempty ids ->
  forallb record_ready (Records (fst (normalize ids n c))) = true.
Proof.
  intros Hids. unfold normalize.
  set (start := match Records c with [] => _ | _ :: _ => _ end).
  destruct start as [c1 n1].
  pose proof (normalize_records_all_ready ids (Records c1) Hids n1) as HP.
  destruct (normalize_records ids n1 (Records c1)) as [rs n2].
  simpl fst in HP. lazy zeta. simpl fst.
  rewrite !Records_if_active. exact HP.
Qed.

Lemma getActiveRecord_found (c : Config) (r : RemoteRecord) :
  getActiveRecord c = Some r ->
  String.eqb (ActiveID c) "" = false
  /\ (findRecordIndex c (ActiveID c) =? -1) = false
  /\ In r (Records c) /\ rec_ID r = ActiveID c.
Proof.
  unfold getActiveRecord, findRecordIndex. intros H.
  destruct (String.eqb (ActiveID c) ""); [discriminate|].
  pose proof (findIndex_from_lookup (ActiveID c) (Records c)) as L.
  rewrite H in L. destruct L as (Hr & Hn & Hid & _).
  split; [reflexivity|]. split; [apply Z.eqb_neq; lia|].
  split; [|exact Hid]. apply nth_error_In in Hn. exact Hn.
Qed.

Lemma normalized_active (c : Config) :
  normalized c = true ->
  exists r, getActiveRecord c = Some r /\ In r (Records c) /\ rec_ID r = ActiveID c.
Proof.
  unfold normalized. intros H.
  apply andb_true_iff in H. destruct H as [H Hfound].
  apply andb_true_iff in H. destruct H as [_ Hactive].
  apply negb_true_iff in Hactive, Hfound.
  unfold getActiveRecord. rewrite Hactive.
  pose proof (findIndex_from_lookup (ActiveID c) (Records c)) as L.
  unfold findRecordIndex in Hfound. apply Z.eqb_neq in Hfound.
  destruct (find_by_ID (ActiveID c) (Records c)) as [r|].
  - destruct L as (_ & Hn & Hid & _). exists r.
    split; [reflexivity|]. split; [|exact Hid].
    apply nth_error_In in Hn. exact Hn.
  - destruct L as (L & _). contradiction.
Qed.

Lemma normalize_is_normalized ids n c :
  ids_nonempty ids -> normalized (fst (normalize ids n c)) = true.
Proof.
  intros Hids.
  destruct (normalize_active ids n c Hids) as (r & Hr & Hin).
  destruct (getActiveRecord_found _ _ Hr) as (Ha & Hf & _ & _).
  unfold normalized. rewrite (normalize_Records_ready ids n c Hids), Ha, Hf.
  destruct (Records (fst (normalize ids n c))); [destruct Hin | reflexivity].
Qed.

Lemma sync_keeps (c : Config) :
  Records (syncLegacyFromActive c) = Records c
  /\ ActiveID (syncLegacyFromActive c) = ActiveID c
  /\ SSHPassword (syncLegacyFromActive c) = SSHPassword c
  /\ SSHKeyPassphrase (syncLegacyFromActive c) = SSHKeyPassphrase c.
Proof.
  unfold syncLegacyFromActive. destruct (getActiveRecord c); repeat split; reflexivity.
Qed.

Lemma sync_getActive (c : Config) :
  getActiveRecord (syncLegacyFromActive c) = getActiveRecord c.
Proof.
  unfold syncLegacyFromActive. destruct (getActiveRecord c) eqn:E; [|exact E].
  unfold getActiveRecord in *. simpl. exact E.
Qed.

Lemma sync_normalized (c : Config) :
  normalized (syncLegacyFromActive c) = normalized c.
Proof.
  destruct (sync_keeps c) as (HR & HA & _).
  unfold normalized, findRecordIndex. rewrite HR, HA. reflexivity.
Qed.

Lemma sync_settles (c : Config) :
  normalized c = true -> settled (syncLegacyFromActive c).
Proof.
  intros H. split; [rewrite sync_normalized; exact H|].
  destruct (normalized_active c H) as (r & Hr & Hin & _).
  exists r. rewrite sync_getActive. split; [exact Hr|].
  split; [rewrite (proj1 (sync_keeps c)); exact Hin|].
  unfold syncLegacyFromActive. rewrite Hr. repeat split; reflexivity.
Qed.

Lemma sync_idem (c : Config) :
  syncLegacyFromActive (syncLegacyFromActive c) = syncLegacyFromActive c.
Proof.
  unfold syncLegacyFromActive at 1. rewrite sync_getActive.
  unfold syncLegacyFromActive.
  destruct (getActiveRecord c) eqn:E; [reflexivity|].
  destruct c; reflexivity.
Qed.

(** [Save] on a configuration that is normalized and was synchronised
    leaves the receiver as it is and draws no identifier. *)
Lemma Save_receiver_settled ids n c :
  normalized c = true ->
  Save_receiver ids n (syncLegacyFromActive c) = (syncLegacyFromActive c, n).
Proof.
  intros H. unfold Save_receiver.
  rewrite normalize_normalized by (rewrite sync_normalized; exact H).
  rewrite sync_idem. reflexivity.
Qed.

Lemma Save_receiver_settles ids n c :
  ids_nonempty ids -> settled (fst (Save_receiver ids n c)).
Proof.
  intros Hids. unfold Save_receiver.
  pose proof (normalize_is_normalized ids n c Hids) as H.
  destruct (normalize ids n c) as [c1 n1]. simpl in *.
  apply sync_settles. exact H.
Qed.

Lemma sample_ids_nonempty : ids_nonempty sample_ids.
Proof. intros k. unfold sample_ids. discriminate. Defined.

(** X1.  [normalize] leaves a configuration with at least one record,
    every record with an identifier and three ports, and an active
    identifier that names a record; run again it changes nothing and draws
    no identifier. *)
Theorem normalize_settles_once (ids : idsource) (n n' : nat) (c : Config)
    (Hids : ids_nonempty ids) :
  normalized (fst (normalize ids n c)) = true
  /\ normalize ids n' (fst (normalize ids n c)) = (fst (normalize ids n c), n')
  /\ (exists r, getActiveRecord (fst (normalize ids n c)) = Some r
                /\ In r (Records (fst (normalize ids n c)))
                /\ rec_ID r = ActiveID (fst (normalize ids n c))).
Proof.
  pose proof (normalize_is_normalized ids n c Hids) as H.
  split; [exact H|]. split; [apply normalize_normalized; exact H|].
  apply normalized_active. exact H.
Qed.

Lemma normalize_settles_once_witness :
  ids_nonempty sample_ids
  /\ normalized (fst (normalize sample_ids 0 zeroConfig)) = true.
Proof.
  split; [exact sample_ids_nonempty|].
  exact (proj1 (normalize_settles_once sample_ids 0 0 zeroConfig sample_ids_nonempty)).
Defined.

(** X2.  [findRecordIndex] is -1 exactly when no record carries the
    identifier; otherwise it is the index of the first record that does,
    which is the record [getActiveRecord] returns for that identifier. *)
Theorem findRecordIndex_first_match (c : Config) (id : string) :
  (findRecordIndex c id = -1 <-> Forall (fun r => rec_ID r <> id) (Records c))
  /\ (findRecordIndex c id = -1
      \/ (0 <= findRecordIndex c id < Z.of_nat (length (Records c))
          /\ exists r, nth_error (Records c) (Z.to_nat (findRecordIndex c id)) = Some r
                       /\ rec_ID r = id
                       /\ find_by_ID id (Records c) = Some r
                       /\ Forall (fun x => rec_ID x <> id)
                            (firstn (Z.to_nat (findRecordIndex c id)) (Records c)))).
Proof.
  unfold findRecordIndex.
  pose proof (findIndex_from_lookup id (Records c)) as L.
  destruct (find_by_ID id (Records c)) as [r|] eqn:E.
  - destruct L as (Hr & Hn & Hid & Hf). split.
    + split; [lia|]. intros Hall.
      pose proof (nth_error_In _ _ Hn) as Hin.
      rewrite List.Forall_forall in Hall.
      destruct (Hall r Hin Hid).
    + right. split; [exact Hr|]. exists r. auto.
  - destruct L as (Hm & Hall). split; [tauto | left; exact Hm].
Qed.

(** X3.  What [Save] leaves and writes: the receiver is normalized and its
    fields repeat its active record; saved again it does not change; the
    document holds the records (at least one) under [records] and the
    active identifier under [active_id], and never a [record_name]. *)
Theorem Save_writes_the_store (ids : idsource) (n n' : nat) (c : Config)
    (Hids : ids_nonempty ids) :
  let c' := fst (Save_receiver ids n c) in
  settled c'
  /\ Save_receiver ids n' c' = (c', n')
  /\ Records c' <> []
  /\ json_field "records" (Save_document ids n c)
     = Some (JArr (map json_of_record (Records c')))
  /\ json_field "active_id" (Save_document ids n c) = Some (JStr (ActiveID c'))
  /\ json_field "record_name" (Save_document ids n c) = None.
Proof.
  cbv zeta.
  pose proof (Save_receiver_settles ids n c Hids) as Hs.
  assert (Hstable : Save_receiver ids n' (fst (Save_receiver ids n c))
                    = (fst (Save_receiver ids n c), n')).
  { assert (E : fst (Save_receiver ids n c)
                 = syncLegacyFromActive (fst (normalize ids n c))).
    { unfold Save_receiver. destruct (normalize ids n c). reflexivity. }
    rewrite E. apply Save_receiver_settled.
    apply normalize_is_normalized. exact Hids. }
  split; [exact Hs|]. split; [exact Hstable|].
  unfold Save_document. set (c' := fst (Save_receiver ids n c)) in *. clearbody c'.
  destruct Hs as (Hn & r & Hr & Hin & _).
  destruct (getActiveRecord_found _ _ Hr) as (Ha & _ & _ & _).
  destruct c' as [rs aid rn h p u w kp kpp pp rp hp hsp ll]. simpl in *.
  destruct rs as [|r0 rs0]; [destruct Hin|].
  split; [discriminate|].
  unfold json_of_config, json_field, configToSave, field_str_omitempty, field_str,
    field_int. cbn [Records ActiveID RecordName SSHHost SSHPort SSHUser SSHPassword
    SSHKeyPath SSHKeyPassphrase ProxyPort RemotePort HTTPProxy HTTPSProxy LogLevel
    set_RecordName set_SSHKeyPassphrase set_SSHPassword].
  rewrite Ha. cbn [app assoc_json].
  split; [reflexivity|]. split; [reflexivity|].
  change (String.eqb "records" "record_name") with false.
  change (String.eqb "active_id" "record_name") with false.
  change (String.eqb "" "") with true. cbv iota. cbn [app assoc_json].
  change (String.eqb "ssh_host" "record_name") with false.
  change (String.eqb "ssh_port" "record_name") with false.
  change (String.eqb "ssh_user" "record_name") with false. cbv iota.
  destruct (String.eqb kp ""); cbn [app assoc_json];
    change (String.eqb "ssh_key_path" "record_name") with false;
    change (String.eqb "proxy_port" "record_name") with false;
    change (String.eqb "remote_port" "record_name") with false; cbv iota;
    destruct (String.eqb hp ""), (String.eqb hsp ""); cbn [app assoc_json];
    change (String.eqb "http_proxy" "record_name") with false;
    change (String.eqb "https_proxy" "record_name") with false;
    change (String.eqb "log_level" "record_name") with false; reflexivity.
Qed.

Lemma Save_writes_the_store_witness :
  ids_nonempty sample_ids
  /\ json_field "record_name" (Save_document sample_ids 0 zeroConfig) = None.
Proof.
  split; [exact sample_ids_nonempty|].
  exact (proj2 (proj2 (proj2 (proj2 (proj2
    (Save_writes_the_store sample_ids 0 0 zeroConfig sample_ids_nonempty)))))).
Defined.

Lemma replace_at_ready (r' : RemoteRecord) (rs : list RemoteRecord) : forall k,
  record_ready r' = true -> forallb record_ready rs = true ->
  forallb record_ready (replace_at k r' rs) = true.
Proof.
  induction rs as [|r rs IH]; intros k Hr Hrs; simpl; [destruct k; reflexivity|].
  simpl in Hrs. apply andb_true_iff in Hrs. destruct Hrs as [H1 H2].
  destruct k; simpl; [rewrite Hr, H2 | rewrite H1, IH]; auto.
Qed.

Lemma replace_at_length (r' : RemoteRecord) (rs : list RemoteRecord) : forall k,
  length (replace_at k r' rs) = length rs.
Proof.
  induction rs as [|r rs IH]; intros k; simpl; [destruct k; reflexivity|].
  destruct k; simpl; [reflexivity | rewrite IH; reflexivity].
Qed.

Lemma find_by_ID_replace (id : string) (r' : RemoteRecord) (rs : list RemoteRecord) :
  findIndex_from 0 id rs <> -1 -> rec_ID r' = id ->
  find_by_ID id (replace_at (Z.to_nat (findIndex_from 0 id rs)) r' rs) = Some r'.
Proof.
  intros Hf Hid. induction rs as [|r rs IH]; cbn [findIndex_from] in *; [contradiction|].
  destruct (String.eqb (rec_ID r) id) eqn:E.
  - simpl. rewrite Hid, String.eqb_refl. reflexivity.
  - rewrite (findIndex_from_shift id rs (0 + 1)) in * by lia.
    destruct (findIndex_from_range id rs 0) as [H|H].
    + rewrite H in Hf. simpl in Hf. contradiction.
    + destruct (findIndex_from 0 id rs =? -1) eqn:E1; [apply Z.eqb_eq in E1; lia|].
      replace (Z.to_nat (0 + 1 + findIndex_from 0 id rs))
        with (S (Z.to_nat (findIndex_from 0 id rs))) by lia.
      cbn [replace_at find_by_ID]. rewrite E. apply IH. lia.
Qed.

Lemma find_by_ID_append (id : string) (r' : RemoteRecord) (rs : list RemoteRecord) :
  findIndex_from 0 id rs = -1 -> rec_ID r' = id ->
  find_by_ID id (rs ++ [r']) = Some r'.
Proof.
  intros Hf Hid. induction rs as [|r rs IH]; cbn [findIndex_from app find_by_ID] in *.
  - rewrite Hid, String.eqb_refl. reflexivity.
  - destruct (String.eqb (rec_ID r) id) eqn:E; [discriminate|].
    apply IH. rewrite (findIndex_from_shift id rs (0 + 1)) in Hf by lia.
    destruct (findIndex_from 0 id rs =? -1) eqn:E1; [apply Z.eqb_eq; exact E1|].
    destruct (findIndex_from_range id rs 0); lia.
Qed.

Lemma find_by_ID_index (id : string) (rs : list RemoteRecord) (r : RemoteRecord) :
  find_by_ID id rs = Some r -> findIndex_from 0 id rs <> -1.
Proof.
  intros H. pose proof (findIndex_from_lookup id rs) as L. rewrite H in L. lia.
Qed.

(** The store step shared by [SaveRecord] and
    [upsertRecordFromConfigLocked]: the record replaces the first record
    with its identifier or is appended, and becomes the active one. *)
Lemma store_record (c1 : Config) (r' : RemoteRecord) :
  normalized c1 = true -> record_ready r' = true ->
  let idx := findRecordIndex c1 (rec_ID r') in
  let c2 :=
    if 0 <=? idx then set_Records (replace_at (Z.to_nat idx) r' (Records c1)) c1
    else set_Records (Records c1 ++ [r']) c1 in
  normalized (set_ActiveID (rec_ID r') c2) = true
  /\ getActiveRecord (set_ActiveID (rec_ID r') c2) = Some r'
  /\ length (Records c2)
     = (if 0 <=? idx then length (Records c1) else S (length (Records c1))).
Proof.
  intros Hn Hr. cbv zeta.
  assert (Hid : String.eqb (rec_ID r') "" = false).
  { unfold record_ready in Hr.
    repeat (apply andb_true_iff in Hr; destruct Hr as [Hr ?]).
    apply negb_true_iff in Hr. exact Hr. }
  assert (Hrs : forallb record_ready (Records c1) = true).
  { unfold normalized in Hn.
    repeat (apply andb_true_iff in Hn; destruct Hn as [Hn ?]). assumption. }
  unfold findRecordIndex.
  destruct (findIndex_from_range (rec_ID r') (Records c1) 0) as [Hm|Hm].
  - rewrite Hm. change (0 <=? -1) with false. cbv iota.
    assert (Hg : getActiveRecord (set_ActiveID (rec_ID r')
                   (set_Records (Records c1 ++ [r']) c1)) = Some r').
    { unfold getActiveRecord. simpl. rewrite Hid.
      apply find_by_ID_append; [exact Hm | reflexivity]. }
    split; [|split; [exact Hg|]].
    + destruct (getActiveRecord_found _ _ Hg) as (Ha & Hf & _ & _).
      unfold normalized. rewrite Ha, Hf. simpl Records.
      rewrite forallb_app, Hrs. simpl. rewrite Hr.
      rewrite length_app. simpl.
      destruct (length (Records c1) + 1)%nat eqn:El; [lia | reflexivity].
    + simpl. rewrite length_app. simpl. lia.
  - assert (Hle : (0 <=? findIndex_from 0 (rec_ID r') (Records c1)) = true)
      by (apply Z.leb_le; lia).
    rewrite Hle.
    assert (Hg : getActiveRecord (set_ActiveID (rec_ID r')
                   (set_Records (replace_at
                      (Z.to_nat (findIndex_from 0 (rec_ID r') (Records c1))) r'
                      (Records c1)) c1)) = Some r').
    { unfold getActiveRecord. simpl. rewrite Hid.
      apply find_by_ID_replace; [lia | reflexivity]. }
    split; [|split; [exact Hg|]].
    + destruct (getActiveRecord_found _ _ Hg) as (Ha & Hf & _ & _).
      unfold normalized. rewrite Ha, Hf. simpl Records.
      rewrite replace_at_ready by assumption.
      rewrite replace_at_length.
      destruct (Records c1); [simpl in Hm; lia | reflexivity].
    + simpl. apply replace_at_length.
Qed.

Lemma set_rec_ID_same (r : RemoteRecord) : set_rec_ID (rec_ID r) r = r.
Proof. destruct r; reflexivity. Qed.

Lemma set_rec_Name_same (r : RemoteRecord) : set_rec_Name (rec_Name r) r = r.
Proof. destruct r; reflexivity. Qed.

Lemma save_and_log_settled ids n now io c lg :
  normalized c = true ->
  fst (fst (save_and_log ids n now io (mkApp (syncLegacyFromActive c) lg)))
  = mkApp (syncLegacyFromActive c) lg
  /\ snd (fst (save_and_log ids n now io (mkApp (syncLegacyFromActive c) lg)))
     = match Save_error io with
       | Some _ => Deadlock
       | None => Returns None
       end
  /\ snd (save_and_log ids n now io (mkApp (syncLegacyFromActive c) lg)) = n.
Proof.
  intros H. unfold save_and_log. simpl config.
  rewrite (Save_receiver_settled ids n c H).
  destruct (Save_error io); simpl; repeat split; reflexivity.
Qed.

Lemma name_at_found (id : string) (rs : list RemoteRecord) :
  (if 0 <=? findIndex_from 0 id rs then name_at (findIndex_from 0 id rs) rs else "")
  = match find_by_ID id rs with
    | Some old => rec_Name old
    | None => ""
    end.
Proof.
  pose proof (findIndex_from_lookup id rs) as H.
  destruct (find_by_ID id rs) as [r|].
  - destruct H as (Hr & Hn & _).
    assert (E : (0 <=? findIndex_from 0 id rs) = true) by (apply Z.leb_le; lia).
    rewrite E. unfold name_at. rewrite Hn. reflexivity.
  - destruct H as (-> & _). reflexivity.
Qed.

(** X4.  [SaveRecord] stores the record it is given.  The stored record
    is the given one with the port defaults applied; when it has no
    identifier it gets the next one drawn after [normalize]; when it has no
    name it gets the name of the record that carries its identifier, if
    there is one.  It replaces the first record with its identifier, or is
    appended when there is none, and becomes the active record; the
    configuration is normalized and repeats it; the log is left alone.
    When the file is written the result is the records and the active
    identifier.  When [Save] fails the call never returns: it logs the
    error while it holds the write lock of the configuration, and [log]
    asks for the read lock.  A nil record is refused and nothing
    changes. *)
Theorem SaveRecord_stores (ids : idsource) (n : nat) (now : string) (io : save_io)
    (a : App) (record : RemoteRecord) (Hids : ids_nonempty ids) :
  let out := SaveRecord ids n now io a (Some record) in
  let a' := fst (fst out) in
  let c1 := fst (normalize ids n (config a)) in
  let id := if String.eqb (rec_ID record) ""
            then ids (snd (normalize ids n (config a))) else rec_ID record in
  let nm := if String.eqb (rec_Name record) ""
            then match find_by_ID id (Records c1) with
                 | Some old => rec_Name old
                 | None => ""
                 end
            else rec_Name record in
  let stored := applyDefaultsToRecord (set_rec_Name nm (set_rec_ID id record)) in
  settled (config a')
  /\ getActiveRecord (config a') = Some stored
  /\ id <> ""
  /\ Records (config a')
     = (if 0 <=? findRecordIndex c1 id
        then replace_at (Z.to_nat (findRecordIndex c1 id)) stored (Records c1)
        else Records c1 ++ [stored])
  /\ logs a' = logs a
  /\ snd (fst out)
     = match Save_error io with
       | Some _ => Deadlock
       | None =>
           Returns (inl (mkRecordsResponse (Records (config a')) (ActiveID (config a'))))
       end
  /\ SaveRecord ids n now io a None = (a, Returns (inr "record is nil"), n).
Proof.
  cbv zeta. unfold SaveRecord.
  pose proof (normalize_is_normalized ids n (config a) Hids) as Hn.
  destruct (normalize ids n (config a)) as [c1 n1]. simpl fst in Hn |- *. simpl snd.
  set (id := if String.eqb (rec_ID record) "" then ids n1 else rec_ID record).
  assert (Hid : id <> "").
  { subst id. destruct (String.eqb_spec (rec_ID record) "") as [E|E];
      [apply Hids | exact E]. }
  set (pick := if String.eqb (rec_ID record) "" then _ else _).
  assert (Hpick : fst pick = set_rec_ID id record).
  { subst pick id. destruct (String.eqb (rec_ID record) ""); simpl;
      [reflexivity | rewrite set_rec_ID_same; reflexivity]. }
  destruct pick as [newRecord n2]. simpl fst in Hpick. subst newRecord.
  set (nm := if String.eqb (rec_Name record) "" then _ else rec_Name record).
  set (newRecord1 := if String.eqb (rec_Name (set_rec_ID id record)) "" then _ else _).
  assert (Hname : newRecord1 = set_rec_Name nm (set_rec_ID id record)).
  { subst newRecord1 nm. simpl rec_Name. simpl rec_ID.
    destruct (String.eqb (rec_Name record) "") eqn:E.
    - apply String.eqb_eq in E. unfold findRecordIndex.
      rewrite <- (name_at_found id (Records c1)).
      destruct (0 <=? findIndex_from 0 id (Records c1)); [reflexivity|].
      transitivity (set_rec_Name (rec_Name (set_rec_ID id record)) (set_rec_ID id record));
        [rewrite set_rec_Name_same; reflexivity | simpl rec_Name; rewrite E; reflexivity].
    - change (rec_Name record) with (rec_Name (set_rec_ID id record)).
      rewrite set_rec_Name_same. reflexivity. }
  rewrite Hname. clear Hname newRecord1.
  set (r' := applyDefaultsToRecord (set_rec_Name nm (set_rec_ID id record))).
  assert (Hrid : rec_ID r' = id) by reflexivity.
  change (rec_ID (set_rec_Name nm (set_rec_ID id record))) with (rec_ID r').
  assert (Hr' : record_ready r' = true) by (apply defaults_ready; exact Hid).
  destruct (store_record c1 r' Hn Hr') as (Hn3 & Hg & Hlen).
  set (c2 := if 0 <=? findRecordIndex c1 (rec_ID r') then _ else _) in *.
  assert (HR2 : Records c2
                = (if 0 <=? findRecordIndex c1 id
                   then replace_at (Z.to_nat (findRecordIndex c1 id)) r' (Records c1)
                   else Records c1 ++ [r'])).
  { subst c2. rewrite Hrid. destruct (0 <=? findRecordIndex c1 id); reflexivity. }
  clearbody c2.
  destruct (save_and_log_settled ids n2 now io (set_ActiveID (rec_ID r') c2) (logs a) Hn3)
    as (Hc & He & _).
  destruct (save_and_log ids n2 now io _) as [[a1 saved] n3]. simpl in Hc, He.
  subst a1 saved.
  assert (Hgoal : settled (syncLegacyFromActive (set_ActiveID (rec_ID r') c2))
    /\ getActiveRecord (syncLegacyFromActive (set_ActiveID (rec_ID r') c2)) = Some r'
    /\ Records (syncLegacyFromActive (set_ActiveID (rec_ID r') c2))
       = (if 0 <=? findRecordIndex c1 id
          then replace_at (Z.to_nat (findRecordIndex c1 id)) r' (Records c1)
          else Records c1 ++ [r'])).
  { split; [apply sync_settles; exact Hn3|]. split.
    - rewrite sync_getActive. exact Hg.
    - rewrite (proj1 (sync_keeps _)). exact HR2. }
  destruct Hgoal as (G1 & G2 & G3).
  destruct (Save_error io); cbn [fst snd config logs];
    (split; [exact G1|]); (split; [exact G2|]); (split; [exact Hid|]);
    (split; [exact G3|]); (split; [reflexivity|]); split; reflexivity.
Qed.

Lemma SaveRecord_stores_witness :
  ids_nonempty sample_ids
  /\ settled (config (fst (fst (SaveRecord sample_ids 0 "12:00:00" SaveOk
                                  (mkApp zeroConfig []) (Some sample_record))))).
Proof.
  split; [exact sample_ids_nonempty|].
  exact (proj1 (SaveRecord_stores sample_ids 0 "12:00:00" SaveOk (mkApp zeroConfig [])
                  sample_record sample_ids_nonempty)).
Defined.

Lemma firstn_ready (rs : list RemoteRecord) : forall k,
  forallb record_ready rs = true -> forallb record_ready (firstn k rs) = true.
Proof.
  induction rs as [|r rs IH]; intros k H; destruct k; simpl in *; try reflexivity.
  apply andb_true_iff in H. destruct H as [H1 H2]. rewrite H1, IH; auto.
Qed.

Lemma skipn_ready (rs : list RemoteRecord) : forall k,
  forallb record_ready rs = true -> forallb record_ready (skipn k rs) = true.
Proof.
  induction rs as [|r rs IH]; intros k H; destruct k; simpl in *; try reflexivity.
  - exact H.
  - apply andb_true_iff in H. destruct H as [H1 H2]. apply IH. exact H2.
Qed.

Lemma remove_at_ready (rs : list RemoteRecord) (k : nat) :
  forallb record_ready rs = true -> forallb record_ready (remove_at k rs) = true.
Proof.
  intros H. unfold remove_at.
  rewrite forallb_app, firstn_ready, skipn_ready by exact H. reflexivity.
Qed.

Lemma normalized_parts (c : Config) :
  normalized c = true ->
  Records c <> [] /\ forallb record_ready (Records c) = true
  /\ ActiveID c <> "" /\ findRecordIndex c (ActiveID c) <> -1.
Proof.
  unfold normalized. intros H.
  repeat (apply andb_true_iff in H; destruct H as [H ?]).
  repeat match goal with
         | H : negb _ = true |- _ => apply negb_true_iff in H
         end.
  repeat split; try assumption.
  - intros E. rewrite E in H. discriminate.
  - apply String.eqb_neq. assumption.
  - apply Z.eqb_neq. assumption.
Qed.

Lemma normalized_intro (c : Config) :
  Records c <> [] -> forallb record_ready (Records c) = true ->
  ActiveID c <> "" -> findRecordIndex c (ActiveID c) <> -1 ->
  normalized c = true.
Proof.
  intros H1 H2 H3 H4. unfold normalized.
  apply String.eqb_neq in H3. apply Z.eqb_neq in H4. rewrite H2, H3, H4.
  destruct (Records c); [contradiction | reflexivity].
Qed.

Lemma first_ID_ready (rs : list RemoteRecord) :
  rs <> [] -> forallb record_ready rs = true -> first_ID rs <> "".
Proof.
  destruct rs as [|r rs]; [contradiction|]. intros _ H. simpl in *.
  apply andb_true_iff in H. destruct H as [H _]. unfold record_ready in H.
  repeat (apply andb_true_iff in H; destruct H as [H ?]).
  apply negb_true_iff in H. apply String.eqb_neq. exact H.
Qed.

(** The repair of the active identifier at the end of [DeleteRecord]. *)
Lemma repair_active (c : Config) :
  Records c <> [] -> forallb record_ready (Records c) = true -> ActiveID c <> "" ->
  let c' := if (findRecordIndex c (ActiveID c) =? -1)
               && negb (Nat.eqb (length (Records c)) 0)
            then set_ActiveID (first_ID (Records c)) c else c in
  normalized c' = true /\ Records c' = Records c.
Proof.
  intros H1 H2 H3. cbv zeta.
  destruct (findRecordIndex c (ActiveID c) =? -1) eqn:E; simpl.
  - destruct (Records c) as [|r rs] eqn:ER; [contradiction|]. simpl.
    split; [|exact ER].
    apply normalized_intro; simpl; rewrite ?ER; try assumption.
    + apply (first_ID_ready (r :: rs)); assumption.
    + unfold findRecordIndex. simpl. rewrite ER. simpl.
      rewrite String.eqb_refl. lia.
  - split; [|reflexivity]. apply normalized_intro; try assumption.
    apply Z.eqb_neq. exact E.
Qed.

(** X5.  [DeleteRecord] never empties the store: afterwards the
    configuration is normalized and repeats its active record.  An
    identifier that names no record leaves the records as [normalize] has
    them; one that names a record removes the first such record, and when
    that was the last record a default record takes its place.  When the
    file is written the result is the records and the active identifier.
    When [Save] fails the call never returns: it logs the error while it
    holds the write lock of the configuration, and [log] asks for the read
    lock.  The empty identifier is refused and nothing changes. *)
Theorem DeleteRecord_keeps_a_record (ids : idsource) (n : nat) (now : string)
    (io : save_io) (a : App) (id : string)
    (Hids : ids_nonempty ids) (Hid : id <> "") :
  let out := DeleteRecord ids n now io a id in
  let a' := fst (fst out) in
  let c1 := fst (normalize ids n (config a)) in
  settled (config a')
  /\ Records (config a') <> []
  /\ (findRecordIndex c1 id = -1 -> Records (config a') = Records c1)
  /\ (findRecordIndex c1 id <> -1 -> (1 < length (Records c1))%nat ->
      Records (config a') = remove_at (Z.to_nat (findRecordIndex c1 id)) (Records c1))
  /\ (findRecordIndex c1 id <> -1 -> length (Records c1) = 1%nat ->
      map ports_of (Records (config a')) = [(22, 8080, 8080)])
  /\ logs a' = logs a
  /\ snd (fst out)
     = match Save_error io with
       | Some _ => Deadlock
       | None =>
           Returns (inl (mkRecordsResponse (Records (config a')) (ActiveID (config a'))))
       end
  /\ DeleteRecord ids n now io a "" = (a, Returns (inr "record id is empty"), n).
Proof.
  cbv zeta. unfold DeleteRecord.
  apply String.eqb_neq in Hid. rewrite Hid.
  pose proof (normalize_is_normalized ids n (config a) Hids) as Hn.
  destruct (normalize ids n (config a)) as [c1 n1]. simpl fst in Hn |- *.
  destruct (normalized_parts c1 Hn) as (P1 & P2 & P3 & P4).
  set (idx := findRecordIndex c1 id).
  set (c2 := if 0 <=? idx then _ else c1).
  assert (H2 : forallb record_ready (Records c2) = true /\ ActiveID c2 = ActiveID c1).
  { subst c2. destruct (0 <=? idx); simpl; [|auto].
    split; [apply remove_at_ready; exact P2 | reflexivity]. }
  destruct H2 as (R2 & A2).
  set (c3n := if Nat.eqb (length (Records c2)) 0 then _ else (c2, n1)).
  assert (H3 : Records (fst c3n) <> []
               /\ forallb record_ready (Records (fst c3n)) = true
               /\ ActiveID (fst c3n) <> ""
               /\ Records (fst c3n)
                  = (if Nat.eqb (length (Records c2)) 0
                     then [mkRemoteRecord (ids n1) "" "" 22 "" "" 8080 8080 "" "" ""]
                     else Records c2)).
  { subst c3n. destruct (Nat.eqb (length (Records c2)) 0) eqn:E.
    - unfold DefaultConfig. simpl.
      rewrite (proj1 (sync_keeps _)). rewrite (proj1 (proj2 (sync_keeps _))). simpl.
      pose proof (Hids n1) as Hk. apply String.eqb_neq in Hk.
      unfold record_ready. simpl. rewrite Hk.
      repeat split; try discriminate. apply String.eqb_neq. exact Hk.
    - simpl. repeat split; try assumption.
      + intros E2. rewrite E2 in E. discriminate.
      + rewrite A2. exact P3. }
  destruct c3n as [c3 n2]. simpl fst in H3.
  destruct H3 as (Q1 & Q2 & Q3 & Q4).
  destruct (repair_active c3 Q1 Q2 Q3) as (Hn4 & HR4).
  set (c4 := if (findRecordIndex c3 (ActiveID c3) =? -1) && _ then _ else c3) in *.
  clearbody c4.
  destruct (save_and_log_settled ids n2 now io c4 (logs a) Hn4) as (Hc & He & _).
  destruct (save_and_log ids n2 now io _) as [[a1 saved] n3]. simpl in Hc, He.
  subst saved.
  assert (Hlogs : logs a1 = logs a) by (rewrite Hc; reflexivity).
  apply (f_equal config) in Hc. simpl config in Hc.
  assert (HRec : Records (config a1)
                 = (if Nat.eqb (length (Records c2)) 0
                    then [mkRemoteRecord (ids n1) "" "" 22 "" "" 8080 8080 "" "" ""]
                    else Records c2)).
  { rewrite Hc, (proj1 (sync_keeps _)), HR4. exact Q4. }
  assert (Hgoal : settled (config a1) /\ Records (config a1) <> []
    /\ (idx = -1 -> Records (config a1) = Records c1)
    /\ (idx <> -1 -> (1 < length (Records c1))%nat ->
        Records (config a1) = remove_at (Z.to_nat idx) (Records c1))
    /\ (idx <> -1 -> length (Records c1) = 1%nat ->
        map ports_of (Records (config a1)) = [(22, 8080, 8080)])).
  { split; [rewrite Hc; apply sync_settles; exact Hn4|].
    split; [rewrite Hc, (proj1 (sync_keeps _)), HR4; exact Q1|].
    destruct (findIndex_from_range id (Records c1) 0) as [Hm|Hm];
      fold (findRecordIndex c1 id) in Hm; fold idx in Hm.
    - assert (E : (0 <=? idx) = false) by (apply Z.leb_gt; lia).
      subst c2. rewrite E in HRec.
      assert (El : Nat.eqb (length (Records c1)) 0 = false).
      { destruct (Records c1); [contradiction | reflexivity]. }
      rewrite El in HRec.
      split; [intros _; exact HRec|]. split; intros; lia.
    - assert (E : (0 <=? idx) = true) by (apply Z.leb_le; lia).
      subst c2. rewrite E in HRec. simpl Records in HRec.
      assert (Hl : length (remove_at (Z.to_nat idx) (Records c1))
                   = (length (Records c1) - 1)%nat).
      { unfold remove_at. rewrite length_app, length_firstn, length_skipn. lia. }
      rewrite Hl in HRec.
      split; [intros; lia|]. split.
      + intros _ Hlen. destruct (Nat.eqb (length (Records c1) - 1) 0) eqn:E2.
        * apply Nat.eqb_eq in E2. lia.
        * exact HRec.
      + intros _ Hlen. rewrite Hlen in HRec. simpl in HRec. rewrite HRec.
        reflexivity. }
  destruct Hgoal as (G1 & G2 & G3 & G4 & G5).
  change (String.eqb "" "") with true. cbv iota.
  destruct (Save_error io); cbn [fst snd];
    repeat (split; [assumption|]); split; reflexivity.
Qed.

Lemma DeleteRecord_keeps_a_record_witness :
  ids_nonempty sample_ids /\ "id0" <> ""
  /\ Records (config (fst (fst (DeleteRecord sample_ids 0 "12:00:00" SaveOk
                                  (mkApp zeroConfig []) "id0")))) <> [].
Proof.
  assert (H : "id0" <> "") by discriminate.
  split; [exact sample_ids_nonempty|]. split; [exact H|].
  exact (proj1 (proj2 (DeleteRecord_keeps_a_record sample_ids 0 "12:00:00" SaveOk
                         (mkApp zeroConfig []) "id0" sample_ids_nonempty H))).
Defined.

(** X6.  [SetActiveRecord] on an identifier that names no record answers
    [record not found], saves nothing and leaves the configuration as
    [normalize] has it; on one that names a record it makes that record the
    active one and leaves the records as they are; when the file is
    written it returns the configuration with that identifier, the fields
    of that record and no secret.  When [Save] fails the call never
    returns: it logs the error while it holds the write lock of the
    configuration, and [log] asks for the read lock.  The empty identifier
    is refused and nothing changes. *)
Theorem SetActiveRecord_switches (ids : idsource) (n : nat) (now : string)
    (io : save_io) (a : App) (id : string)
    (Hids : ids_nonempty ids) (Hid : id <> "") :
  let out := SetActiveRecord ids n now io a id in
  let a' := fst (fst out) in
  let c1 := fst (normalize ids n (config a)) in
  (findRecordIndex c1 id = -1 ->
   out = (mkApp c1 (logs a), Returns (inr "record not found"),
          snd (normalize ids n (config a))))
  /\ (findRecordIndex c1 id <> -1 ->
      settled (config a')
      /\ ActiveID (config a') = id
      /\ Records (config a') = Records c1
      /\ (exists r, find_by_ID id (Records c1) = Some r /\ mirrors (config a') r)
      /\ logs a' = logs a
      /\ snd (fst out)
         = match Save_error io with
           | Some _ => Deadlock
           | None => Returns (inl (GetConfig a'))
           end
      /\ SSHPassword (GetConfig a') = "" /\ SSHKeyPassphrase (GetConfig a') = ""
      /\ ActiveID (GetConfig a') = id)
  /\ SetActiveRecord ids n now io a "" = (a, Returns (inr "record id is empty"), n).
Proof.
  cbv zeta. unfold SetActiveRecord.
  apply String.eqb_neq in Hid. rewrite Hid.
  pose proof (normalize_is_normalized ids n (config a) Hids) as Hn.
  destruct (normalize ids n (config a)) as [c1 n1]. simpl fst in Hn |- *. simpl snd.
  destruct (normalized_parts c1 Hn) as (P1 & P2 & P3 & P4).
  split; [|split; [|reflexivity]].
  - intros Hm. rewrite Hm. reflexivity.
  - intros Hf. apply Z.eqb_neq in Hf. rewrite Hf.
    assert (Hn2 : normalized (set_ActiveID id c1) = true).
    { apply normalized_intro; simpl; try assumption.
      - apply String.eqb_neq. exact Hid.
      - apply Z.eqb_neq. exact Hf. }
    destruct (save_and_log_settled ids n1 now io (set_ActiveID id c1) (logs a) Hn2)
      as (Hc & He & _).
    destruct (save_and_log ids n1 now io _) as [[a1 saved] n3]. simpl in Hc, He.
    subst saved.
    assert (Hlogs : logs a1 = logs a) by (rewrite Hc; reflexivity).
    apply (f_equal config) in Hc. simpl config in Hc.
    destruct (sync_settles _ Hn2) as (S1 & r & Sr & Sin & Sm).
    assert (Hgoal : settled (config a1) /\ ActiveID (config a1) = id
      /\ Records (config a1) = Records c1
      /\ (exists r, find_by_ID id (Records c1) = Some r /\ mirrors (config a1) r)
      /\ SSHPassword (GetConfig a1) = "" /\ SSHKeyPassphrase (GetConfig a1) = ""
      /\ ActiveID (GetConfig a1) = id).
    { rewrite Hc. split; [apply sync_settles; exact Hn2|].
      split; [rewrite (proj1 (proj2 (sync_keeps _))); reflexivity|].
      split; [rewrite (proj1 (sync_keeps _)); reflexivity|].
      split.
      { exists r. split; [|exact Sm].
        rewrite sync_getActive in Sr. unfold getActiveRecord in Sr. simpl in Sr.
        rewrite Hid in Sr. exact Sr. }
      unfold GetConfig. rewrite Hc.
      destruct (sync_keeps (set_SSHKeyPassphrase "" (set_SSHPassword ""
                  (syncLegacyFromActive (set_ActiveID id c1))))) as (_ & K2 & K3 & K4).
      rewrite K2, K3, K4. simpl.
      rewrite (proj1 (proj2 (sync_keeps _))). auto. }
    destruct Hgoal as (G1 & G2 & G3 & G4 & G5 & G6 & G7).
    destruct (Save_error io); cbn [fst snd];
      repeat match goal with |- _ /\ _ => split end;
      try assumption; reflexivity.
Qed.

Lemma SetActiveRecord_switches_witness :
  ids_nonempty sample_ids /\ "id0" <> ""
  /\ SetActiveRecord sample_ids 0 "12:00:00" SaveOk (mkApp zeroConfig []) ""
     = (mkApp zeroConfig [], Returns (inr "record id is empty"), 0%nat).
Proof.
  assert (H : "id0" <> "") by discriminate.
  split; [exact sample_ids_nonempty|]. split; [exact H|].
  exact (proj2 (proj2 (SetActiveRecord_switches sample_ids 0 "12:00:00" SaveOk
                         (mkApp zeroConfig []) "id0" sample_ids_nonempty H))).
Defined.

Lemma normalize_keeps_secrets ids n c :
  SSHPassword (fst (normalize ids n c)) = SSHPassword c
  /\ SSHKeyPassphrase (fst (normalize ids n c)) = SSHKeyPassphrase c.
Proof.
  pose proof (normalize_secrets ids n (SSHPassword c) (SSHKeyPassphrase c) c) as H.
  assert (E : set_SSHKeyPassphrase (SSHKeyPassphrase c) (set_SSHPassword (SSHPassword c) c) = c)
    by (destruct c; reflexivity).
  rewrite E in H. rewrite H. simpl. split; reflexivity.
Qed.

(** The record [upsertRecordFromConfigLocked] builds from a
    configuration, before the defaults. *)
Lemma upsert_stores ids n ac cfg :
  ids_nonempty ids ->
  let ac' := fst (upsertRecordFromConfigLocked ids n ac cfg) in
  (exists c0, ac' = syncLegacyFromActive c0 /\ normalized c0 = true)
  /\ (exists id nm,
        getActiveRecord ac'
        = Some (applyDefaultsToRecord
                  (mkRemoteRecord id nm (SSHHost cfg) (SSHPort cfg) (SSHUser cfg)
                     (SSHKeyPath cfg) (ProxyPort cfg) (RemotePort cfg)
                     (HTTPProxy cfg) (HTTPSProxy cfg) (LogLevel cfg)))
        /\ id <> ""
        /\ (ActiveID cfg <> "" -> id = ActiveID cfg)
        /\ (RecordName cfg <> "" -> nm = RecordName cfg))
  /\ SSHPassword ac' = SSHPassword ac
  /\ SSHKeyPassphrase ac' = SSHKeyPassphrase ac.
Proof.
  intros Hids. cbv zeta. unfold upsertRecordFromConfigLocked.
  pose proof (normalize_is_normalized ids n ac Hids) as Hn.
  destruct (normalize_keeps_secrets ids n ac) as (Hpw & Hpp).
  destruct (normalize ids n ac) as [c1 n1]. simpl fst in Hn, Hpw, Hpp |- *.
  set (pick := if String.eqb (ActiveID cfg) "" then _ else _).
  assert (Hpick : fst pick <> "" /\ (ActiveID cfg <> "" -> fst pick = ActiveID cfg)).
  { subst pick. destruct (String.eqb (ActiveID cfg) "") eqn:E; simpl.
    - split; [apply Hids|]. apply String.eqb_eq in E. intros H; contradiction.
    - split; [apply String.eqb_neq; exact E | reflexivity]. }
  destruct pick as [id n2]. simpl fst in Hpick. destruct Hpick as (Hid & Hidk).
  set (base := mkRemoteRecord id (RecordName cfg) (SSHHost cfg) (SSHPort cfg)
                 (SSHUser cfg) (SSHKeyPath cfg) (ProxyPort cfg) (RemotePort cfg)
                 (HTTPProxy cfg) (HTTPSProxy cfg) (LogLevel cfg)).
  set (record1 := if String.eqb (RecordName cfg) "" then _ else base).
  assert (Hname : exists nm, record1 = set_rec_Name nm base
                             /\ (RecordName cfg <> "" -> nm = RecordName cfg)).
  { subst record1.
    destruct (String.eqb (RecordName cfg) "") eqn:E.
    - apply String.eqb_eq in E.
      destruct (0 <=? _).
      + eexists. split; [reflexivity|]. intros H; contradiction.
      + exists (RecordName cfg). split; [reflexivity|]. reflexivity.
    - exists (RecordName cfg). split; reflexivity. }
  destruct Hname as (nm & -> & Hnm).
  set (r' := applyDefaultsToRecord (set_rec_Name nm base)).
  change (rec_ID (set_rec_Name nm base)) with (rec_ID r').
  assert (Hr' : record_ready r' = true) by (apply defaults_ready; exact Hid).
  destruct (store_record c1 r' Hn Hr') as (Hn3 & Hg & Hlen).
  set (c2 := if 0 <=? findRecordIndex c1 (rec_ID r') then _ else _) in *.
  assert (Hs2 : SSHPassword c2 = SSHPassword c1 /\ SSHKeyPassphrase c2 = SSHKeyPassphrase c1).
  { subst c2. destruct (0 <=? _); split; reflexivity. }
  clearbody c2. simpl fst.
  split; [eexists; split; [reflexivity | exact Hn3]|].
  split.
  { exists id, nm. rewrite sync_getActive. auto. }
  destruct (sync_keeps (set_ActiveID id c2)) as (_ & _ & K3 & K4).
  rewrite K3, K4. simpl. destruct Hs2 as (-> & ->). auto.
Qed.

(** X7.  [SaveConfig] and [Start] store the profile they are handed as the
    active record: the host, user, key path, proxies and log level of the
    caller's configuration, its ports with the defaults, under its active
    identifier or a fresh one.  The configuration of the application is
    normalized and repeats that record.  The password and the passphrase of
    the caller's configuration do not enter the configuration of the
    application, which keeps its own.  [SaveConfig] never returns: whether
    [Save] fails or not it ends with an [addLog] while it holds the write
    lock of the configuration, and [log] asks for the read lock; the log
    is left as it was.  [Start] releases that lock before it logs. *)
Theorem profile_stored_without_secrets (ids : idsource) (n : nat) (now : string)
    (a : App) (s : Session) (cfg : Config) (Hids : ids_nonempty ids) :
  let stored (a' : App) :=
    settled (config a')
    /\ (exists id nm,
          getActiveRecord (config a')
          = Some (applyDefaultsToRecord
                    (mkRemoteRecord id nm (SSHHost cfg) (SSHPort cfg) (SSHUser cfg)
                       (SSHKeyPath cfg) (ProxyPort cfg) (RemotePort cfg)
                       (HTTPProxy cfg) (HTTPSProxy cfg) (LogLevel cfg)))
          /\ id <> "" /\ (ActiveID cfg <> "" -> id = ActiveID cfg)
          /\ (RecordName cfg <> "" -> nm = RecordName cfg))
    /\ SSHPassword (config a') = SSHPassword (config a)
    /\ SSHKeyPassphrase (config a') = SSHKeyPassphrase (config a) in
  (forall io,
     stored (snd (fst (fst (SaveConfig ids n now io a cfg))))
     /\ snd (fst (SaveConfig ids n now io a cfg)) = Deadlock
     /\ logs (snd (fst (fst (SaveConfig ids n now io a cfg)))) = logs a
     /\ fst (fst (fst (SaveConfig ids n now io a cfg))) = applyPortDefaults cfg)
  /\ stored (snd (fst (fst (fst (App_Start ids n now a s cfg))))).
Proof.
  cbv zeta.
  destruct (upsert_stores ids n (config a) (applyPortDefaults cfg) Hids)
    as ((c0 & Hc0 & Hn0) & (id & nm & Hg & Hid & Hidk & Hnm) & Hpw & Hpp).
  assert (Hrec : applyDefaultsToRecord
            (mkRemoteRecord id nm (SSHHost (applyPortDefaults cfg))
               (SSHPort (applyPortDefaults cfg)) (SSHUser (applyPortDefaults cfg))
               (SSHKeyPath (applyPortDefaults cfg)) (ProxyPort (applyPortDefaults cfg))
               (RemotePort (applyPortDefaults cfg)) (HTTPProxy (applyPortDefaults cfg))
               (HTTPSProxy (applyPortDefaults cfg)) (LogLevel (applyPortDefaults cfg)))
          = applyDefaultsToRecord
              (mkRemoteRecord id nm (SSHHost cfg) (SSHPort cfg) (SSHUser cfg)
                 (SSHKeyPath cfg) (ProxyPort cfg) (RemotePort cfg)
                 (HTTPProxy cfg) (HTTPSProxy cfg) (LogLevel cfg))).
  { unfold applyDefaultsToRecord, applyPortDefaults. simpl.
    destruct (SSHPort cfg =? 0) eqn:E1, (ProxyPort cfg =? 0) eqn:E2,
      (RemotePort cfg =? 0) eqn:E3; rewrite ?E1, ?E2, ?E3; reflexivity. }
  rewrite Hrec in Hg. clear Hrec.
  assert (Hstored : forall lg,
    settled (config (mkApp (fst (upsertRecordFromConfigLocked ids n (config a)
                                   (applyPortDefaults cfg))) lg))
    /\ (exists id nm,
          getActiveRecord (fst (upsertRecordFromConfigLocked ids n (config a)
                                  (applyPortDefaults cfg)))
          = Some (applyDefaultsToRecord
                    (mkRemoteRecord id nm (SSHHost cfg) (SSHPort cfg) (SSHUser cfg)
                       (SSHKeyPath cfg) (ProxyPort cfg) (RemotePort cfg)
                       (HTTPProxy cfg) (HTTPSProxy cfg) (LogLevel cfg)))
          /\ id <> "" /\ (ActiveID cfg <> "" -> id = ActiveID cfg)
          /\ (RecordName cfg <> "" -> nm = RecordName cfg))).
  { intros lg. simpl config. split.
    - rewrite Hc0. apply sync_settles. exact Hn0.
    - exists id, nm. auto. }
  assert (Hsave : forall k, Save_receiver ids k
                    (fst (upsertRecordFromConfigLocked ids n (config a)
                            (applyPortDefaults cfg)))
                  = (fst (upsertRecordFromConfigLocked ids n (config a)
                            (applyPortDefaults cfg)), k)).
  { intros k. rewrite Hc0. apply Save_receiver_settled. exact Hn0. }
  destruct (Hstored []) as (S1 & S2). simpl config in S1.
  split.
  - intros io. unfold SaveConfig, save_and_log.
    destruct (upsertRecordFromConfigLocked ids n (config a) (applyPortDefaults cfg))
      as [ac1 n1]. simpl fst in *. simpl config.
    rewrite Hsave. destruct (Save_error io); simpl; auto 10.
  - unfold App_Start.
    destruct (upsertRecordFromConfigLocked ids n (config a) (applyPortDefaults cfg))
      as [ac1 n1]. simpl fst in *.
    rewrite Hsave. cbn [fst snd].
    assert (Hc : config (addLog now "正在启动代理服务器..." (mkApp ac1 (logs a))) = ac1).
    { unfold addLog, App_log. destruct (negb _); reflexivity. }
    rewrite Hc. auto.
Qed.

Lemma profile_stored_without_secrets_witness :
  ids_nonempty sample_ids
  /\ snd (fst (SaveConfig sample_ids 0 "12:00:00" SaveOk (mkApp zeroConfig [])
                 (set_SSHPassword "hunter2" sample_config))) = Deadlock.
Proof.
  split; [exact sample_ids_nonempty|].
  exact (proj1 (proj2 (proj1
    (profile_stored_without_secrets sample_ids 0 "12:00:00" (mkApp zeroConfig [])
       NewSession (set_SSHPassword "hunter2" sample_config) sample_ids_nonempty)
    SaveOk))).
Defined.

(** ** Logs (app.go) *)

Lemma App_log_length (now level msg : string) (a : App) :
  (length (logs a) <= 100)%nat -> (length (logs (App_log now level msg a)) <= 100)%nat.
Proof.
  intros H. unfold App_log. destruct (negb _); [exact H|]. simpl.
  rewrite length_app. simpl.
  destruct (100 <? length (logs a) + 1)%nat eqn:E.
  - rewrite length_skipn, length_app. simpl. lia.
  - apply Nat.ltb_ge in E. rewrite length_app. simpl. exact E.
Qed.

Lemma log_all_length (entries : list (string * string * string)) : forall a,
  (length (logs a) <= 100)%nat -> (length (logs (log_all entries a)) <= 100)%nat.
Proof.
  unfold log_all. induction entries as [|e es IH]; intros a H; simpl; [exact H|].
  apply IH. apply App_log_length. exact H.
Qed.

(** X8.  The log keeps the last hundred entries: whatever is logged, a log
    of at most a hundred entries stays so.  A message that passes the level
    filter becomes the last entry, and pushes out the oldest entry of a
    full log; the entry is the time stamp in brackets, a space, the prefix
    [[ERROR] ] for an error, [[DEBUG] ] for a debug message and none
    otherwise, and the text, in this order.  A message that does not pass
    changes nothing.  [ClearLogs] empties the log. *)
Theorem log_keeps_last_hundred (entries : list (string * string * string))
    (now level msg : string) (a : App)
    (Hlen : (length (logs a) <= 100)%nat) :
  (length (logs (log_all entries a)) <= 100)%nat
  /\ (shouldLog (LogLevel (config a)) level = false -> App_log now level msg a = a)
  /\ (shouldLog (LogLevel (config a)) level = true ->
      last (logs (App_log now level msg a)) = Some (log_entry now level msg)
      /\ ((length (logs a) < 100)%nat ->
          logs (App_log now level msg a) = logs a ++ [log_entry now level msg])
      /\ (length (logs a) = 100%nat ->
          logs (App_log now level msg a)
          = skipn 1 (logs a) ++ [log_entry now level msg]))
  /\ log_entry now "ERROR" msg = "[" +:+ now +:+ "] [ERROR] " +:+ msg
  /\ log_entry now "DEBUG" msg = "[" +:+ now +:+ "] [DEBUG] " +:+ msg
  /\ (level <> "ERROR" -> level <> "DEBUG" ->
      log_entry now level msg = "[" +:+ now +:+ "] " +:+ msg)
  /\ config (App_log now level msg a) = config a
  /\ GetLogs (ClearLogs a) = [].
Proof.
  split; [apply log_all_length; exact Hlen|].
  split.
  { intros H. unfold App_log. rewrite H. reflexivity. }
  split.
  { intros H. unfold App_log. rewrite H. cbn [negb].
    fold (log_entry now level msg). cbn [logs].
    rewrite length_app. simpl length.
    destruct (100 <? length (logs a) + 1)%nat eqn:E.
    - apply Nat.ltb_lt in E. assert (El : length (logs a) = 100%nat) by lia.
      rewrite El. change (100 + 1 - 100)%nat with 1%nat.
      assert (Hs : skipn 1 (logs a ++ [log_entry now level msg])
                   = skipn 1 (logs a) ++ [log_entry now level msg]).
      { destruct (logs a); [discriminate | reflexivity]. }
      rewrite Hs. split; [apply last_snoc|]. split; [lia | reflexivity].
    - apply Nat.ltb_ge in E.
      split; [apply last_snoc|]. split; [reflexivity | lia]. }
  split; [reflexivity|]. split; [reflexivity|].
  split.
  { intros H1 H2. unfold log_entry, LevelError, LevelDebug.
    apply String.eqb_neq in H1, H2. rewrite H1, H2. reflexivity. }
  split; [|reflexivity].
  unfold App_log. destruct (negb _); reflexivity.
Qed.

Lemma log_keeps_last_hundred_witness :
  (length (logs (mkApp sample_config [])) <= 100)%nat
  /\ logs (App_log "12:00:00" "ERROR" "boom" (mkApp sample_config []))
     = ["[12:00:00] [ERROR] boom"].
Proof.
  assert (H : (length (logs (mkApp sample_config [])) <= 100)%nat) by (simpl; lia).
  split; [exact H|].
  destruct (log_keeps_last_hundred [] "12:00:00" "ERROR" "boom"
              (mkApp sample_config []) H) as (_ & _ & Hl & _).
  destruct (Hl eq_refl) as (_ & Happ & _).
  rewrite Happ by (simpl; lia). reflexivity.
Defined.

(** X9.  The level filter of [log]: an [ERROR] message is kept at every
    configured level; an [INFO] message at every level but [ERROR]; a
    [DEBUG] message, and a message of any other level, at [DEBUG] only.  An
    empty or unknown configured level filters as [INFO]. *)
Theorem log_level_filter (configLevel level : string) :
  shouldLog configLevel LevelError = true
  /\ (shouldLog configLevel LevelInfo = true <-> configLevel <> LevelError)
  /\ (shouldLog configLevel LevelDebug = true <-> configLevel = LevelDebug)
  /\ (level = LevelError \/ level = LevelInfo
      \/ (shouldLog configLevel level = true <-> configLevel = LevelDebug))
  /\ (configLevel = LevelError \/ configLevel = LevelDebug
      \/ shouldLog configLevel level = shouldLog LevelInfo level).
Proof.
  unfold shouldLog, LevelError, LevelInfo, LevelDebug.
  destruct (String.eqb level "ERROR") eqn:L1;
    [apply String.eqb_eq in L1 | apply String.eqb_neq in L1];
  (destruct (String.eqb level "INFO") eqn:L2;
    [apply String.eqb_eq in L2 | apply String.eqb_neq in L2]);
  (destruct (String.eqb configLevel "") eqn:E0;
    [apply String.eqb_eq in E0; subst configLevel; cbn
    | destruct (String.eqb configLevel "ERROR") eqn:E1;
      [apply String.eqb_eq in E1; subst configLevel; cbn
      | destruct (String.eqb configLevel "INFO") eqn:E2;
        [apply String.eqb_eq in E2; subst configLevel; cbn
        | destruct (String.eqb configLevel "DEBUG") eqn:E3;
          [apply String.eqb_eq in E3; subst configLevel; cbn
          | apply String.eqb_neq in E1, E2, E3; cbn ]]]]);
  repeat match goal with
         | |- _ /\ _ => split
         | |- _ <-> _ => split
         end;
  intros; try reflexivity; try discriminate; try congruence; try contradiction;
  try (left; congruence);
  try (right; left; congruence);
  try (right; right; reflexivity);
  try (right; right; split; intros; first [discriminate | congruence | reflexivity]).
Qed.

(** ** The session (app.go) *)

Lemma stopped_app (e1 e2 : list app_event) :
  stopped_tunnels (e1 ++ e2) = stopped_tunnels e1 ++ stopped_tunnels e2.
Proof. unfold stopped_tunnels. apply flat_map_app. Qed.

Lemma spawned_app (e1 e2 : list app_event) :
  spawned_tunnels (e1 ++ e2) = spawned_tunnels e1 ++ spawned_tunnels e2.
Proof. unfold spawned_tunnels. apply flat_map_app. Qed.

Lemma live_from_app (l : list nat) (e1 e2 : list app_event) :
  live_from l (e1 ++ e2) = live_from (live_from l e1) e2.
Proof. unfold live_from. apply foldl_app. Qed.

Lemma live_tunnels_from (evs : list app_event) : live_tunnels evs = live_from [] evs.
Proof. reflexivity. Qed.

Lemma stop_calls_tunnels (s : Session) :
  stopped_tunnels (stop_calls s) = held (tunnel s)
  /\ spawned_tunnels (stop_calls s) = []
  /\ live_from (held (tunnel s)) (stop_calls s) = [].
Proof.
  unfold stop_calls, stopped_tunnels, spawned_tunnels, live_from.
  destruct (tunnelStop s), (tunnel s) as [t|], (proxy s); simpl;
    rewrite ?Nat.eqb_refl; repeat split; reflexivity.
Qed.

(** What [Start] and [Stop] do to the session and to the tunnels. *)
Lemma App_Start_tunnels ids n now a s cfg :
  let out := App_Start ids n now a s cfg in
  tunnel (snd (fst (fst out))) = Some (S (S (fresh s)))
  /\ fresh (snd (fst (fst out))) = S (S (S (fresh s)))
  /\ stopped_tunnels (snd (fst out)) = held (tunnel s)
  /\ spawned_tunnels (snd (fst out)) = [S (S (fresh s))]
  /\ live_from (held (tunnel s)) (snd (fst out)) = [S (S (fresh s))].
Proof.
  cbv zeta. unfold App_Start.
  destruct (upsertRecordFromConfigLocked ids n (config a) (applyPortDefaults cfg))
    as [ac1 n1].
  destruct (Save_receiver ids n1 ac1) as [ac2 n2]. cbn [fst snd tunnel fresh].
  destruct (stop_calls_tunnels s) as (H1 & H2 & H3).
  split; [reflexivity|]. split; [reflexivity|].
  rewrite stopped_app, spawned_app, live_from_app, H1, H2, H3.
  repeat split; try reflexivity. simpl. apply app_nil_r.
Qed.

Lemma App_Stop_tunnels now a s :
  let out := App_Stop now a s in
  tunnel (snd (fst out)) = None
  /\ fresh (snd (fst out)) = fresh s
  /\ stopped_tunnels (snd out) = held (tunnel s)
  /\ spawned_tunnels (snd out) = []
  /\ live_from (held (tunnel s)) (snd out) = []
  /\ status (snd (fst out)) = mkStatus false false false "" (StartTime (status s)).
Proof.
  cbv zeta. unfold App_Stop. cbn [fst snd tunnel fresh status updateStatus].
  destruct (stop_calls_tunnels s) as (H1 & H2 & H3).
  repeat split; assumption.
Qed.

Lemma App_calls_tunnels (calls : list app_call) : forall ids n now a s,
  session_ok s ->
  let out := App_calls ids n now a s calls in
  let s' := snd (fst out) in
  let evs := snd out in
  session_ok s' /\ (fresh s <= fresh s')%nat
  /\ NoDup (stopped_tunnels evs) /\ NoDup (spawned_tunnels evs)
  /\ (forall t, t ∈ spawned_tunnels evs -> (fresh s <= t < fresh s')%nat)
  /\ (forall t, t ∈ stopped_tunnels evs ->
        tunnel s = Some t \/ t ∈ spawned_tunnels evs)
  /\ live_from (held (tunnel s)) evs = held (tunnel s').
Proof.
  induction calls as [|c calls IH]; intros ids n now a s Hok; cbv zeta.
  - simpl. split; [exact Hok|]. split; [lia|].
    split; [apply NoDup_nil_2|]. split; [apply NoDup_nil_2|].
    split; [intros t Ht; inversion Ht|].
    split; [intros t Ht; inversion Ht | reflexivity].
  - destruct c as [cfg|].
    + cbn [App_calls].
      destruct (App_Start_tunnels ids n now a s cfg) as (T1 & T2 & T3 & T4 & T5).
      destruct (App_Start ids n now a s cfg) as [[[[cfg1 a1] s1] e1] n1].
      cbn [fst snd] in T1, T2, T3, T4, T5.
      assert (Hok1 : session_ok s1).
      { intros t Ht. rewrite T1 in Ht. injection Ht as <-. lia. }
      specialize (IH ids n1 now a1 s1 Hok1). cbv zeta in IH.
      destruct (App_calls ids n1 now a1 s1 calls) as [[a2 s2] e2].
      cbn [fst snd] in IH |- *.
      destruct IH as (I1 & I2 & I3 & I4 & I5 & I6 & I8).
      rewrite stopped_app, spawned_app, live_from_app, T3, T4, T5.
      rewrite T1 in I6, I8. simpl held in I8.
      split; [exact I1|]. split; [lia|].
      split.
      { apply NoDup_app. split; [|split; [|exact I3]].
        - destruct (tunnel s); simpl; [apply NoDup_singleton | constructor].
        - intros t Ht Ht2. destruct (tunnel s) as [t0|] eqn:E; simpl in Ht;
            [|inversion Ht].
          apply list_elem_of_singleton in Ht. subst t.
          specialize (Hok t0 E).
          destruct (I6 t0 Ht2) as [H|H].
          + injection H as H. lia.
          + specialize (I5 t0 H). lia. }
      split.
      { apply NoDup_cons. split; [|exact I4].
        intros H. specialize (I5 _ H). lia. }
      split.
      { intros t Ht. apply elem_of_cons in Ht. destruct Ht as [->|Ht].
        - lia.
        - specialize (I5 t Ht). lia. }
      split; [|exact I8].
      intros t Ht. apply elem_of_app in Ht. destruct Ht as [Ht|Ht].
      * left. destruct (tunnel s); simpl in Ht; [|inversion Ht].
        apply list_elem_of_singleton in Ht. subst. reflexivity.
      * right. destruct (I6 t Ht) as [H|H].
        -- injection H as <-. left.
        -- right. exact H.
    + cbn [App_calls].
      destruct (App_Stop_tunnels now a s) as (T1 & T2 & T3 & T4 & T5 & _).
      destruct (App_Stop now a s) as [[a1 s1] e1].
      cbn [fst snd] in T1, T2, T3, T4, T5.
      assert (Hok1 : session_ok s1).
      { intros t Ht. rewrite T1 in Ht. discriminate. }
      specialize (IH ids n now a1 s1 Hok1). cbv zeta in IH.
      destruct (App_calls ids n now a1 s1 calls) as [[a2 s2] e2].
      cbn [fst snd] in IH |- *.
      destruct IH as (I1 & I2 & I3 & I4 & I5 & I6 & I8).
      rewrite stopped_app, spawned_app, live_from_app, T3, T4, T5.
      rewrite T1 in I6, I8. simpl held in I8. rewrite T2 in *.
      split; [exact I1|]. split; [lia|].
      split.
      { apply NoDup_app. split; [|split; [|exact I3]].
        - destruct (tunnel s); simpl; [apply NoDup_singleton | constructor].
        - intros t Ht Ht2. destruct (tunnel s) as [t0|] eqn:E; simpl in Ht;
            [|inversion Ht].
          apply list_elem_of_singleton in Ht. subst t.
          specialize (Hok t0 E).
          destruct (I6 t0 Ht2) as [H|H]; [discriminate|].
          specialize (I5 t0 H). lia. }
      split; [exact I4|]. split; [exact I5|].
      split; [|exact I8].
      intros t Ht. apply elem_of_app in Ht. destruct Ht as [Ht|Ht].
      * left. destruct (tunnel s); simpl in Ht; [|inversion Ht].
        apply list_elem_of_singleton in Ht. subst. reflexivity.
      * right. destruct (I6 t Ht) as [H|H]; [discriminate | exact H].
Qed.

(** X10.  Whatever sequence of [Start] and [Stop] calls the user
    interface makes on a new application: [Stop] is called at most once on
    each tunnel, and only on a tunnel that was started; no two tunnels get
    the same handle; and after the calls the tunnels started and not
    stopped are the tunnel the session holds, if it holds one.  After
    [Stop] the session holds none.  The status [Stop] writes, all false
    with no error, does not last: the goroutine of the proxy writes the
    error with which its server returns, before or after [Stop] writes, so
    the three flags are false either way but the last error is that error
    or none. *)
Theorem each_tunnel_stopped_once (ids : idsource) (n : nat) (now : string)
    (a : App) (calls : list app_call) :
  let out := App_calls ids n now a NewSession calls in
  let evs := snd out in
  NoDup (stopped_tunnels evs)
  /\ NoDup (spawned_tunnels evs)
  /\ (forall t, t ∈ stopped_tunnels evs -> t ∈ spawned_tunnels evs)
  /\ live_tunnels evs = held (tunnel (snd (fst out)))
  /\ (forall s err,
        let stopped := fst (App_Stop now a s) in
        let late := App_proxy_output now stopped (ProxyReturned err) in
        let early := App_proxy_output now (a, s) (ProxyReturned err) in
        tunnel (snd stopped) = None
        /\ tunnel (snd late) = None
        /\ status (snd late)
           = mkStatus false false false err (StartTime (status s))
        /\ status (snd (fst (App_Stop now (fst early) (snd early))))
           = mkStatus false false false "" (StartTime (status s))).
Proof.
  cbv zeta.
  assert (H0 : session_ok NewSession) by (intros t Ht; discriminate).
  destruct (App_calls_tunnels calls ids n now a NewSession H0)
    as (_ & _ & I3 & I4 & _ & I6 & I8).
  split; [exact I3|]. split; [exact I4|].
  split.
  { intros t Ht. destruct (I6 t Ht) as [H|H]; [discriminate | exact H]. }
  split; [exact I8|].
  intros s err. repeat split; reflexivity.
Qed.

(** ** More on the proxy (proxy.go) *)

(** X11.  [contains] and [stringContains] are the substring test: the
    two special cases in front of the loop in [contains] add nothing.  The
    empty string is contained in every string, and no string contains a
    longer one. *)
Theorem contains_is_substring_test (s substr : string) :
  (contains s substr = true <-> has_substring s substr)
  /\ (stringContains s substr = true <-> has_substring s substr)
  /\ contains s substr = stringContains s substr
  /\ contains s "" = true
  /\ ((len s < len substr)%nat -> contains s substr = false).
Proof.
  split; [apply contains_spec|]. split; [apply stringContains_spec|].
  split.
  { destruct (contains s substr) eqn:E1, (stringContains s substr) eqn:E2;
      try reflexivity.
    - apply contains_spec, stringContains_spec in E1. congruence.
    - apply stringContains_spec, contains_spec in E2. congruence. }
  split.
  { apply contains_spec. exists "", s. reflexivity. }
  intros Hlt. apply contains_false. intros H.
  apply has_substring_len in H. lia.
Qed.

Lemma substring_0_split (s : string) : forall k,
  exists rest, s = substring 0 k s +:+ rest
               /\ len (substring 0 k s) = Nat.min k (len s).
Proof.
  unfold len. induction s as [|c s IH]; intros k.
  - exists "". destruct k; simpl; split; reflexivity.
  - destruct k as [|k].
    + exists (String c s). simpl. split; reflexivity.
    + destruct (IH k) as (rest & Hs & Hl). exists rest. simpl. split.
      * rewrite append_cons. f_equal. exact Hs.
      * rewrite Hl. reflexivity.
Qed.

(** X12.  [dialThroughProxy] leaves no connection behind: when it returns
    an error, the connection it opened to the proxy, if any, is closed;
    when it returns a connection, that connection is open and the CONNECT
    request for the target was written to it.  A proxy URL that does not
    parse is refused before any dial.  The error of a refused answer
    quotes the answer, at most its first 200 bytes. *)
Theorem dialThroughProxy_leaves_no_connection (env : netenv)
    (proxyURL targetHost : string) :
  let res := fst (dialThroughProxy env proxyURL targetHost) in
  let evs := snd (dialThroughProxy env proxyURL targetHost) in
  (forall e, url_Parse env proxyURL = inr e ->
     res = inr ("invalid proxy URL: " +:+ e) /\ evs = [])
  /\ (forall msg, res = inr msg ->
        forall c data, In (EvConnWrite c data) evs -> In (EvConnClose c) evs)
  /\ (forall msg, res = inr msg ->
        forall addr c, In (EvDial addr) evs -> net_Dial env addr = inl c ->
                       In (EvConnClose c) evs)
  /\ (forall c, res = inl c ->
        ~ In (EvConnClose c) evs
        /\ In (EvConnWrite c (connect_request targetHost)) evs
        /\ exists addr, In (EvDial addr) evs /\ net_Dial env addr = inl c)
  /\ (forall c response,
        upstream_answered env proxyURL targetHost c response ->
        ~ has_substring response "200" -> ~ has_substring response "201" ->
        exists quoted rest,
          res = inr ("proxy rejected connection: " +:+ quoted)
          /\ response = quoted +:+ rest
          /\ len quoted = Nat.min 200 (len response)).
Proof.
  cbv zeta. split; [|split; [|split; [|split]]].
  - intros e He. unfold dialThroughProxy. rewrite He. split; reflexivity.
  - intros msg. unfold dialThroughProxy.
    repeat (case_match; simpl); intros Hres c0 data Hin; try discriminate;
      repeat match goal with
             | H : _ \/ _ |- _ => destruct H
             | H : False |- _ => destruct H
             | H : EvConnWrite _ _ = EvConnWrite _ _ |- _ => injection H as <- <-
             | H : _ = EvConnWrite _ _ |- _ => discriminate H
             end; auto 6.
  - intros msg. unfold dialThroughProxy.
    repeat (case_match; simpl); intros Hres addr c0 Hin Hd; try discriminate;
      repeat match goal with
             | H : _ \/ _ |- _ => destruct H
             | H : False |- _ => destruct H
             | H : EvDial _ = EvDial _ |- _ => injection H as <-
             | H : _ = EvDial _ |- _ => discriminate H
             end; simplify_eq;
      try match goal with
          | H : net_Dial _ ?x = _, H' : net_Dial _ ?x = _ |- _ =>
              rewrite H in H'; simplify_eq
          end; auto 6.
  - intros c. unfold dialThroughProxy. fold (connect_request targetHost).
    repeat (case_match; simpl); intros Hres; try discriminate; simplify_eq.
    all: split; [intros [Hx|[Hx|[Hx|[]]]]; discriminate|].
    all: split; [auto|]; eexists; split; [left; reflexivity | eassumption].
  - intros c response Ha H1 H2.
    destruct (dialThroughProxy_answered _ _ _ _ _ Ha) as (addr & ->).
    apply contains_false in H1, H2. rewrite H1, H2. simpl.
    destruct (substring_0_split response
                (Z.to_nat (min 200 (Z.of_nat (len response))))) as (rest & Hs & Hl).
    exists (slice response 0 (Z.to_nat (min 200 (Z.of_nat (len response))))), rest.
    unfold slice. rewrite Nat.sub_0_r.
    split; [reflexivity|]. split; [exact Hs|].
    rewrite Hl. unfold min.
    destruct (200 <? Z.of_nat (len response)) eqn:E.
    + change (Z.to_nat 200) with 200%nat. reflexivity.
    + apply Z.ltb_ge in E. rewrite Nat2Z.id, Nat.min_id.
      change (len response = Nat.min 200 (len response)).
      symmetry. apply Nat.min_r. lia.
Qed.

(** ** The handlers of the proxy (proxy.go) *)

Lemma dial_target_no_relay p env host client tgt :
  ~ In (EvRelay client tgt) (snd (dial_target p env host)).
Proof.
  intros Hin. pose proof (dial_target_events p env host) as H.
  rewrite forallb_forall in H. specialize (H _ Hin). discriminate H.
Qed.

Lemma http_Error_fresh (msg : string) (code : Z) (w : ResponseWriter) :
  fresh_writer w ->
  w_status (http_Error msg code w) = Some code
  /\ w_body (http_Error msg code w) = [msg +:+ LF].
Proof. intros (Hs & Hb & _). simpl. rewrite Hs, Hb. auto. Qed.

(** X13.  A CONNECT request whose dial succeeds.  The connection to the
    target is closed when the handler returns, whatever happens in
    between.  The two connections are relayed exactly when the client
    connection was hijacked and the line [200 Connection Established] was
    written to it without an error; the relay comes after that line, and
    the client connection is closed before the target's.  Through the
    response writer the handler answers only when it cannot hijack: with
    status 500. *)
Theorem handleConnect_closes_what_it_opened (p : ProxyServer) (env : netenv)
    (r : Request) (w : ResponseWriter) (target : conn)
    (Hfresh : fresh_writer w)
    (Hdial : fst (dial_target p env (req_Host r)) = inl target) :
  let res := handleConnect p env r w in
  (exists front, snd res = front ++ [EvConnClose target])
  /\ (forall client tgt, In (EvRelay client tgt) (snd res) <->
        w_hijacker w = Some (inl client) /\ tgt = target
        /\ conn_Write env client established = None)
  /\ (forall client, w_hijacker w = Some (inl client) ->
        fst res = w
        /\ exists front mid,
             snd res = front ++ EvHijack :: EvConnWrite client established
                         :: mid ++ [EvConnClose client; EvConnClose target]
             /\ forallb (fun e => negb (is_relay e) && negb (is_hijack e)) front = true
             /\ (mid = [EvRelay client target;
                        EvLog LevelDebug ("CONNECT " +:+ req_Host r +:+ " completed")]
                 \/ exists err,
                      conn_Write env client established = Some err
                      /\ mid = [EvLog LevelError
                                  ("Failed to send connection established: " +:+ err)]))
  /\ ((forall client, w_hijacker w <> Some (inl client)) ->
        w_status (fst res) = Some 500
        /\ (w_body (fst res) = ["Hijacking not supported" +:+ LF]
            \/ exists err, w_hijacker w = Some (inr err)
                           /\ w_body (fst res) = ["Hijack failed: " +:+ err +:+ LF])).
Proof.
  cbv zeta. rewrite handleConnect_dial.
  pose proof (dial_target_no_relay p env (req_Host r)) as Hnr.
  pose proof (dial_target_events p env (req_Host r)) as Hev.
  destruct (dial_target p env (req_Host r)) as [dialed evs].
  simpl in Hdial, Hnr, Hev. subst dialed. cbv zeta.
  set (hello := EvLog LevelDebug (">> 收到 HTTPS 请求: " +:+ req_Host r)).
  assert (Hrelay : forall client tgt tail,
            In (EvRelay client tgt) (hello :: evs ++ tail) ->
            In (EvRelay client tgt) tail).
  { intros client tgt tail [Hx|Hx]; [discriminate Hx|].
    apply in_app_or in Hx. destruct Hx as [Hx|Hx]; [destruct (Hnr _ _ Hx) | exact Hx]. }
  destruct (w_hijacker w) as [[client|err]|] eqn:Hh.
  - destruct (conn_Write env client established) as [err|] eqn:Hw; simpl fst; simpl snd.
    + split.
      { eexists (hello :: evs ++ [_; _; _; _]). simpl. rewrite <- app_assoc. reflexivity. }
      split.
      { intros c tgt. split.
        - intros Hin. apply Hrelay in Hin. simpl in Hin.
          repeat (destruct Hin as [Hin|Hin]; [discriminate Hin|]). destruct Hin.
        - intros (Hc & _ & Hn). injection Hc as <-. congruence. }
      split.
      { intros c Hc. injection Hc as <-. split; [reflexivity|].
        exists (hello :: evs), [EvLog LevelError
                                  ("Failed to send connection established: " +:+ err)].
        split; [reflexivity|]. split; [simpl; exact Hev|].
        right. exists err. auto. }
      intros Hno. destruct (Hno client eq_refl).
    + split.
      { eexists (hello :: evs ++ [_; _; _; _; _]). simpl. rewrite <- app_assoc. reflexivity. }
      split.
      { intros c tgt. split.
        - intros Hin. apply Hrelay in Hin. simpl in Hin.
          destruct Hin as [Hin|[Hin|[Hin|Hin]]]; try discriminate Hin.
          + injection Hin as <- <-. auto.
          + repeat (destruct Hin as [Hin|Hin]; [discriminate Hin|]). destruct Hin.
        - intros (Hc & -> & _). injection Hc as <-.
          right. apply in_or_app. right. simpl. auto. }
      split.
      { intros c Hc. injection Hc as <-. split; [reflexivity|].
        exists (hello :: evs),
          [EvRelay client target;
           EvLog LevelDebug ("CONNECT " +:+ req_Host r +:+ " completed")].
        split; [reflexivity|]. split; [simpl; exact Hev|]. left. reflexivity. }
      intros Hno. destruct (Hno client eq_refl).
  - simpl fst; simpl snd. split.
    { eexists (hello :: evs ++ [_]). simpl. rewrite <- app_assoc. reflexivity. }
    split.
    { intros c tgt. split.
      - intros Hin. apply Hrelay in Hin. simpl in Hin.
        repeat (destruct Hin as [Hin|Hin]; [discriminate Hin|]). destruct Hin.
      - intros (Hc & _). discriminate Hc. }
    split; [intros c Hc; discriminate Hc|].
    intros _. destruct (http_Error_fresh ("Hijack failed: " +:+ err) 500 w Hfresh)
      as (Hs & Hb).
    split; [exact Hs|]. right. exists err. split; [reflexivity|].
    unfold StatusInternalServerError. rewrite Hb. reflexivity.
  - simpl fst; simpl snd. split.
    { eexists (hello :: evs). reflexivity. }
    split.
    { intros c tgt. split.
      - intros Hin. apply Hrelay in Hin. simpl in Hin.
        repeat (destruct Hin as [Hin|Hin]; [discriminate Hin|]). destruct Hin.
      - intros (Hc & _). discriminate Hc. }
    split; [intros c Hc; discriminate Hc|].
    intros _. destruct (http_Error_fresh "Hijacking not supported" 500 w Hfresh)
      as (Hs & Hb).
    split; [exact Hs|]. left. exact Hb.
Qed.


Lemma handleConnect_closes_what_it_opened_witness :
  fresh_writer blank_writer
  /\ fst (dial_target (NewProxyServer 8080 "" "") open_env "example.com:443") = inl 7%nat
  /\ In (EvRelay 3%nat 7%nat)
       (snd (handleConnect (NewProxyServer 8080 "" "") open_env
               (connect_request_of "example.com:443") blank_writer)).
Proof.
  assert (Hf : fresh_writer blank_writer) by (repeat split; reflexivity).
  assert (Hd : fst (dial_target (NewProxyServer 8080 "" "") open_env "example.com:443")
               = inl 7%nat) by reflexivity.
  split; [exact Hf|]. split; [exact Hd|].
  apply (proj1 (proj2 (handleConnect_closes_what_it_opened
                         (NewProxyServer 8080 "" "") open_env
                         (connect_request_of "example.com:443") blank_writer 7%nat Hf Hd))).
  repeat split; reflexivity.
Defined.

Lemma handleHTTP_transport (p : ProxyServer) (env : netenv)
    (inOrder outOrder : header -> list (string * list string))
    (r : Request) (w : ResponseWriter) :
  http_NewRequest env (Method r) (req_URL r) = None ->
  handleHTTP p env inOrder outOrder r w
  = let hello := EvLog LevelDebug (">> 收到 HTTP 请求: " +:+ Method r +:+ " " +:+ req_URL r) in
    let evp := match transport_of p env with
               | Some u => [EvLog LevelDebug ("Using upstream HTTP proxy: " +:+ u)]
               | None => []
               end in
    let evs := hello :: evp ++ [EvRoundTrip (transport_of p env) (outbound inOrder r)] in
    match roundTrip env (transport_of p env) (outbound inOrder r) with
    | inr err => (http_Error ("Failed to send request: " +:+ err) StatusBadGateway w, evs)
    | inl resp =>
        let w2 := WriteHeader (StatusCode resp)
                    (w_setHeader (copy_header (outOrder (resp_Header resp)) (w_header w)) w) in
        (if w_flusher w then stream_body (resp_Body resp) w2
         else io_Copy (resp_Body resp) w2, evs)
    end.
Proof.
  intros Hnew. unfold handleHTTP, transport_of. rewrite Hnew.
  fold (outbound inOrder r).
  destruct (String.eqb (httpProxy p) ""); simpl negb; cbv iota.
  - rewrite client_Do_no_redirect.
    destruct (roundTrip env None (outbound inOrder r)); reflexivity.
  - destruct (url_Parse env (httpProxy p)); rewrite client_Do_no_redirect.
    + destruct (roundTrip env (Some (httpProxy p)) (outbound inOrder r)); reflexivity.
    + destruct (roundTrip env None (outbound inOrder r)); reflexivity.
Qed.

Lemma filter_roundtrip_events (hello : event) (evp : list event) (e : event) :
  is_roundtrip hello = false -> forallb is_log evp = true -> is_roundtrip e = true ->
  List.filter is_roundtrip (hello :: evp ++ [e]) = [e].
Proof.
  intros Hh Hp He. simpl. rewrite Hh.
  induction evp as [|x evp IH]; simpl.
  - rewrite He. reflexivity.
  - simpl in Hp. apply andb_true_iff in Hp. destruct Hp as [Hx Hp].
    destruct x; try discriminate Hx. simpl. apply IH, Hp.
Qed.

(** X14.  A plain request that cannot be forwarded.  When the outgoing
    request cannot be built the client is answered 500 and nothing is sent.
    Otherwise exactly one round trip is made: through the upstream HTTP
    proxy when one is configured and its URL parses, and directly
    otherwise, so an upstream proxy whose URL does not parse is ignored
    without a word.  When that round trip fails the client is answered 502
    with the error, and nothing is flushed. *)
Theorem handleHTTP_error_answers (p : ProxyServer) (env : netenv)
    (inOrder outOrder : header -> list (string * list string))
    (r : Request) (w : ResponseWriter)
    (Hfresh : fresh_writer w) :
  let res := handleHTTP p env inOrder outOrder r w in
  (forall err, http_NewRequest env (Method r) (req_URL r) = Some err ->
     w_status (fst res) = Some 500
     /\ w_body (fst res) = ["Failed to create request: " +:+ err +:+ LF]
     /\ List.filter is_roundtrip (snd res) = [])
  /\ (http_NewRequest env (Method r) (req_URL r) = None ->
      List.filter is_roundtrip (snd res)
      = [EvRoundTrip (transport_of p env) (outbound inOrder r)]
      /\ (transport_of p env = None \/ transport_of p env = Some (httpProxy p))
      /\ (transport_of p env = Some (httpProxy p) <->
          httpProxy p <> "" /\ exists u, url_Parse env (httpProxy p) = inl u)
      /\ forall err,
           roundTrip env (transport_of p env) (outbound inOrder r) = inr err ->
           w_status (fst res) = Some 502
           /\ w_body (fst res) = ["Failed to send request: " +:+ err +:+ LF]
           /\ w_flushes (fst res) = w_flushes w).
Proof.
  cbv zeta. split.
  - intros err Hnew. unfold handleHTTP. rewrite Hnew. simpl fst. simpl snd.
    destruct (http_Error_fresh ("Failed to create request: " +:+ err) 500 w Hfresh)
      as (Hs & Hb).
    split; [exact Hs|]. split; [|reflexivity].
    unfold StatusInternalServerError. rewrite Hb. reflexivity.
  - intros Hnew. rewrite (handleHTTP_transport p env inOrder outOrder r w Hnew).
    cbv zeta. split.
    { assert (Hevp : forallb is_log
                (match transport_of p env with
                 | Some u => [EvLog LevelDebug ("Using upstream HTTP proxy: " +:+ u)]
                 | None => []
                 end) = true) by (destruct (transport_of p env); reflexivity).
      destruct (roundTrip env (transport_of p env) (outbound inOrder r)); simpl snd;
        apply filter_roundtrip_events; auto. }
    split.
    { unfold transport_of. destruct (String.eqb (httpProxy p) ""); [auto|].
      destruct (url_Parse env (httpProxy p)); auto. }
    split.
    { unfold transport_of. destruct (String.eqb_spec (httpProxy p) "") as [E|E].
      - split; [discriminate|]. intros [H _]. destruct (H E).
      - destruct (url_Parse env (httpProxy p)) as [u|e].
        + split; [intros _; split; [exact E | exists u; reflexivity] | reflexivity].
        + split; [discriminate|]. intros [_ [u Hu]]. discriminate Hu. }
    intros err Hrt. rewrite Hrt. simpl fst.
    destruct (http_Error_fresh ("Failed to send request: " +:+ err) 502 w Hfresh)
      as (Hs & Hb).
    split; [exact Hs|]. split; [|reflexivity].
    unfold StatusBadGateway. rewrite Hb. reflexivity.
Qed.

Lemma handleHTTP_error_answers_witness :
  fresh_writer blank_writer
  /\ w_status (fst (handleHTTP (NewProxyServer 8080 "http://proxy:3128" "") open_env
                      map_to_list map_to_list sample_request blank_writer))
     = Some 502.
Proof.
  assert (Hf : fresh_writer blank_writer) by (repeat split; reflexivity).
  split; [exact Hf|].
  destruct (handleHTTP_error_answers (NewProxyServer 8080 "http://proxy:3128" "") open_env
              map_to_list map_to_list sample_request blank_writer Hf) as (_ & H).
  destruct (H eq_refl) as (_ & _ & _ & H502).
  exact (proj1 (H502 "no route" eq_refl)).
Defined.

Lemma dialThroughProxy_no_roundtrip env proxyURL host :
  List.filter is_roundtrip (snd (dialThroughProxy env proxyURL host)) = [].
Proof.
  unfold dialThroughProxy.
  repeat (case_match; simpl; try reflexivity).
Qed.

Lemma filter_roundtrip_app (a b : list event) :
  List.filter is_roundtrip (a ++ b)
  = List.filter is_roundtrip a ++ List.filter is_roundtrip b.
Proof. apply List.filter_app. Qed.

(** X15.  The two kinds of request never mix.  A CONNECT request makes
    no HTTP round trip.  Any other request makes at most one, and neither
    dials, nor hijacks the client connection, nor relays, nor closes a
    connection: all it does besides the round trip is write log lines. *)
Theorem handleRequest_separates_the_two_paths (p : ProxyServer) (env : netenv)
    (inOrder outOrder : header -> list (string * list string))
    (r : Request) (w : ResponseWriter) :
  let evs := snd (handleRequest p env inOrder outOrder r w) in
  (Method r = "CONNECT" -> List.filter is_roundtrip evs = [])
  /\ (Method r <> "CONNECT" ->
      forallb (fun e => is_log e || is_roundtrip e) evs = true
      /\ (length (List.filter is_roundtrip evs) <= 1)%nat).
Proof.
  cbv zeta. unfold handleRequest, MethodConnect. split.
  - intros ->. simpl String.eqb. cbv iota. rewrite handleConnect_dial.
    assert (Hd : List.filter is_roundtrip (snd (dial_target p env (req_Host r))) = []).
    { unfold dial_target. destruct (negb _); [apply dialThroughProxy_no_roundtrip|].
      reflexivity. }
    destruct (dial_target p env (req_Host r)) as [dialed evs]. simpl in Hd. cbv zeta.
    destruct dialed as [target|err].
    + destruct (w_hijacker w) as [[client|err]|];
        [destruct (conn_Write env client established)| |];
        simpl snd; simpl List.filter; rewrite filter_roundtrip_app, Hd; reflexivity.
    + simpl snd. simpl List.filter. rewrite filter_roundtrip_app, Hd. reflexivity.
  - intros Hm. destruct (String.eqb_spec (Method r) "CONNECT") as [E|_]; [destruct (Hm E)|].
    destruct (http_NewRequest env (Method r) (req_URL r)) as [err|] eqn:Hnew.
    + unfold handleHTTP. rewrite Hnew. simpl. split; [reflexivity | lia].
    + rewrite (handleHTTP_transport p env inOrder outOrder r w Hnew). cbv zeta.
      assert (Hall : forall evp e, forallb is_log evp = true -> is_roundtrip e = true ->
                forallb (fun e => is_log e || is_roundtrip e) (evp ++ [e]) = true).
      { intros evp e Hp He. rewrite forallb_app. simpl. rewrite He, orb_true_r. simpl.
        rewrite andb_true_r. rewrite forallb_forall in Hp. apply forallb_forall.
        intros x Hx. rewrite (Hp x Hx). reflexivity. }
      assert (Hevp : forallb is_log
                (match transport_of p env with
                 | Some u => [EvLog LevelDebug ("Using upstream HTTP proxy: " +:+ u)]
                 | None => []
                 end) = true) by (destruct (transport_of p env); reflexivity).
      destruct (roundTrip env (transport_of p env) (outbound inOrder r)); simpl snd.
      all: split; [simpl; apply Hall; auto|].
      all: rewrite filter_roundtrip_events; auto.
Qed.

Lemma stream_body_chunks (reads : list read_result) : forall w,
  w_body (stream_body reads w) = w_body w ++ delivered reads
  /\ w_flushes (stream_body reads w) = (w_flushes w + length (delivered reads))%nat.
Proof.
  induction reads as [|rd rest IH]; intros w; simpl.
  - rewrite app_nil_r. split; [reflexivity | lia].
  - destruct (0 <? len (rd_data rd))%nat, (rd_err rd); simpl.
    + split; [reflexivity | lia].
    + destruct (IH (w_Flush (w_Write (rd_data rd) w))) as (Hb & Hf).
      rewrite Hb, Hf. simpl. rewrite <- app_assoc. split; [reflexivity | lia].
    + rewrite app_nil_r. split; [reflexivity | lia].
    + apply IH.
Qed.

Lemma io_Copy_chunks (reads : list read_result) : forall w,
  w_body (io_Copy reads w) = w_body w ++ delivered reads
  /\ w_flushes (io_Copy reads w) = w_flushes w.
Proof.
  induction reads as [|rd rest IH]; intros w; simpl.
  - rewrite app_nil_r. split; reflexivity.
  - destruct (0 <? len (rd_data rd))%nat, (rd_err rd); simpl.
    + split; reflexivity.
    + destruct (IH (w_Write (rd_data rd) w)) as (Hb & Hf).
      rewrite Hb, Hf. simpl. rewrite <- app_assoc. split; reflexivity.
    + rewrite app_nil_r. split; reflexivity.
    + apply IH.
Qed.

Lemma delivered_nonempty (reads : list read_result) :
  List.Forall (fun chunk => chunk <> "") (delivered reads).
Proof.
  induction reads as [|rd rest IH]; simpl; [constructor|].
  apply List.Forall_app. split.
  - destruct (0 <? len (rd_data rd))%nat eqn:E; [|constructor].
    constructor; [|constructor]. intros Hx. rewrite Hx in E. discriminate E.
  - destruct (rd_err rd); [constructor | exact IH].
Qed.

(** X16.  The body of the answer reaches the client as it is read.  A
    writer that can flush is written chunk by chunk: every read that
    delivers data is written as it is and followed by one flush, a read
    that delivers nothing is neither written nor flushed, and nothing is
    read after the first error.  A writer that cannot flush is never
    flushed.  Either way the client is sent the bytes of the body. *)
Theorem body_streamed_in_chunks (p : ProxyServer) (env : netenv)
    (inOrder outOrder : header -> list (string * list string))
    (r : Request) (w : ResponseWriter) (resp : Response)
    (Hnew : http_NewRequest env (Method r) (req_URL r) = None)
    (Hrt : roundTrip env (transport_of p env) (outbound inOrder r) = inl resp) :
  let w' := fst (handleHTTP p env inOrder outOrder r w) in
  (w_flusher w = true ->
   w_body w' = w_body w ++ delivered (resp_Body resp)
   /\ w_flushes w' = (w_flushes w + length (delivered (resp_Body resp)))%nat)
  /\ (w_flusher w = false -> w_flushes w' = w_flushes w)
  /\ joined (w_body w') = joined (w_body w) +:+ body_bytes (resp_Body resp)
  /\ List.Forall (fun chunk => chunk <> "") (delivered (resp_Body resp))
  /\ joined (delivered (resp_Body resp)) = body_bytes (resp_Body resp).
Proof.
  cbv zeta. rewrite (handleHTTP_transport p env inOrder outOrder r w Hnew).
  cbv zeta. rewrite Hrt. simpl fst.
  set (w2 := WriteHeader (StatusCode resp) _).
  assert (Hb2 : w_body w2 = w_body w) by reflexivity.
  assert (Hf2 : w_flushes w2 = w_flushes w) by reflexivity.
  assert (Hj : joined (delivered (resp_Body resp)) = body_bytes (resp_Body resp)).
  { clear. induction (resp_Body resp) as [|rd rest IH]; simpl; [reflexivity|].
    rewrite joined_app.
    assert (H1 : joined (if (0 <? len (rd_data rd))%nat then [rd_data rd] else [])
                 = rd_data rd).
    { destruct (rd_data rd) as [|c s]; simpl; [reflexivity|].
      unfold joined. simpl. apply append_nil_r. }
    rewrite H1. destruct (rd_err rd); simpl.
    + apply append_nil_r.
    + rewrite IH. reflexivity. }
  split; [|split; [|split; [|split]]].
  - intros ->. rewrite (proj1 (stream_body_chunks _ w2)),
      (proj2 (stream_body_chunks _ w2)), Hb2, Hf2. auto.
  - intros ->. rewrite (proj2 (io_Copy_chunks _ w2)), Hf2. reflexivity.
  - destruct (w_flusher w).
    + rewrite (proj1 (stream_body_chunks _ w2)), Hb2, joined_app, Hj. reflexivity.
    + rewrite (proj1 (io_Copy_chunks _ w2)), Hb2, joined_app, Hj. reflexivity.
  - apply delivered_nonempty.
  - exact Hj.
Qed.

Lemma body_streamed_in_chunks_witness :
  http_NewRequest redirecting_env (Method sample_request) (req_URL sample_request) = None
  /\ (exists resp,
        roundTrip redirecting_env (transport_of (NewProxyServer 8080 "" "") redirecting_env)
          (outbound map_to_list sample_request) = inl resp)
  /\ w_flushes (fst (handleHTTP (NewProxyServer 8080 "" "") redirecting_env
                       map_to_list map_to_list sample_request blank_writer)) = 1%nat.
Proof.
  split; [reflexivity|]. split; [eexists; reflexivity|].
  exact (proj2 (proj1 (body_streamed_in_chunks (NewProxyServer 8080 "" "") redirecting_env
                         map_to_list map_to_list sample_request blank_writer _
                         eq_refl eq_refl) eq_refl)).
Defined.

(** ** The session of a tunnel (ssh_tunnel.go) *)

Lemma session_inv_step (h : hostenv) (m : machine) (i : input) :
  session_inv m = true -> session_inv (fst (step h m i)) = true.
Proof.
  intros H. machine_cases m. unfold session_inv in *. cbn in H.
  destruct c, cl, li, sc, rc, cd; try discriminate H; clear H.
  all: destruct i as [| | |[e|]|[e|]|[rc'|e]| |[e|]].
  all: cbn; try reflexivity.
  all: crush_step; explode; reflexivity.
Qed.

Lemma session_inv_run (h : hostenv) (ins : list input) : forall m,
  session_inv m = true -> session_inv (fst (run h m ins)) = true.
Proof.
  induction ins as [|i ins IH]; intros m H; simpl; [exact H|].
  pose proof (session_inv_step h m i H) as H1.
  destruct (step h m i) as [m1 o1]. simpl in H1.
  specialize (IH m1 H1). destruct (run h m1 ins) as [m2 o2]. exact IH.
Qed.

Lemma new_machine_inv (cfg : Config) (status : bool) (prompt : option string) :
  session_inv (new_machine cfg status prompt) = true.
Proof. reflexivity. Qed.

(** X17.  The fields of a tunnel follow the point [Start] is at, whatever
    the host, the network and the callers of [Stop] do to a new tunnel.
    [Start] has returned only if the context was cancelled or [Stop] was
    called, and the tunnel then holds neither a client nor a listener.
    While [Start] waits before a new attempt nothing is held and nobody
    told it to end.  During a dial nothing is held; while the remote
    listener is requested the client is held; during [Accept] both are held
    and [Stop] was not called.  A cancellation does not interrupt [Accept].
    The flag [reconnect] is set exactly as long as [Stop] was not called. *)
Theorem tunnel_fields_follow_Start (h : hostenv) (cfg : Config) (status : bool)
    (prompt : option string) (ins : list input) :
  let m := fst (run h (new_machine cfg status prompt) ins) in
  reconnect (tun m) = negb (stopChan_closed (tun m))
  /\ (forall e, pc m = Returned e ->
        client (tun m) = None /\ listener (tun m) = None /\ told_to_end m = true)
  /\ (pc m = Backoff ->
        client (tun m) = None /\ listener (tun m) = None /\ told_to_end m = false)
  /\ (forall retry, pc m = Dialing retry ->
        client (tun m) = None /\ listener (tun m) = None)
  /\ (pc m = Listening -> client (tun m) <> None /\ listener (tun m) = None)
  /\ (pc m = Accepting ->
        client (tun m) <> None /\ listener (tun m) <> None
        /\ stopChan_closed (tun m) = false
        /\ pc (fst (step h m Cancel)) = Accepting)
  /\ (pc m = Panicked -> stopChan_closed (tun m) = true).
Proof.
  cbv zeta.
  pose proof (session_inv_run h ins _ (new_machine_inv cfg status prompt)) as H.
  destruct (fst (run h (new_machine cfg status prompt) ins)) as [t c cd ka att ns].
  destruct t as [cfg' cl li sc rc cb pp].
  unfold session_inv, told_to_end in H. cbn in H. unfold told_to_end. cbn.
  destruct c, cl, li, sc, rc, cd; try discriminate H; clear H.
  all: repeat split; intros; try discriminate; try congruence; try reflexivity.
Qed.







(** ** The password prompt and the authentication methods (ssh_tunnel.go) *)

Ltac inv_in H :=
  simpl in H;
  repeat match type of H with
         | _ \/ _ => destruct H as [H|H]
         | False => destruct H
         end.

Lemma loadPrivateKeyFromPath_loads (h : hostenv) (t : SSHTunnel) (path : string)
    (a : AuthMethod) :
  loadPrivateKeyFromPath h t path = Some a -> a = KeyAuth path /\ key_loads h t path.
Proof.
  unfold loadPrivateKeyFromPath, key_loads.
  destruct (os_ReadFile h path) as [key|]; [|discriminate].
  destruct (ParsePrivateKey h key) eqn:E1.
  - intros [= <-]. split; [reflexivity|]. exists key. auto.
  - destruct (String.eqb_spec (SSHKeyPassphrase (t_config t)) "") as [E|E]; simpl;
      [discriminate|].
    destruct (ParsePrivateKeyWithPassphrase h key (SSHKeyPassphrase (t_config t))) eqn:E2;
      [|discriminate].
    intros [= <-]. split; [reflexivity|]. exists key. auto.
Qed.

Lemma default_key_methods_loads (h : hostenv) (t : SSHTunnel) (a : AuthMethod) :
  In a (default_key_methods h t) ->
  exists path, a = KeyAuth path /\ In path (getDefaultKeyPaths h)
               /\ os_Stat h path = true /\ key_loads h t path.
Proof.
  unfold default_key_methods. intros Hin. apply in_flat_map in Hin.
  destruct Hin as (path & Hp & Hin). exists path.
  destruct (os_Stat h path) eqn:Es; [|destruct Hin].
  destruct (loadPrivateKeyFromPath h t path) as [k|] eqn:El; [|destruct Hin].
  destruct Hin as [<-|[]].
  destruct (loadPrivateKeyFromPath_loads h t path k El) as (-> & Hk). auto.
Qed.

Lemma default_key_methods_sorted (h : hostenv) (t : SSHTunnel) :
  Forall (fun a => auth_rank a = 1%nat) (default_key_methods h t)
  /\ (length (default_key_methods h t) <= 4)%nat.
Proof.
  unfold default_key_methods, getDefaultKeyPaths.
  destruct (UserHomeDir h) as [home|]; [|split; [constructor | simpl; lia]].
  cbn [flat_map].
  repeat match goal with
         | |- context [os_Stat h ?p] => destruct (os_Stat h p)
         end;
  repeat match goal with
         | |- context [loadPrivateKeyFromPath h t ?p] =>
             let E := fresh "E" in
             destruct (loadPrivateKeyFromPath h t p) eqn:E;
             [apply loadPrivateKeyFromPath_loads in E; destruct E as (-> & _)|]
         end;
  cbn; (split; [repeat constructor | lia]).
Qed.

Lemma sorted_app {A : Type} (R : A -> A -> Prop) (l1 l2 : list A) :
  StronglySorted R l1 -> StronglySorted R l2 ->
  (forall a b, In a l1 -> In b l2 -> R a b) ->
  StronglySorted R (l1 ++ l2).
Proof.
  induction l1 as [|x l1 IH]; intros H1 H2 H; simpl; [exact H2|].
  apply StronglySorted_inv in H1. destruct H1 as [H1 Hx].
  constructor.
  - apply IH; [exact H1 | exact H2 | intros a b Ha Hb; apply H; simpl; auto].
  - apply List.Forall_app. split; [exact Hx|].
    apply List.Forall_forall. intros b Hb. apply H; simpl; auto.
Qed.

Lemma sorted_same_rank (k : nat) (l : list AuthMethod) :
  List.Forall (fun a => auth_rank a = k) l ->
  StronglySorted (fun a b => (auth_rank a <= auth_rank b)%nat) l.
Proof.
  induction 1 as [|x l Hx Hl IH]; constructor; [exact IH|].
  apply List.Forall_forall. intros b Hb.
  rewrite List.Forall_forall in Hl. rewrite Hx, (Hl b Hb). lia.
Qed.

(** The parts [buildAuthMethods] puts together. *)
Lemma buildAuthMethods_parts (h : hostenv) (t : SSHTunnel) :
  exists agent explicit pw,
    buildAuthMethods h t
    = agent ++ explicit ++ default_key_methods h t ++ pw ++ [KeyboardInteractive]
    /\ (agent = [AgentAuth] /\ trySSHAgent h = true
        \/ agent = [] /\ trySSHAgent h = false)
    /\ (explicit = [KeyAuth (SSHKeyPath (t_config t))]
        /\ SSHKeyPath (t_config t) <> "" /\ key_loads h t (SSHKeyPath (t_config t))
        \/ explicit = [])
    /\ (pw = [PasswordAuth (SSHPassword (t_config t))] /\ SSHPassword (t_config t) <> ""
        \/ pw = [] /\ SSHPassword (t_config t) = "").
Proof.
  unfold buildAuthMethods.
  exists (if trySSHAgent h then [AgentAuth] else []).
  exists (if negb (String.eqb (SSHKeyPath (t_config t)) "")
          then match loadPrivateKeyFromPath h t (SSHKeyPath (t_config t)) with
               | Some k => [k]
               | None => []
               end
          else []).
  exists (if negb (String.eqb (SSHPassword (t_config t)) "")
          then [PasswordAuth (SSHPassword (t_config t))] else []).
  split; [|split; [|split]].
  - destruct (negb (String.eqb (SSHKeyPath (t_config t)) ""));
      destruct (negb (String.eqb (SSHPassword (t_config t)) ""));
      try destruct (loadPrivateKeyFromPath h t (SSHKeyPath (t_config t)));
      rewrite ?app_nil_r, <- ?app_assoc; simpl; rewrite ?app_nil_r, <- ?app_assoc;
      reflexivity.
  - destruct (trySSHAgent h); auto.
  - destruct (String.eqb_spec (SSHKeyPath (t_config t)) "") as [E|E]; simpl; [auto|].
    destruct (loadPrivateKeyFromPath h t (SSHKeyPath (t_config t))) as [k|] eqn:El; [|auto].
    destruct (loadPrivateKeyFromPath_loads h t _ k El) as (-> & Hk). auto.
  - destruct (String.eqb_spec (SSHPassword (t_config t)) "") as [E|E]; simpl; auto.
Qed.

(** X19.  The authentication methods are offered in a fixed order: the
    agent, then the keys, then the password, then the keyboard-interactive
    method, which comes last and once, so the list is never empty.  The
    agent is offered exactly when it answers with at least one key; a key
    only when its file was read and parsed, as it is or with the
    passphrase, and it is the configured one or an existing default one;
    the password exactly when one is configured.  At most eight methods are
    offered. *)
Theorem buildAuthMethods_order (h : hostenv) (t : SSHTunnel) :
  let ms := buildAuthMethods h t in
  StronglySorted (fun a b => (auth_rank a <= auth_rank b)%nat) ms
  /\ (In AgentAuth ms <->
      SSH_AUTH_SOCK h <> "" /\ agent_reachable h = true
      /\ exists keys, agent_List h = Some (S keys))
  /\ (forall path, In (KeyAuth path) ms ->
        key_loads h t path
        /\ (path = SSHKeyPath (t_config t) /\ path <> ""
            \/ In path (getDefaultKeyPaths h) /\ os_Stat h path = true))
  /\ (forall pw, In (PasswordAuth pw) ms <-> pw = SSHPassword (t_config t) /\ pw <> "")
  /\ (exists front, ms = front ++ [KeyboardInteractive] /\ ~ In KeyboardInteractive front)
  /\ (length ms <= 8)%nat.
Proof.
  cbv zeta.
  destruct (buildAuthMethods_parts h t) as (agent & explicit & pw & -> & Ha & He & Hp).
  destruct (default_key_methods_sorted h t) as (Hd1 & Hd4).
  assert (Hdef : forall a, In a (default_key_methods h t) ->
            exists path, a = KeyAuth path /\ In path (getDefaultKeyPaths h)
                         /\ os_Stat h path = true /\ key_loads h t path)
    by apply default_key_methods_loads.
  assert (Hagent : trySSHAgent h = true <->
            SSH_AUTH_SOCK h <> "" /\ agent_reachable h = true
            /\ exists keys, agent_List h = Some (S keys)).
  { unfold trySSHAgent. destruct (String.eqb_spec (SSH_AUTH_SOCK h) "") as [E|E].
    - split; [discriminate | intros (H & _); destruct (H E)].
    - destruct (agent_reachable h); simpl.
      + destruct (agent_List h) as [[|k]|]; simpl.
        * split; [discriminate | intros (_ & _ & k & Hk); discriminate Hk].
        * split; [intros _; eauto | reflexivity].
        * split; [discriminate | intros (_ & _ & k & Hk); discriminate Hk].
      + split; [discriminate | intros (_ & H & _); discriminate H]. }
  set (D := default_key_methods h t) in *.
  assert (Hrank : forall a, In a D -> auth_rank a = 1%nat)
    by (apply List.Forall_forall; exact Hd1).
  split; [|split; [|split; [|split; [|split]]]].
  - apply sorted_app; [|apply sorted_app; [|apply sorted_app; [|apply sorted_app|]|]|].
    + destruct Ha as [[-> _]|[-> _]]; repeat constructor.
    + destruct He as [(-> & _)| ->]; repeat constructor.
    + apply (sorted_same_rank 1), Hd1.
    + destruct Hp as [[-> _]|[-> _]]; repeat constructor.
    + repeat constructor.
    + intros a b Ha' Hb. inv_in Hb; subst.
      destruct Hp as [[-> _]|[-> _]]; inv_in Ha'; subst; simpl; lia.
    + intros a b Ha' Hb. rewrite (Hrank a Ha').
      apply in_app_or in Hb. destruct Hb as [Hb|[<-|[]]]; [|simpl; lia].
      destruct Hp as [[-> _]|[-> _]]; inv_in Hb; subst; simpl; lia.
    + intros a b Ha' Hb.
      assert (Hra : auth_rank a = 1%nat)
        by (destruct He as [(-> & _)| ->]; inv_in Ha'; subst; reflexivity).
      rewrite Hra. apply in_app_or in Hb. destruct Hb as [Hb|Hb];
        [rewrite (Hrank b Hb); lia|].
      apply in_app_or in Hb. destruct Hb as [Hb|[<-|[]]]; [|simpl; lia].
      destruct Hp as [[-> _]|[-> _]]; inv_in Hb; subst; simpl; lia.
    + intros a b Ha' Hb.
      assert (Hra : auth_rank a = 0%nat)
        by (destruct Ha as [[-> _]|[-> _]]; inv_in Ha'; subst; reflexivity).
      rewrite Hra. lia.
  - rewrite <- Hagent. split.
    + intros Hin. destruct Ha as [[_ Ht]|[-> _]]; [exact Ht|].
      simpl in Hin. apply in_app_or in Hin. destruct Hin as [Hin|Hin].
      { destruct He as [(-> & _)| ->]; inv_in Hin; discriminate Hin. }
      apply in_app_or in Hin. destruct Hin as [Hin|Hin].
      { apply Hrank in Hin. discriminate Hin. }
      apply in_app_or in Hin. destruct Hin as [Hin|[Hin|[]]]; [|discriminate Hin].
      destruct Hp as [[-> _]|[-> _]]; inv_in Hin; discriminate Hin.
    + intros Ht. destruct Ha as [[-> _]|[_ Hf]]; [left; reflexivity | congruence].
  - intros path Hin. apply in_app_or in Hin. destruct Hin as [Hin|Hin].
    { destruct Ha as [[-> _]|[-> _]]; inv_in Hin; discriminate Hin. }
    apply in_app_or in Hin. destruct Hin as [Hin|Hin].
    { destruct He as [(-> & Hne & Hk)| ->]; inv_in Hin.
      injection Hin as <-. auto. }
    apply in_app_or in Hin. destruct Hin as [Hin|Hin].
    { destruct (Hdef _ Hin) as (p' & Heq & Hp' & Hs & Hk). injection Heq as <-. auto. }
    apply in_app_or in Hin. destruct Hin as [Hin|[Hin|[]]]; [|discriminate Hin].
    destruct Hp as [[-> _]|[-> _]]; inv_in Hin; discriminate Hin.
  - intros pw'. split.
    + intros Hin. apply in_app_or in Hin. destruct Hin as [Hin|Hin].
      { destruct Ha as [[-> _]|[-> _]]; inv_in Hin; discriminate Hin. }
      apply in_app_or in Hin. destruct Hin as [Hin|Hin].
      { destruct He as [(-> & _)| ->]; inv_in Hin; discriminate Hin. }
      apply in_app_or in Hin. destruct Hin as [Hin|Hin].
      { apply Hrank in Hin. discriminate Hin. }
      apply in_app_or in Hin. destruct Hin as [Hin|[Hin|[]]]; [|discriminate Hin].
      destruct Hp as [[-> Hne]|[-> _]]; inv_in Hin.
      injection Hin as <-. auto.
    + intros (-> & Hne). destruct Hp as [[-> _]|[_ He']]; [|destruct (Hne He')].
      apply in_or_app. right. apply in_or_app. right. apply in_or_app. right.
      left. reflexivity.
  - exists (agent ++ explicit ++ D ++ pw). split.
    { rewrite <- !app_assoc. reflexivity. }
    intros Hin. apply in_app_or in Hin. destruct Hin as [Hin|Hin].
    { destruct Ha as [[-> _]|[-> _]]; inv_in Hin; discriminate Hin. }
    apply in_app_or in Hin. destruct Hin as [Hin|Hin].
    { destruct He as [(-> & _)| ->]; inv_in Hin; discriminate Hin. }
    apply in_app_or in Hin. destruct Hin as [Hin|Hin].
    { apply Hrank in Hin. discriminate Hin. }
    destruct Hp as [[-> _]|[-> _]]; inv_in Hin; discriminate Hin.
  - rewrite !length_app. simpl.
    assert (length agent <= 1)%nat by (destruct Ha as [[-> _]|[-> _]]; simpl; lia).
    assert (length explicit <= 1)%nat by (destruct He as [(-> & _)| ->]; simpl; lia).
    assert (length pw <= 1)%nat by (destruct Hp as [[-> _]|[-> _]]; simpl; lia).
    lia.
Qed.

Lemma config_kept_step (h : hostenv) (m : machine) (i : input) :
  SSHPassword (t_config (tun m)) <> "" ->
  t_config (tun (fst (step h m i))) = t_config (tun m).
Proof.
  intros Hpw. machine_cases m.
  destruct c; destruct i as [| | |[e|]|[e|]|[rc'|e]| |[e|]].
  all: cbn; try reflexivity.
  all: crush_step; explode; try reflexivity.
  all: match goal with
       | H : String.eqb _ "" = true |- _ => apply String.eqb_eq in H; destruct (Hpw H)
       end.
Qed.

Lemma config_kept_run (h : hostenv) (ins : list input) : forall m,
  SSHPassword (t_config (tun m)) <> "" ->
  t_config (tun (fst (run h m ins))) = t_config (tun m).
Proof.
  induction ins as [|i ins IH]; intros m Hm; simpl; [reflexivity|].
  pose proof (config_kept_step h m i Hm) as Hk.
  destruct (step h m i) as [m2 o2]. simpl in Hk.
  assert (Hm2 : SSHPassword (t_config (tun m2)) <> "") by (rewrite Hk; exact Hm).
  specialize (IH m2 Hm2). destruct (run h m2 ins) as [m3 o3]. simpl in *.
  rewrite IH. exact Hk.
Qed.

(** X20.  The password prompt.  When the first dial of an attempt fails,
    no password is configured and a prompt is installed, the answer is
    stored as the password of the configuration and one more dial is made,
    to the same address and for the same user, offering that password
    alone.  When this dial fails too, no further dial is made in the
    attempt, and the error of the attempt is that of the second dial.  An
    answer that is not empty is offered as the password in every later
    attempt, and the configuration does not change any more, so the prompt
    is not shown again. *)
Theorem password_prompt_retry (h : hostenv) (m : machine) (e answer : string)
    (Hpc : pc m = Dialing false)
    (Hpw : SSHPassword (t_config (tun m)) = "")
    (Hprompt : PasswordPrompt (tun m) = Some answer) :
  let m1 := fst (step h m (DialResult (Some e))) in
  snd (step h m (DialResult (Some e)))
  = [ODial (ssh_addr (t_config (tun m))) (SSHUser (t_config (tun m)))
       [PasswordAuth answer]]
  /\ pc m1 = Dialing true
  /\ t_config (tun m1) = set_SSHPassword answer (t_config (tun m))
  /\ (forall e',
        List.filter is_dial (snd (step h m1 (DialResult (Some e')))) = []
        /\ terminal_error m1 (DialResult (Some e')) = Some ("failed to dial SSH: " +:+ e')
        /\ (OnStatusChange (tun m) = true ->
            In (OStatus false (Some ("failed to dial SSH: " +:+ e')))
              (snd (step h m1 (DialResult (Some e'))))))
  /\ (answer <> "" ->
      In (PasswordAuth answer) (buildAuthMethods h (tun m1))
      /\ forall ins, t_config (tun (fst (run h m1 ins))) = t_config (tun m1)).
Proof.
  cbv zeta. machine_cases m. subst.
  assert (Hstep : step h
            {| tun := {| t_config := cfg; client := cl; listener := li;
                         stopChan_closed := sc; reconnect := rc;
                         OnStatusChange := cb; PasswordPrompt := Some answer |};
               pc := Dialing false; ctx_done := cd; keepalives := ka;
               attempt := att; nsel := ns |} (DialResult (Some e))
          = ({| tun := {| t_config := set_SSHPassword answer cfg; client := cl;
                          listener := li; stopChan_closed := sc; reconnect := rc;
                          OnStatusChange := cb; PasswordPrompt := Some answer |};
                pc := Dialing true; ctx_done := cd; keepalives := ka;
                attempt := att; nsel := ns |},
             [ODial (ssh_addr cfg) (SSHUser cfg) [PasswordAuth answer]])).
  { cbn. rewrite Hpw. reflexivity. }
  rewrite Hstep. cbn [fst snd tun pc t_config OnStatusChange].
  split; [reflexivity|]. split; [reflexivity|]. split; [reflexivity|].
  split.
  - intros e'. split; [|split; [reflexivity|]].
    + crush_step. explode; reflexivity.
    + intros ->. crush_step. explode; simpl; auto 10.
  - intros Hne. split.
    + destruct (buildAuthMethods_parts h
                  {| t_config := set_SSHPassword answer cfg; client := cl;
                     listener := li; stopChan_closed := sc; reconnect := rc;
                     OnStatusChange := cb; PasswordPrompt := Some answer |})
        as (agent & explicit & pw & -> & _ & _ & Hp).
      cbn in Hp. destruct Hp as [[-> _]|[_ Hx]]; [|destruct (Hne Hx)].
      apply in_or_app. right. apply in_or_app. right. apply in_or_app. right.
      left. reflexivity.
    + intros ins.
      apply (config_kept_run h ins
               {| tun := {| t_config := set_SSHPassword answer cfg; client := cl;
                            listener := li; stopChan_closed := sc; reconnect := rc;
                            OnStatusChange := cb; PasswordPrompt := Some answer |};
                  pc := Dialing true; ctx_done := cd; keepalives := ka;
                  attempt := att; nsel := ns |}).
      exact Hne.
Qed.

Lemma password_prompt_retry_witness :
  pc prompting_machine = Dialing false
  /\ SSHPassword (t_config (tun prompting_machine)) = ""
  /\ PasswordPrompt (tun prompting_machine) = Some "secret"
  /\ pc (fst (step bare_host prompting_machine (DialResult (Some "denied"))))
     = Dialing true.
Proof.
  assert (H1 : pc prompting_machine = Dialing false) by (vm_compute; reflexivity).
  assert (H2 : SSHPassword (t_config (tun prompting_machine)) = "")
    by (vm_compute; reflexivity).
  assert (H3 : PasswordPrompt (tun prompting_machine) = Some "secret")
    by (vm_compute; reflexivity).
  repeat (split; [assumption|]).
  exact (proj1 (proj2 (password_prompt_retry bare_host prompting_machine "denied" "secret"
                         H1 H2 H3))).
Defined.



(** ** More on the two relays (proxy.go, ssh_tunnel.go) *)

Lemma faulty_run_app (r : relay) (cs1 cs2 : list fault_choice) :
  faulty_run r (cs1 ++ cs2) = faulty_run (faulty_run r cs1) cs2.
Proof. unfold faulty_run. apply foldl_app. Qed.

Lemma faulty_run_sched (cs : list choice) : forall r,
  faulty_run r (map Sched cs) = relay_run r cs.
Proof.
  induction cs as [|c cs IH]; intros r; simpl; [reflexivity|]. apply IH.
Qed.

Lemma connect_relay_inv_faulty (r : relay) (c : fault_choice) :
  connect_relay_inv r -> connect_relay_inv (faulty_step r c).
Proof.
  destruct c as [c|b]; [apply connect_relay_inv_step|].
  intros (H1 & H2 & Hwg & Hwt).
  destruct r as [q1 q2 n wt eA eB fA fB cA cB]. simpl in *.
  unfold connect_relay_inv, connect_routine_ok in *. simpl in *.
  destruct H1 as [-> | [-> | [[-> H1] | [-> H1]]]];
    destruct H2 as [-> | [-> | [[-> H2] | [-> H2]]]];
    simpl in *; subst; destruct b; simpl;
    try destruct wt; simpl;
    repeat split; try tauto; try (intros; discriminate);
    try (right; tauto); try (right; right; tauto);
    try (intro Hx; destruct (Hwt Hx) as (? & ? & ? & ?); congruence);
    try (destruct (Hwt eq_refl) as (? & ? & ? & ?); congruence).
Qed.

Lemma connect_closed_inv_step (r : relay) (c : fault_choice) :
  connect_closed_inv r -> connect_closed_inv (faulty_step r c).
Proof.
  intros (Hi & HC). split; [apply connect_relay_inv_faulty, Hi|].
  destruct Hi as (R1 & R2 & Hwg & Hwt).
  destruct r as [q1 q2 n wt eA eB fA fB cA cB]. simpl in *.
  unfold connect_routine_ok in *. simpl in *.
  destruct c as [[ | | | [|] | [|] ] | [|]]; simpl; try exact HC.
  - destruct q1 as [|k q1]; [exact HC|].
    destruct k as [d s'|s'|]; simpl.
    + destruct s'; simpl; [destruct eA | destruct eB]; simpl; exact HC.
    + destruct s'; simpl; exact HC.
    + exact HC.
  - destruct q2 as [|k q2]; [exact HC|].
    destruct k as [d s'|s'|]; simpl.
    + destruct s'; simpl; [destruct eA | destruct eB]; simpl; exact HC.
    + destruct s'; simpl; exact HC.
    + exact HC.
  - destruct (Nat.eqb n 0); simpl; [intros Hx; discriminate Hx | exact HC].
  - destruct fA; simpl; exact HC.
  - destruct fB; simpl; exact HC.
Qed.

Lemma connect_first_inv_step (r : relay) (c : fault_choice) :
  (match c with CopyFails true => false | _ => true end) = true ->
  connect_first_inv r -> connect_first_inv (faulty_step r c).
Proof.
  intros Hc (Hi & H1 & HB).
  split; [apply connect_relay_inv_faulty, Hi|].
  destruct Hi as (R1 & R2 & Hwg & Hwt).
  destruct r as [q1 q2 n wt eA eB fA fB cA cB]. simpl in *.
  unfold connect_routine_ok in *. simpl in *.
  destruct R1 as [-> | [-> | [[-> R1] | [-> R1]]]];
    destruct R2 as [-> | [-> | [[-> R2] | [-> R2]]]];
    simpl in *; subst;
    destruct H1 as [H1|H1]; try discriminate H1; subst;
    destruct c as [[ | | | [|] | [|] ] | [|]]; try discriminate Hc; simpl;
    try destruct eA; try destruct eB; try destruct fA; try destruct fB; simpl;
    repeat split; auto; try (intros; discriminate);
    try (left; reflexivity); try (intros _; auto).
Qed.

Lemma connect_second_inv_step (r : relay) (c : fault_choice) :
  (match c with CopyFails false => false | _ => true end) = true ->
  connect_second_inv r -> connect_second_inv (faulty_step r c).
Proof.
  intros Hc (Hi & H2 & HA).
  split; [apply connect_relay_inv_faulty, Hi|].
  destruct Hi as (R1 & R2 & Hwg & Hwt).
  destruct r as [q1 q2 n wt eA eB fA fB cA cB]. simpl in *.
  unfold connect_routine_ok in *. simpl in *.
  destruct R1 as [-> | [-> | [[-> R1] | [-> R1]]]];
    destruct R2 as [-> | [-> | [[-> R2] | [-> R2]]]];
    simpl in *; subst;
    destruct H2 as [H2|H2]; try discriminate H2; subst;
    destruct c as [[ | | | [|] | [|] ] | [|]]; try discriminate Hc; simpl;
    try destruct eA; try destruct eB; try destruct fA; try destruct fB; simpl;
    repeat split; auto; try (intros; discriminate);
    try (left; reflexivity); try (intros _; auto).
Qed.

Lemma connect_closed_inv_run (cs : list fault_choice) : forall r,
  connect_closed_inv r -> connect_closed_inv (faulty_run r cs).
Proof.
  induction cs as [|c cs IH]; intros r Hr; simpl; [exact Hr|].
  apply IH, connect_closed_inv_step, Hr.
Qed.

Lemma connect_first_inv_run (cs : list fault_choice) : forall r,
  first_copy_holds cs = true ->
  connect_first_inv r -> connect_first_inv (faulty_run r cs).
Proof.
  induction cs as [|c cs IH]; intros r Hcs Hr; simpl in *; [exact Hr|].
  apply andb_true_iff in Hcs. destruct Hcs as [Hc Hcs].
  apply IH; [exact Hcs|]. apply connect_first_inv_step; assumption.
Qed.

Lemma connect_second_inv_run (cs : list fault_choice) : forall r,
  second_copy_holds cs = true ->
  connect_second_inv r -> connect_second_inv (faulty_run r cs).
Proof.
  induction cs as [|c cs IH]; intros r Hcs Hr; simpl in *; [exact Hr|].
  apply andb_true_iff in Hcs. destruct Hcs as [Hc Hcs].
  apply IH; [exact Hcs|]. apply connect_second_inv_step; assumption.
Qed.

(** Once the stream of one peer has ended, or one goroutine is past its
    copy, six rounds end the relay of [handleConnect]. *)
Lemma connect_relay_finishes_any (r : relay) :
  connect_relay_inv r ->
  eofA r = true \/ eofB r = true
  \/ g1 r <> [Copy SideB SideA; CloseWrite SideB; WgDone]
  \/ g2 r <> [Copy SideA SideB; CloseWrite SideA; WgDone] ->
  relay_over (relay_run r (rounds 6)) = true.
Proof.
  intros (H1 & H2 & Hwg & Hwt) Hev.
  destruct r as [q1 q2 n wt eA eB fA fB cA cB].
  unfold connect_routine_ok in H1, H2.
  cbn [g1 g2 wg waited eofA eofB finA finB closedA closedB] in H1, H2, Hwg, Hwt, Hev.
  assert (Hw : wt = true -> q1 = [] /\ q2 = [] /\ cA = true /\ cB = true) by exact Hwt.
  clear Hwt.
  destruct H1 as [-> | [-> | [[-> H1] | [-> H1]]]];
    destruct H2 as [-> | [-> | [[-> H2] | [-> H2]]]];
    cbn [running Nat.add] in Hwg; subst n; try subst fA; try subst fB;
    destruct wt;
    try (destruct (Hw eq_refl) as (Ha & Hb & Hc & Hd); try discriminate Ha;
         try discriminate Hb; subst cA cB);
    clear Hw;
    destruct eA, eB;
    try (destruct Hev as [Hev|[Hev|[Hev|Hev]]];
         first [discriminate Hev | destruct (Hev eq_refl)]; fail);
    clear Hev;
    try destruct cA; try destruct cB; try destruct fA; try destruct fB;
    vm_compute; reflexivity.
Qed.

(** X21.  The relay of [handleConnect], under every schedule, with copies
    that may fail.  While the copy from the client has not failed, the
    write side of the target is shut only after the end of the client's
    stream was read, and likewise the other way.  A copy that fails is
    followed by the same [CloseWrite], so a write side can then be shut
    although the other stream has not ended.  The handler returns, and
    closes the two connections, only after both goroutines are through and
    both write sides are shut; nothing is closed before.  And whichever
    peer ends its stream first, or whichever copy fails first, six rounds
    in which every party gets a turn bring the relay to its end with both
    connections closed. *)
Theorem connect_relay_ends_in_order (cs : list fault_choice) :
  let r := faulty_run (relay_start handleConnect_routines) cs in
  (first_copy_holds cs = true -> finB r = true -> eofA r = true)
  /\ (second_copy_holds cs = true -> finA r = true -> eofB r = true)
  /\ (let r' := faulty_run (relay_start handleConnect_routines)
                  [CopyFails true; Sched RunFirst] in
      finB r' = true /\ eofA r' = false)
  /\ (waited r = true ->
      g1 r = [] /\ g2 r = [] /\ finA r = true /\ finB r = true
      /\ closedA r = true /\ closedB r = true /\ wg r = 0%nat)
  /\ (waited r = false -> closedA r = false /\ closedB r = false)
  /\ (forall e,
        (exists s, e = Sched (PeerShuts s)) \/ (exists b, e = CopyFails b) ->
        relay_over (faulty_run (relay_start handleConnect_routines)
                      (cs ++ e :: fair_rounds 6)) = true).
Proof.
  assert (H0 : connect_relay_inv (relay_start handleConnect_routines)).
  { unfold connect_relay_inv, connect_routine_ok. simpl.
    repeat split; try tauto; intros; discriminate. }
  assert (Hc0 : connect_closed_inv (relay_start handleConnect_routines)).
  { split; [exact H0|]. intros _. split; reflexivity. }
  assert (Hf0 : connect_first_inv (relay_start handleConnect_routines)).
  { split; [exact H0|]. split; [left; reflexivity | intros Hx; discriminate Hx]. }
  assert (Hs0 : connect_second_inv (relay_start handleConnect_routines)).
  { split; [exact H0|]. split; [left; reflexivity | intros Hx; discriminate Hx]. }
  cbv zeta.
  pose proof (connect_closed_inv_run cs _ Hc0) as (Hi & HC).
  split; [|split; [|split; [|split; [|split]]]].
  - intros Hcs. exact (proj2 (proj2 (connect_first_inv_run cs _ Hcs Hf0))).
  - intros Hcs. exact (proj2 (proj2 (connect_second_inv_run cs _ Hcs Hs0))).
  - split; reflexivity.
  - intros Hw. destruct Hi as (R1 & R2 & Hwg & Hwt).
    destruct (Hwt Hw) as (E1 & E2 & Ca & Cb).
    rewrite E1 in R1, Hwg. rewrite E2 in R2, Hwg.
    unfold connect_routine_ok in R1, R2.
    destruct R1 as [R1|[R1|[[R1 F1]|[_ F1]]]]; try discriminate R1.
    destruct R2 as [R2|[R2|[[R2 F2]|[_ F2]]]]; try discriminate R2.
    simpl in Hwg. auto 10.
  - exact HC.
  - intros e He. rewrite faulty_run_app.
    change (e :: fair_rounds 6) with ([e] ++ fair_rounds 6).
    rewrite faulty_run_app. unfold fair_rounds. rewrite faulty_run_sched.
    apply connect_relay_finishes_any.
    + apply (connect_relay_inv_faulty _ e). exact Hi.
    + destruct Hi as (R1 & R2 & _).
      destruct (faulty_run (relay_start handleConnect_routines) cs)
        as [q1 q2 n wt eA eB fA fB cA cB].
      unfold connect_routine_ok in R1, R2. simpl in R1, R2.
      destruct He as [[s ->]|[b ->]].
      * destruct s; simpl; auto.
      * destruct b; simpl.
        -- right. right. left.
           destruct R1 as [-> | [-> | [[-> _] | [-> _]]]]; simpl; discriminate.
        -- right. right. right.
           destruct R2 as [-> | [-> | [[-> _] | [-> _]]]]; simpl; discriminate.
Qed.

Lemma tunnel_shape_inv_step (r : relay) (c : fault_choice) :
  tunnel_shape_inv r -> tunnel_shape_inv (faulty_step r c).
Proof.
  intros (H1 & H2 & Hwg & Hwt & Hnw).
  destruct r as [q1 q2 n wt eA eB fA fB cA cB]. simpl in *.
  unfold tunnel_shape_inv. simpl.
  destruct H1 as [-> | [-> | ->]];
    destruct H2 as [-> | [-> | ->]];
    simpl in *; subst;
    destruct wt;
    try (destruct (Hwt eq_refl) as (Ha & Hb & Hc & Hd); try discriminate Ha;
         try discriminate Hb; subst);
    try (destruct (Hnw eq_refl) as (Ha & Hb & Hc & Hd); subst);
    destruct c as [[ | | | [|] | [|] ] | [|]]; simpl;
    try destruct eA; try destruct eB; try destruct fA; try destruct fB; simpl;
    repeat split; auto; try (intros; discriminate).
Qed.

Lemma tunnel_first_inv_step (r : relay) (c : fault_choice) :
  (match c with CopyFails true => false | _ => true end) = true ->
  tunnel_first_inv r -> tunnel_first_inv (faulty_step r c).
Proof.
  intros Hc (Hi & H1). split; [apply tunnel_shape_inv_step, Hi|].
  destruct Hi as (S1 & _).
  destruct r as [q1 q2 n wt eA eB fA fB cA cB]. simpl in *.
  destruct c as [[ | | | [|] | [|] ] | [|]]; try discriminate Hc; simpl; auto.
  - destruct S1 as [-> | [-> | ->]]; simpl.
    + destruct eA; simpl; auto.
    + destruct H1 as [H1|H1]; [discriminate H1 | auto].
    + exact H1.
  - destruct q2 as [|k q2]; [exact H1|].
    destruct k as [d s'|s'|]; simpl.
    + destruct s'; simpl; [destruct eA | destruct eB]; simpl; exact H1.
    + destruct s'; simpl; exact H1.
    + exact H1.
  - destruct (Nat.eqb n 0); simpl; exact H1.
  - destruct fA; simpl; auto.
  - destruct fB; simpl; auto.
Qed.

Lemma tunnel_second_inv_step (r : relay) (c : fault_choice) :
  (match c with CopyFails false => false | _ => true end) = true ->
  tunnel_second_inv r -> tunnel_second_inv (faulty_step r c).
Proof.
  intros Hc (Hi & H2). split; [apply tunnel_shape_inv_step, Hi|].
  destruct Hi as (_ & S2 & _).
  destruct r as [q1 q2 n wt eA eB fA fB cA cB]. simpl in *.
  destruct c as [[ | | | [|] | [|] ] | [|]]; try discriminate Hc; simpl; auto.
  - destruct q1 as [|k q1]; [exact H2|].
    destruct k as [d s'|s'|]; simpl.
    + destruct s'; simpl; [destruct eA | destruct eB]; simpl; exact H2.
    + destruct s'; simpl; exact H2.
    + exact H2.
  - destruct S2 as [-> | [-> | ->]]; simpl.
    + destruct eB; simpl; auto.
    + destruct H2 as [H2|H2]; [discriminate H2 | auto].
    + exact H2.
  - destruct (Nat.eqb n 0); simpl; exact H2.
  - destruct fA; simpl; auto.
  - destruct fB; simpl; auto.
Qed.

Lemma tunnel_shape_inv_run (cs : list fault_choice) : forall r,
  tunnel_shape_inv r -> tunnel_shape_inv (faulty_run r cs).
Proof.
  induction cs as [|c cs IH]; intros r Hr; simpl; [exact Hr|].
  apply IH, tunnel_shape_inv_step, Hr.
Qed.

Lemma tunnel_first_inv_run (cs : list fault_choice) : forall r,
  first_copy_holds cs = true ->
  tunnel_first_inv r -> tunnel_first_inv (faulty_run r cs).
Proof.
  induction cs as [|c cs IH]; intros r Hcs Hr; simpl in *; [exact Hr|].
  apply andb_true_iff in Hcs. destruct Hcs as [Hc Hcs].
  apply IH; [exact Hcs|]. apply tunnel_first_inv_step; assumption.
Qed.

Lemma tunnel_second_inv_run (cs : list fault_choice) : forall r,
  second_copy_holds cs = true ->
  tunnel_second_inv r -> tunnel_second_inv (faulty_run r cs).
Proof.
  induction cs as [|c cs IH]; intros r Hcs Hr; simpl in *; [exact Hr|].
  apply andb_true_iff in Hcs. destruct Hcs as [Hc Hcs].
  apply IH; [exact Hcs|]. apply tunnel_second_inv_step; assumption.
Qed.

(** Once each goroutine is past its copy or the stream it reads has
    ended, two rounds end the relay of [handleRemoteConnection]. *)
Lemma tunnel_relay_finishes (r : relay) :
  tunnel_shape_inv r ->
  g1 r <> [Copy SideB SideA; WgDone] \/ eofA r = true ->
  g2 r <> [Copy SideA SideB; WgDone] \/ eofB r = true ->
  relay_over (relay_run r (rounds 2)) = true.
Proof.
  intros (H1 & H2 & Hwg & Hwt & Hnw) HA HB.
  destruct r as [q1 q2 n wt eA eB fA fB cA cB].
  cbn [g1 g2 wg waited eofA eofB finA finB closedA closedB]
    in H1, H2, Hwg, Hwt, Hnw, HA, HB.
  destruct H1 as [-> | [-> | ->]];
    destruct H2 as [-> | [-> | ->]];
    cbn [running Nat.add] in Hwg; subst n;
    destruct wt;
    try (destruct (Hwt eq_refl) as (Ha & Hb & Hc & Hd); try discriminate Ha;
         try discriminate Hb; subst);
    try (destruct (Hnw eq_refl) as (Ha & Hb & Hc & Hd); subst);
    clear Hwt Hnw;
    destruct eA, eB;
    try (destruct HA as [HA|HA]; first [discriminate HA | destruct (HA eq_refl)]; fail);
    try (destruct HB as [HB|HB]; first [discriminate HB | destruct (HB eq_refl)]; fail);
    clear HA HB;
    try destruct fA; try destruct fB;
    vm_compute; reflexivity.
Qed.

(** X22.  The relay of [handleRemoteConnection], under every schedule,
    with copies that may fail.  Until the handler returns no write side is
    shut and no connection is closed; it returns, and closes both, only
    after both goroutines are through.  While its copy has not failed, a
    goroutine is past its copy only after the end of its source was read,
    so a handler whose copies did not fail has returned only after both
    streams have ended; when both copies fail it returns although no
    stream has ended.  Once both peers have ended their streams, or both
    copies have failed, two rounds in which every party gets a turn bring
    the relay to its end. *)
Theorem tunnel_relay_ends_after_both (cs : list fault_choice) :
  let start := relay_start handleRemoteConnection_routines in
  let r := faulty_run start cs in
  (waited r = false ->
   finA r = false /\ finB r = false /\ closedA r = false /\ closedB r = false)
  /\ (waited r = true ->
      g1 r = [] /\ g2 r = [] /\ closedA r = true /\ closedB r = true
      /\ wg r = 0%nat)
  /\ (first_copy_holds cs = true -> g1 r <> [Copy SideB SideA; WgDone] ->
      eofA r = true)
  /\ (second_copy_holds cs = true -> g2 r <> [Copy SideA SideB; WgDone] ->
      eofB r = true)
  /\ (first_copy_holds cs = true -> second_copy_holds cs = true ->
      waited r = true -> eofA r = true /\ eofB r = true)
  /\ (let r' := faulty_run start
                  [CopyFails true; CopyFails false;
                   Sched RunFirst; Sched RunSecond; Sched RunWait] in
      waited r' = true /\ eofA r' = false /\ eofB r' = false)
  /\ relay_over (faulty_run start
                   (cs ++ Sched (PeerShuts SideA) :: Sched (PeerShuts SideB)
                       :: fair_rounds 2)) = true
  /\ relay_over (faulty_run start
                   (cs ++ CopyFails true :: CopyFails false :: fair_rounds 2)) = true.
Proof.
  assert (H0 : tunnel_shape_inv (relay_start handleRemoteConnection_routines)).
  { unfold tunnel_shape_inv. simpl. repeat split; auto; intros; discriminate. }
  assert (Hf0 : tunnel_first_inv (relay_start handleRemoteConnection_routines))
    by (split; [exact H0 | left; reflexivity]).
  assert (Hs0 : tunnel_second_inv (relay_start handleRemoteConnection_routines))
    by (split; [exact H0 | left; reflexivity]).
  cbv zeta.
  pose proof (tunnel_shape_inv_run cs _ H0) as Hi.
  assert (Hfirst : first_copy_holds cs = true ->
            g1 (faulty_run (relay_start handleRemoteConnection_routines) cs)
            <> [Copy SideB SideA; WgDone] ->
            eofA (faulty_run (relay_start handleRemoteConnection_routines) cs) = true).
  { intros Hcs Hne. destruct (tunnel_first_inv_run cs _ Hcs Hf0) as (_ & [H|H]);
      [destruct (Hne H) | exact H]. }
  assert (Hsecond : second_copy_holds cs = true ->
            g2 (faulty_run (relay_start handleRemoteConnection_routines) cs)
            <> [Copy SideA SideB; WgDone] ->
            eofB (faulty_run (relay_start handleRemoteConnection_routines) cs) = true).
  { intros Hcs Hne. destruct (tunnel_second_inv_run cs _ Hcs Hs0) as (_ & [H|H]);
      [destruct (Hne H) | exact H]. }
  destruct Hi as (H1 & H2 & Hwg & Hwt & Hnw).
  split; [exact Hnw|]. split; [|split; [exact Hfirst|split; [exact Hsecond|split; [|split; [|split]]]]].
  - intros Hw. destruct (Hwt Hw) as (E1 & E2 & Ca & Cb).
    rewrite E1, E2 in Hwg. simpl in Hwg. auto 10.
  - intros Hc1 Hc2 Hw. destruct (Hwt Hw) as (E1 & E2 & _).
    split; [apply Hfirst | apply Hsecond]; try assumption.
    + rewrite E1. discriminate.
    + rewrite E2. discriminate.
  - repeat split; reflexivity.
  - rewrite faulty_run_app.
    change (Sched (PeerShuts SideA) :: Sched (PeerShuts SideB) :: fair_rounds 2)
      with ([Sched (PeerShuts SideA); Sched (PeerShuts SideB)] ++ fair_rounds 2).
    rewrite faulty_run_app. unfold fair_rounds. rewrite faulty_run_sched.
    apply tunnel_relay_finishes.
    + apply tunnel_shape_inv_run, tunnel_shape_inv_run, H0.
    + right. simpl.
      destruct (faulty_run (relay_start handleRemoteConnection_routines) cs). reflexivity.
    + right. simpl.
      destruct (faulty_run (relay_start handleRemoteConnection_routines) cs). reflexivity.
  - rewrite faulty_run_app.
    change (CopyFails true :: CopyFails false :: fair_rounds 2)
      with ([CopyFails true; CopyFails false] ++ fair_rounds 2).
    rewrite faulty_run_app. unfold fair_rounds. rewrite faulty_run_sched.
    apply tunnel_relay_finishes.
    + apply tunnel_shape_inv_run, tunnel_shape_inv_run, H0.
    + left. simpl.
      destruct (faulty_run (relay_start handleRemoteConnection_routines) cs)
        as [q1 q2 n wt eA eB fA fB cA cB]. simpl in H1 |- *.
      destruct H1 as [-> | [-> | ->]]; simpl; discriminate.
    + left. simpl.
      destruct (faulty_run (relay_start handleRemoteConnection_routines) cs)
        as [q1 q2 n wt eA eB fA fB cA cB]. simpl in H2 |- *.
      destruct H2 as [-> | [-> | ->]]; simpl; discriminate.
Qed.

(** ** Loading the configuration (config.go) *)

Lemma normalize_top_level ids n c :
  let c' := fst (normalize ids n c) in
  RecordName c' = RecordName c /\ SSHHost c' = SSHHost c /\ SSHPort c' = SSHPort c
  /\ SSHUser c' = SSHUser c /\ SSHPassword c' = SSHPassword c
  /\ SSHKeyPath c' = SSHKeyPath c /\ SSHKeyPassphrase c' = SSHKeyPassphrase c
  /\ ProxyPort c' = ProxyPort c /\ RemotePort c' = RemotePort c
  /\ HTTPProxy c' = HTTPProxy c /\ HTTPSProxy c' = HTTPSProxy c
  /\ LogLevel c' = LogLevel c.
Proof.
  cbv zeta. unfold normalize.
  destruct (Records c) as [|r0 rs0] eqn:Er.
  - destruct (normalize_records ids (S n) _) as [rs n2].
    repeat case_match; destruct c; cbn; repeat split; reflexivity.
  - destruct (normalize_records ids n (Records c)) as [rs n2].
    repeat case_match; destruct c; cbn; repeat split; reflexivity.
Qed.

Lemma normalize_records_draws ids rs : forall k,
  (k <= snd (normalize_records ids k rs))%nat.
Proof.
  induction rs as [|r rs IH]; intros k; cbn [normalize_records]; [simpl; lia|].
  destruct (String.eqb (rec_ID (applyDefaultsToRecord r)) "").
  - specialize (IH (S k)). destruct (normalize_records ids (S k) rs) as [rest n2].
    cbn [snd] in *. lia.
  - specialize (IH k). destruct (normalize_records ids k rs) as [rest n2].
    cbn [snd] in *. lia.
Qed.

Lemma normalize_draws ids n c : (n <= snd (normalize ids n c))%nat.
Proof.
  unfold normalize. destruct (Records c) as [|r0 rs0].
  - match goal with
    | |- context [normalize_records ids (S n) ?rs] =>
        pose proof (normalize_records_draws ids rs (S n)) as H;
        destruct (normalize_records ids (S n) rs) as [rs' n2]
    end.
    cbn [snd] in *. lia.
  - pose proof (normalize_records_draws ids (Records c) n) as H.
    destruct (normalize_records ids n (Records c)) as [rs' n2].
    cbn [snd] in *. lia.
Qed.

(** X23.  What [LoadOrCreateConfig] hands to the application.  With no
    file: the default configuration, which holds one record with a fresh
    identifier and the ports 22, 8080 and 8080, repeats that record in its
    own fields, logs at [INFO], and is not complete.  With a file that
    parses: a normalized configuration whose own fields, the two secrets
    among them, are those of the file, and the very configuration of the
    file when that was normalized already.  With a file that cannot be
    read or parsed: an error, and no identifier is drawn. *)
Theorem LoadOrCreateConfig_outcomes (ids : idsource) (n : nat)
    (Hids : ids_nonempty ids) :
  (exists c, LoadOrCreateConfig ids n FileMissing = (inl c, S n)
     /\ settled c /\ IsComplete c = false
     /\ Records c = [mkRemoteRecord (ids n) "" "" 22 "" "" 8080 8080 "" "" ""]
     /\ ActiveID c = ids n
     /\ SSHPort c = 22 /\ ProxyPort c = 8080 /\ RemotePort c = 8080
     /\ LogLevel c = "INFO")
  /\ (forall c0, exists c n',
        LoadOrCreateConfig ids n (FileParsed c0) = (inl c, n')
        /\ normalized c = true /\ (n <= n')%nat
        /\ SSHHost c = SSHHost c0 /\ SSHUser c = SSHUser c0
        /\ SSHPort c = SSHPort c0 /\ ProxyPort c = ProxyPort c0
        /\ RemotePort c = RemotePort c0 /\ LogLevel c = LogLevel c0
        /\ SSHPassword c = SSHPassword c0
        /\ SSHKeyPassphrase c = SSHKeyPassphrase c0
        /\ (normalized c0 = true -> c = c0 /\ n' = n))
  /\ (forall f err, f = FileUnreadable err \/ f = FileUnparsable err ->
        exists msg, LoadOrCreateConfig ids n f = (inr msg, n)
                    /\ has_substring msg err).
Proof.
  split; [|split].
  - unfold LoadOrCreateConfig, DefaultConfig. eexists. split; [reflexivity|].
    set (r := mkRemoteRecord (ids n) "" "" 22 "" "" 8080 8080 "" "" "").
    set (c := mkConfig [r] (rec_ID r) "" "" 0 "" "" "" "" 0 0 "" "" "").
    assert (Hn : normalized c = true).
    { apply normalized_intro; simpl.
      - discriminate.
      - unfold record_ready. simpl.
        destruct (String.eqb_spec (ids n) "") as [E|E]; [destruct (Hids n E)|].
        reflexivity.
      - apply Hids.
      - unfold findRecordIndex. simpl. rewrite String.eqb_refl. discriminate. }
    split; [apply sync_settles, Hn|].
    unfold syncLegacyFromActive, getActiveRecord. simpl.
    destruct (String.eqb_spec (ids n) "") as [E|E]; [destruct (Hids n E)|].
    simpl. rewrite String.eqb_refl. simpl. repeat split; reflexivity.
  - intros c0. unfold LoadOrCreateConfig.
    pose proof (normalize_is_normalized ids n c0 Hids) as Hn.
    pose proof (normalize_top_level ids n c0) as Ht. cbv zeta in Ht.
    pose proof (normalize_draws ids n c0) as Hd.
    pose proof (normalize_normalized ids n c0) as Hid.
    destruct (normalize ids n c0) as [c n']. simpl in *.
    exists c, n'. split; [reflexivity|].
    destruct Ht as (_ & H1 & H2 & H3 & H4 & _ & H6 & H7 & H8 & _ & _ & H11).
    repeat (split; [assumption|]).
    intros Hc0. specialize (Hid Hc0). injection Hid as -> ->. auto.
  - intros f err [-> | ->]; simpl; eexists; (split; [reflexivity|]).
    + exists "failed to read config: ", "". rewrite append_nil_r. reflexivity.
    + exists "failed to parse config: ", "". rewrite append_nil_r. reflexivity.
Qed.

Lemma LoadOrCreateConfig_outcomes_witness :
  ids_nonempty sample_ids
  /\ exists c, LoadOrCreateConfig sample_ids 0 FileMissing = (inl c, 1%nat)
               /\ IsComplete c = false.
Proof.
  split; [exact sample_ids_nonempty|].
  destruct (proj1 (LoadOrCreateConfig_outcomes sample_ids 0 sample_ids_nonempty))
    as (c & H1 & _ & H2 & _).
  exists c. split; [exact H1 | exact H2].
Defined.

(** X24.  A file of the old layout, with no list of records.  Loading it
    makes one record out of the fields of the file, with a fresh
    identifier and the default for every port that is zero, and makes it
    the active one, whatever the file named as active.  The record takes
    no log level: the configuration still shows the level of the file
    after the load, and [INFO] after the first [Save], which writes the
    fields of the record back over those of the configuration. *)
Theorem legacy_profile_migrated (ids : idsource) (n n' : nat) (c0 : Config)
    (Hids : ids_nonempty ids)
    (Hlegacy : Records c0 = []) :
  let r := applyDefaultsToRecord
             (mkRemoteRecord (ids n) (RecordName c0) (SSHHost c0) (SSHPort c0)
                (SSHUser c0) (SSHKeyPath c0) (ProxyPort c0) (RemotePort c0)
                (HTTPProxy c0) (HTTPSProxy c0) "") in
  exists c,
    LoadOrCreateConfig ids n (FileParsed c0) = (inl c, S n)
    /\ Records c = [r] /\ ActiveID c = ids n /\ getActiveRecord c = Some r
    /\ LogLevel c = LogLevel c0
    /\ SSHPort c = SSHPort c0
    /\ (let saved := fst (Save_receiver ids n' c) in
        Records saved = [r] /\ ActiveID saved = ids n
        /\ LogLevel saved = "INFO"
        /\ SSHPort saved = (if SSHPort c0 =? 0 then 22 else SSHPort c0)
        /\ SSHHost saved = SSHHost c0 /\ SSHUser saved = SSHUser c0
        /\ SSHPassword saved = SSHPassword c0).
Proof.
  cbv zeta.
  set (r := applyDefaultsToRecord _).
  assert (Hr : record_ready r = true).
  { subst r. apply defaults_ready. simpl. apply Hids. }
  assert (Hid : rec_ID r = ids n) by reflexivity.
  assert (Hne : String.eqb (ids n) "" = false).
  { destruct (String.eqb_spec (ids n) "") as [E|E]; [destruct (Hids n E) | reflexivity]. }
  assert (Hnorm : normalize ids n c0
                  = (set_ActiveID (ids n) (set_Records [r] c0), S n)).
  { unfold normalize. rewrite Hlegacy. fold r.
    change (Records (set_Records [r] c0)) with [r].
    rewrite (normalize_records_ready ids [r] (S n))
      by (simpl; rewrite Hr; reflexivity).
    change (set_Records [r] (set_Records [r] c0)) with (set_Records [r] c0).
    change (Records (set_Records [r] c0)) with [r].
    change (ActiveID (set_Records [r] c0)) with (ActiveID c0).
    change (first_ID [r]) with (ids n).
    destruct (String.eqb_spec (ActiveID c0) "") as [E|E]; simpl negb; simpl andb.
    - change (ActiveID (set_ActiveID (ids n) (set_Records [r] c0))) with (ids n).
      rewrite Hne. simpl negb.
      unfold findRecordIndex. change (Records (set_ActiveID (ids n) (set_Records [r] c0)))
        with [r].
      simpl. rewrite String.eqb_refl. reflexivity.
    - assert (E0 : String.eqb (ActiveID c0) "" = false)
        by (apply String.eqb_neq; exact E).
      unfold findRecordIndex. simpl. rewrite ?E0.
      destruct (String.eqb_spec (ids n) (ActiveID c0)) as [E'|E']; simpl.
      + rewrite E'. reflexivity.
      + reflexivity. }
  exists (set_ActiveID (ids n) (set_Records [r] c0)).
  unfold LoadOrCreateConfig. rewrite Hnorm.
  split; [reflexivity|]. split; [reflexivity|]. split; [reflexivity|].
  assert (Hact : getActiveRecord (set_ActiveID (ids n) (set_Records [r] c0)) = Some r).
  { unfold getActiveRecord. simpl. rewrite Hne. simpl. rewrite String.eqb_refl.
    reflexivity. }
  split; [exact Hact|]. split; [reflexivity|]. split; [reflexivity|].
  assert (Hn : normalized (set_ActiveID (ids n) (set_Records [r] c0)) = true).
  { apply normalized_intro; simpl.
    - discriminate.
    - rewrite Hr. reflexivity.
    - apply Hids.
    - unfold findRecordIndex. simpl. rewrite String.eqb_refl. discriminate. }
  unfold Save_receiver. rewrite (normalize_normalized ids n' _ Hn).
  simpl fst. unfold syncLegacyFromActive. rewrite Hact.
  simpl. repeat split; reflexivity.
Qed.

Lemma legacy_profile_migrated_witness :
  ids_nonempty sample_ids /\ Records sample_config = []
  /\ LogLevel (fst (Save_receiver sample_ids 1
                      (set_ActiveID "id0"
                         (set_Records
                            [mkRemoteRecord "id0" "" "b.example" 22 "dev" "" 8080 8080
                               "" "" ""]
                            (mkConfig [] "" "" "b.example" 22 "dev" "" "" "" 8080 8080
                               "" "" "DEBUG"))))) = "INFO".
Proof.
  split; [exact sample_ids_nonempty|]. split; [reflexivity|].
  destruct (legacy_profile_migrated sample_ids 0 1
              (mkConfig [] "" "" "b.example" 22 "dev" "" "" "" 8080 8080 "" "" "DEBUG")
              sample_ids_nonempty eq_refl)
    as (c & H1 & _ & _ & _ & _ & _ & _ & _ & H & _).
  injection H1 as <-. exact H.
Defined.

(** ** The status after [Stop] (app.go, ssh_tunnel.go) *)

(** X25.  The status can outlive [Stop].  When [App.Stop] stops a tunnel
    that is in the middle of a dial, the status is reset and the
    application forgets the proxy and the tunnel.  But the dial goes on,
    and when it fails the tunnel still calls the status callback and
    [Start] returns the error of the dial: the application then reports a
    running proxy and that error, while it holds neither a proxy nor a
    tunnel. *)
Theorem status_outlives_Stop (h : hostenv) (m : machine) (retry : bool)
    (e now : string) (a : App) (s : Session)
    (Hpc : pc m = Dialing retry)
    (Hcb : OnStatusChange (tun m) = true)
    (Hprompt : PasswordPrompt (tun m) = None)
    (Hstop : stopChan_closed (tun m) = true)
    (Hrec : reconnect (tun m) = false) :
  let a1 := fst (fst (App_Stop now a s)) in
  let s1 := snd (fst (App_Stop now a s)) in
  let outs := snd (step h m (DialResult (Some e))) in
  let st := foldl (App_tunnel_output now) (a1, s1) outs in
  let err := "failed to dial SSH: " +:+ e in
  status s1 = mkStatus false false false "" (StartTime (status s))
  /\ pc (fst (step h m (DialResult (Some e)))) = Returned (Some err)
  /\ List.filter is_status outs = [OStatus false (Some err)]
  /\ proxy (snd st) = None /\ tunnel (snd st) = None /\ tunnelStop (snd st) = None
  /\ status (snd st) = mkStatus true false false err (StartTime (status s)).
Proof.
  cbv zeta. machine_cases m. subst.
  destruct retry, cl, li; crush_step; explode; repeat split; reflexivity.
Qed.

Lemma status_outlives_Stop_witness :
  pc stopped_while_dialing = Dialing false
  /\ OnStatusChange (tun stopped_while_dialing) = true
  /\ PasswordPrompt (tun stopped_while_dialing) = None
  /\ stopChan_closed (tun stopped_while_dialing) = true
  /\ reconnect (tun stopped_while_dialing) = false
  /\ ProxyRunning
       (status (snd (foldl (App_tunnel_output "12:00:00")
                       (fst (App_Stop "12:00:00" (mkApp sample_config []) NewSession))
                       (snd (step bare_host stopped_while_dialing
                               (DialResult (Some "timeout")))))))
     = true.
Proof.
  assert (H1 : pc stopped_while_dialing = Dialing false) by (vm_compute; reflexivity).
  assert (H2 : OnStatusChange (tun stopped_while_dialing) = true)
    by (vm_compute; reflexivity).
  assert (H3 : PasswordPrompt (tun stopped_while_dialing) = None)
    by (vm_compute; reflexivity).
  assert (H4 : stopChan_closed (tun stopped_while_dialing) = true)
    by (vm_compute; reflexivity).
  assert (H5 : reconnect (tun stopped_while_dialing) = false)
    by (vm_compute; reflexivity).
  repeat (split; [assumption|]).
  pose proof (status_outlives_Stop bare_host stopped_while_dialing false "timeout"
                "12:00:00" (mkApp sample_config []) NewSession H1 H2 H3 H4 H5) as H.
  cbv zeta in H. destruct H as (_ & _ & _ & _ & _ & _ & H).
  destruct (App_Stop "12:00:00" (mkApp sample_config []) NewSession) as [[a1 s1] evs].
  simpl fst in *. simpl snd in *. rewrite H. reflexivity.
Defined.

(** ** Starting the application (app.go) *)

Lemma DefaultConfig_normalized ids n :
  ids_nonempty ids -> normalized (fst (DefaultConfig ids n)) = true.
Proof.
  intros Hids. unfold DefaultConfig. simpl fst. rewrite sync_normalized.
  apply normalized_intro; simpl.
  - discriminate.
  - unfold record_ready. simpl.
    destruct (String.eqb_spec (ids n) "") as [E|E]; [destruct (Hids n E)|].
    reflexivity.
  - apply Hids.
  - unfold findRecordIndex. simpl. rewrite String.eqb_refl. discriminate.
Qed.

Lemma LoadOrCreateConfig_normalized ids n f c n' :
  ids_nonempty ids -> LoadOrCreateConfig ids n f = (inl c, n') ->
  normalized c = true.
Proof.
  intros Hids. destruct f as [|err|err|c0]; unfold LoadOrCreateConfig.
  - pose proof (DefaultConfig_normalized ids n Hids) as Hn.
    destruct (DefaultConfig ids n) as [c1 n1]. intros [= <- <-]. exact Hn.
  - discriminate.
  - discriminate.
  - pose proof (normalize_is_normalized ids n c0 Hids) as Hn.
    destruct (normalize ids n c0) as [c1 n1]. intros [= <- <-]. exact Hn.
Qed.

(** X26.  [startup] on the application [NewApp] makes.  When the
    configuration file is missing or parses, the application gets the
    loaded configuration, which is normalized, and the log holds the line
    that the start is complete, unless the configuration logs errors only.
    When the file cannot be read or parsed, [startup] panics: it logs the
    error before it has set a configuration, and [log] reads the log level
    through the nil pointer; the default configuration it would fall back
    on is never reached.  On an application that has a configuration
    already the same call does not panic. *)
Theorem startup_panics_on_bad_file (ids : idsource) (n : nat) (now : string)
    (Hids : ids_nonempty ids) :
  (forall f err, f = FileUnreadable err \/ f = FileUnparsable err ->
     startup ids n now f NewApp = (inr nil_dereference, n))
  /\ (forall f, f = FileMissing \/ (exists c0, f = FileParsed c0) ->
      exists c,
        fst (LoadOrCreateConfig ids n f) = inl c
        /\ normalized c = true
        /\ fst (startup ids n now f NewApp)
           = inl (mkBareApp (Some c)
                    (if shouldLog (LogLevel c) LevelInfo
                     then ["[" +:+ now +:+ "] " +:+ "应用启动完成"] else [])))
  /\ (forall f a c, bare_config a = Some c ->
      exists a' c', fst (startup ids n now f a) = inl a'
                    /\ bare_config a' = Some c' /\ normalized c' = true).
Proof.
  split; [|split].
  - intros f err [-> | ->]; reflexivity.
  - intros f Hf.
    assert (Hload : exists c n', LoadOrCreateConfig ids n f = (inl c, n')).
    { destruct Hf as [-> | [c0 ->]]; unfold LoadOrCreateConfig.
      - destruct (DefaultConfig ids n) as [c n']. eauto.
      - destruct (normalize ids n c0) as [c n']. eauto. }
    destruct Hload as (c & n' & Hl).
    pose proof (LoadOrCreateConfig_normalized ids n f c n' Hids Hl) as Hn. exists c.
    unfold startup. rewrite Hl. simpl fst. split; [reflexivity|]. split; [exact Hn|].
    unfold bare_addLog, addLog, App_log. simpl.
    destruct (shouldLog (LogLevel c) LevelInfo); reflexivity.
  - intros f a c Ha. unfold startup.
    destruct (LoadOrCreateConfig ids n f) as [[c1|err] n1] eqn:Hl.
    + pose proof (LoadOrCreateConfig_normalized ids n f c1 n1 Hids Hl) as Hn.
      unfold bare_addLog, addLog, App_log. simpl.
      destruct (shouldLog (LogLevel c1) LevelInfo); simpl; eauto.
    + unfold bare_addLog at 1. rewrite Ha.
      pose proof (DefaultConfig_normalized ids n1 Hids) as Hn.
      destruct (DefaultConfig ids n1) as [c' n'].
      unfold bare_addLog, addLog, App_log. simpl.
      destruct (shouldLog (LogLevel c') LevelInfo); simpl; eauto.
Qed.

Lemma startup_panics_on_bad_file_witness :
  ids_nonempty sample_ids
  /\ startup sample_ids 0 "12:00:00" (FileUnparsable "unexpected end of JSON input") NewApp
     = (inr nil_dereference, 0%nat).
Proof.
  split; [exact sample_ids_nonempty|].
  apply (proj1 (startup_panics_on_bad_file sample_ids 0 "12:00:00" sample_ids_nonempty)
           _ "unexpected end of JSON input").
  right. reflexivity.
Defined.
